(** * AesCtrP: AES counter mode with parametric nonce and sequence

    A shallow embedding of [aes-ctrp.js] ([AesCtrP.concat],
    [AesCtrP.leadingZeros], [AesCtrP.encrypt], [AesCtrP.decrypt]) and the
    properties of its shift amount, counter-block layout, framing and
    round trip, and of the helpers that [aes-ctr.js] adds to the same four
    functions ([AesCtrP.stringArrayBuffer], [AesCtrP.arrayBufferString],
    [AesCtrP.arrayBufferBase64]).

    JavaScript numbers that the code uses as integers are modelled as [Z];
    the 32-bit coercions of the bit operators are written out.  A
    [Uint8Array] is a [list Z] whose stores reduce modulo 256 and ignore
    indices out of range; a plain [Array] is a list of slots that may be
    holes.  The [while (1)] loop of [leadingZeros] takes fuel, and a call
    that never returns is one that is [None] for every amount of fuel.
    The block cipher ([Aes.cipher], [Aes.keyExpansion]) is not part of the
    repository: it is the class [AesCipher]; the clock and the random
    number generator are the class [Environment].  A string is the list
    of its UTF-16 code units.  [AesCtrP.base64ArrayBuffer] rests on the
    browser's [window.atob] and is not modelled. *)

From stdpp Require Import base option list list_numbers strings.
From Stdlib Require Import ZArith Lia.

Local Open Scope Z_scope.

(** ** JavaScript number coercions and bit operators *)

Module JS.

(** [ToUint32]: the value modulo 2^32. *)
Definition toUint32 (x : Z) : Z := x mod 2 ^ 32.

(** [ToInt32]: the value modulo 2^32, read as a signed 32-bit integer. *)
Definition toInt32 (x : Z) : Z := (x + 2 ^ 31) mod 2 ^ 32 - 2 ^ 31.

(** [x << k]: both operands coerced, the count masked to five bits, the
    result a signed 32-bit integer. *)
Definition shl (x k : Z) : Z := toInt32 (Z.shiftl (toInt32 x) (toUint32 k mod 32)).

(** [x >>> k]: unsigned shift right, the count masked to five bits. *)
Definition ushr (x k : Z) : Z := Z.shiftr (toUint32 x) (toUint32 k mod 32).

(** [x & y] on 32-bit integers. *)
Definition band (x y : Z) : Z := toInt32 (Z.land (toInt32 x) (toInt32 y)).

(** [x ^ y] on 32-bit integers. *)
Definition bxor (x y : Z) : Z := toInt32 (Z.lxor (toInt32 x) (toInt32 y)).

(** [ToUint8], the conversion of a store into a [Uint8Array]. *)
Definition toUint8 (x : Z) : Z := x mod 256.

(** [ToInt32] of an element read from an array: a missing element is
    [undefined], which coerces to 0. *)
Definition int32_of_elem (o : option Z) : Z :=
  match o with Some v => toInt32 v | None => 0 end.

(** [a\[i\]] on an array or typed array: [undefined] out of range. *)
Definition get (a : list Z) (i : Z) : option Z :=
  if i <? 0 then None else a !! Z.to_nat i.

(** [a\[i\] = v] on a [Uint8Array]: the value is reduced modulo 256, and
    a store out of range is ignored. *)
Definition u8_set (a : list Z) (i v : Z) : list Z :=
  if i <? 0 then a else <[Z.to_nat i := toUint8 v]> a.

(** [new Uint8Array(n)]: [n] zero bytes. *)
Definition u8_new (n : Z) : list Z := replicate (Z.to_nat n) 0.

(** [new Uint8Array(src)] for an array-like of numbers. *)
Definition u8_from (src : list Z) : list Z := toUint8 <$> src.

(** [for (var i = lo; i < hi; i++) body]: [n] iterations from [i]. *)
Fixpoint for_loop {S : Type} (n : nat) (i : Z) (body : Z -> S -> S) (s : S) : S :=
  match n with
  | O => s
  | Datatypes.S n' => for_loop n' (i + 1) body (body i s)
  end.

Definition for_range {S : Type} (lo hi : Z) (body : Z -> S -> S) (s : S) : S :=
  for_loop (Z.to_nat (hi - lo)) lo body s.

(** [dst.set(src, off)] on typed arrays, for a source that fits. *)
Definition u8_copy (dst src : list Z) (off : Z) : list Z :=
  for_range 0 (Z.of_nat (length src))
    (fun i d => u8_set d (off + i) (default 0 (get src i))) dst.

(** A plain [Array]: a slot is a value or a hole. [new Array(n)] is [n]
    holes; a store keeps the value as it is and extends the array when
    the index is past its end. *)
Definition arr_new (n : Z) : list (option Z) := replicate (Z.to_nat n) None.

Definition arr_set (a : list (option Z)) (i v : Z) : list (option Z) :=
  if i <? 0 then a
  else
    let k := Z.to_nat i in
    if (k <? length a)%nat then <[k := Some v]> a
    else a ++ replicate (k - length a)%nat None ++ [Some v].

(** The elements a callee reads from a plain array (a hole reads as
    [undefined], written 0 here; see [decrypt_counter_filled]). *)
Definition arr_elems (a : list (option Z)) : list Z := default 0 <$> a.

(** [Math.ceil(a / b)] for an integer [a] and a positive integer [b]. *)
Definition ceil_div (a b : Z) : Z := - ((- a) / b).

End JS.

(** The bytes a value is made of. *)
Definition is_byte (x : Z) : bool := (0 <=? x) && (x <? 256).
Definition is_bytes (l : list Z) : bool := forallb is_byte l.

(** A block of the cipher: sixteen bytes. *)
Definition is_block (l : list Z) : bool := (length l =? 16)%nat && is_bytes l.

(** The number of bits of a non-negative integer: 0 for 0. *)
Definition bitlength (x : Z) : Z := if x =? 0 then 0 else Z.log2 x + 1.

(** ** AesCtrP.concat *)

(** Both arguments are typed arrays here, so [byteLength] is the number of
    elements; [tmp.set(src, off)] copies [src] into [tmp] from [off]. *)
Definition concat (buffer1 buffer2 : list Z) : list Z :=
  let tmp := JS.u8_new (Z.of_nat (length buffer1) + Z.of_nat (length buffer2)) in
  let tmp := JS.u8_copy tmp (JS.u8_from buffer1) 0 in
  let tmp := JS.u8_copy tmp (JS.u8_from buffer2) (Z.of_nat (length buffer1)) in
  tmp.

(** ** AesCtrP.leadingZeros *)

(** The [while (1)] loop; [None] when the fuel runs out. *)
Fixpoint leadingZeros_loop (fuel : nat) (x n : Z) : option Z :=
  match fuel with
  | O => None
  | S fuel' =>
      if x <? 0 then Some n
      else leadingZeros_loop fuel' (JS.shl x 1) (n + 1)
  end.

Definition leadingZeros (fuel : nat) (x : Z) : option Z :=
  let n := 0 in
  if x =? 0 then Some 64
  else n' ← leadingZeros_loop fuel x n; Some (n' + 32).

(** Line 57 / line 130: the argument [sequence] is replaced by a shift
    amount. *)
Definition shift_of (fuel : nat) (sequence : option Z) : option Z :=
  match sequence with
  | None => Some 8
  | Some s => lz ← leadingZeros fuel s; Some (64 - lz)
  end.

(** ** Results of a call *)

(** What a call produces: the empty string of the key-size guard, a byte
    array, or the [RangeError] of [new Uint8Array] on a negative length. *)
Inductive result : Type :=
  | EmptyString
  | Bytes (b : list Z)
  | RangeError.

(** A finished call, with the counter blocks it handed to [Aes.cipher] in
    the block loop, in order. *)
Record run : Type := Run { outcome : result; cipherLog : list (list Z) }.

(** State of the block loop of [encrypt]. *)
Record encState : Type := EncState {
  enc_counterBlock : list Z;
  enc_ciphertext : list Z;
  enc_log : list (list Z) }.

(** State of the block loop of [decrypt]. *)
Record decState : Type := DecState {
  dec_counterBlock : list (option Z);
  dec_plaintext : list Z;
  dec_log : list (list Z) }.

Definition valid_nBits (nBits : Z) : bool :=
  (nBits =? 128) || (nBits =? 192) || (nBits =? 256).

Definition blockSize : Z := 16.

(** Lines 95-96: the counter bytes of block [b] in [encrypt]. The
    variable [sequence] holds the shift amount here. *)
Definition enc_set_counter (counterBlock : list Z) (b sequence : Z) : list Z :=
  let counterBlock :=
    JS.for_range 0 4 (fun c cb =>
      JS.u8_set cb (15 - c) (JS.band (JS.ushr b (c * 8)) 255)) counterBlock in
  JS.for_range 0 4 (fun c cb =>
    JS.u8_set cb (15 - c - 4) (JS.ushr (JS.ushr b sequence) (c * 8))) counterBlock.

(** Lines 161-162: the same bytes in [decrypt], on a plain array. *)
Definition dec_set_counter (counterBlock : list (option Z)) (b sequence : Z)
  : list (option Z) :=
  let counterBlock :=
    JS.for_range 0 4 (fun c cb =>
      JS.arr_set cb (15 - c) (JS.band (JS.ushr b (c * 8)) 255)) counterBlock in
  JS.for_range 0 4 (fun c cb =>
    JS.arr_set cb (15 - c - 4)
      (JS.band (JS.ushr (JS.ushr b sequence) (c * 8)) 255)) counterBlock.

(** Lines 105-107 and 168-172: xor [blockLength] bytes of [src] from
    [srcOff] with the key stream into [dst] from [dstOff]. *)
Definition xor_block (cipherCntr src dst : list Z) (srcOff dstOff blockLength : Z)
  : list Z :=
  JS.for_range 0 blockLength (fun i d =>
    JS.u8_set d (dstOff + i)
      (JS.bxor (JS.int32_of_elem (JS.get cipherCntr i))
               (JS.int32_of_elem (JS.get src (srcOff + i))))) dst.

(** The block cipher collaborator [Aes], which the repository uses and
    does not define. *)
Class AesCipher : Type := {
  KeySchedule : Type;
  keyExpansion : list Z -> KeySchedule;
  cipher : list Z -> KeySchedule -> list Z }.

(** [(new Date()).getTime()] and [Math.floor(Math.random()*0xffff)] at
    the time of the call. *)
Class Environment : Type := {
  getTime : Z;
  randomFloor : Z }.

Section AesCtrP.

Context {aes : AesCipher} {env : Environment}.

(** Lines 64-71 and 136-144: the key from the password. [Aes.cipher]
    returns a typed array ([concat] reads its [byteLength]). *)
Definition derive_key (nBits : Z) (password : list Z) : list Z :=
  let nBytes := nBits / 8 in
  let pwBytes := JS.u8_new nBytes in
  let pl := Z.of_nat (length password) - 1 in
  let '(_, pwBytes) :=
    JS.for_range 0 nBytes (fun i '(j, pw) =>
      let pw := JS.u8_set pw i (default 0 (JS.get password j)) in
      ((if j <? pl then j + 1 else 0), pw)) (0, pwBytes) in
  let key := cipher pwBytes (keyExpansion pwBytes) in
  concat key (take (Z.to_nat (nBytes - 16)) key).

(** Lines 92-109: one iteration of the block loop of [encrypt]. *)
Definition encrypt_block (plaintext : list Z) (keySchedule : KeySchedule)
    (sequence blockCount : Z) (b : Z) (st : encState) : encState :=
  let counterBlock := enc_set_counter (enc_counterBlock st) b sequence in
  let cipherCntr := cipher counterBlock keySchedule in
  let blockLength :=
    if b <? blockCount - 1 then blockSize
    else Z.rem (Z.of_nat (length plaintext) - 1) blockSize + 1 in
  let index := b * blockSize in
  let bindex := 8 + index in
  EncState counterBlock
    (xor_block cipherCntr plaintext (enc_ciphertext st) index bindex blockLength)
    (enc_log st ++ [counterBlock]).

(** [AesCtrP.encrypt]; [None] when [leadingZeros] runs out of fuel. *)
Definition encrypt_run (fuel : nat) (plaintext password : list Z) (nBits : Z)
    (sequence nonce : option Z) : option run :=
  sequence ← shift_of fuel sequence;
  if negb (valid_nBits nBits) then Some (Run EmptyString [])
  else
    let password := JS.u8_from password in
    let plaintext := JS.u8_from plaintext in
    let key := derive_key nBits password in
    let counterBlock := JS.u8_new blockSize in
    let nonce := default getTime nonce in
    let nonceMs := Z.rem nonce 1000 in
    let nonceSec := nonce / 1000 in
    let nonceRnd := randomFloor in
    (* line 81: nonce = nonceMs = nonceSec = nonceRnd = 0 *)
    let nonceRnd := 0 in
    let nonceSec := nonceRnd in
    let nonceMs := nonceSec in
    let nonce := nonceMs in
    let ciphertext := JS.u8_new (Z.of_nat (length plaintext) + 8) in
    let counterBlock :=
      JS.for_range 0 2 (fun i cb =>
        JS.u8_set cb i (JS.band (JS.ushr nonceMs (i * 8)) 255)) counterBlock in
    let counterBlock :=
      JS.for_range 0 2 (fun i cb =>
        JS.u8_set cb (i + 2) (JS.band (JS.ushr nonceRnd (i * 8)) 255)) counterBlock in
    let counterBlock :=
      JS.for_range 0 4 (fun i cb =>
        JS.u8_set cb (i + 4) (JS.band (JS.ushr nonceSec (i * 8)) 255)) counterBlock in
    let ciphertext :=
      JS.for_range 0 8 (fun i ct =>
        JS.u8_set ct i (default 0 (JS.get counterBlock i))) ciphertext in
    let keySchedule := keyExpansion key in
    let blockCount := JS.ceil_div (Z.of_nat (length plaintext)) blockSize in
    let st :=
      JS.for_range 0 blockCount
        (encrypt_block plaintext keySchedule sequence blockCount)
        (EncState counterBlock ciphertext []) in
    Some (Run (Bytes (enc_ciphertext st)) (enc_log st)).

Definition encrypt (fuel : nat) (plaintext password : list Z) (nBits : Z)
    (sequence nonce : option Z) : option result :=
  outcome <$> encrypt_run fuel plaintext password nBits sequence nonce.

(** The counter blocks a call of [encrypt] hands to [Aes.cipher]. *)
Definition encrypt_log (fuel : nat) (plaintext password : list Z) (nBits : Z)
    (sequence nonce : option Z) : option (list (list Z)) :=
  cipherLog <$> encrypt_run fuel plaintext password nBits sequence nonce.

(** Lines 159-174: one iteration of the block loop of [decrypt]. *)
Definition decrypt_block (ciphertext : list Z) (keySchedule : KeySchedule)
    (sequence blockCount : Z) (b : Z) (st : decState) : decState :=
  let counterBlock := dec_set_counter (dec_counterBlock st) b sequence in
  let cipherCntr := cipher (JS.arr_elems counterBlock) keySchedule in
  let index := b * blockSize in
  let bindex := 8 + index in
  let blockLength :=
    if b <? blockCount - 1 then blockSize
    else Z.rem (Z.of_nat (length (dec_plaintext st)) - 1) blockSize + 1 in
  DecState counterBlock
    (xor_block cipherCntr ciphertext (dec_plaintext st) bindex index blockLength)
    (dec_log st ++ [JS.arr_elems counterBlock]).

(** [AesCtrP.decrypt]. *)
Definition decrypt_run (fuel : nat) (ciphertext password : list Z) (nBits : Z)
    (sequence : option Z) : option run :=
  if negb (valid_nBits nBits) then Some (Run EmptyString [])
  else
    sequence ← shift_of fuel sequence;
    let password := JS.u8_from password in
    let ciphertext := JS.u8_from ciphertext in
    let key := derive_key nBits password in
    if Z.of_nat (length ciphertext) - 8 <? 0 then Some (Run RangeError [])
    else
      let plaintext := JS.u8_new (Z.of_nat (length ciphertext) - 8) in
      let counterBlock := JS.arr_new blockSize in
      let counterBlock :=
        JS.for_range 0 8 (fun i cb =>
          JS.arr_set cb i (default 0 (JS.get ciphertext i))) counterBlock in
      let keySchedule := keyExpansion key in
      let blockCount :=
        JS.ceil_div (Z.of_nat (length ciphertext) - 8) blockSize in
      let st :=
        JS.for_range 0 blockCount
          (decrypt_block ciphertext keySchedule sequence blockCount)
          (DecState counterBlock plaintext []) in
      Some (Run (Bytes (dec_plaintext st)) (dec_log st)).

Definition decrypt (fuel : nat) (ciphertext password : list Z) (nBits : Z)
    (sequence : option Z) : option result :=
  outcome <$> decrypt_run fuel ciphertext password nBits sequence.

Definition decrypt_log (fuel : nat) (ciphertext password : list Z) (nBits : Z)
    (sequence : option Z) : option (list (list Z)) :=
  cipherLog <$> decrypt_run fuel ciphertext password nBits sequence.

(** The use the README shows: [buf = encrypt(input, password, nBits,
    sequence, nonce)], then [decrypt(buf, password, nBits, sequence)]. *)
Definition decrypt_encrypt (fuel : nat) (input password : list Z) (nBits : Z)
    (sequence nonce : option Z) : option result :=
  buf ← encrypt fuel input password nBits sequence nonce;
  match buf with
  | Bytes ct => decrypt fuel ct password nBits sequence
  | EmptyString => decrypt fuel [] password nBits sequence
  | RangeError => Some RangeError
  end.

End AesCtrP.

(** ** Closed forms used in the statements *)

(** Byte [c] of a non-negative integer: bits [8c .. 8c+7]. *)
Definition byte_of (c x : Z) : Z := (x / 2 ^ (8 * c)) mod 256.

(** The eight counter bytes (positions 8 to 15) that lines 95-96 and
    161-162 leave in the counter block for block [b]. *)
Definition counter_bytes (b sequence : Z) : list Z :=
  let hi := JS.ushr b sequence in
  [ byte_of 3 hi; byte_of 2 hi; byte_of 1 hi; byte_of 0 hi;
    byte_of 3 (JS.toUint32 b); byte_of 2 (JS.toUint32 b);
    byte_of 1 (JS.toUint32 b); byte_of 0 (JS.toUint32 b) ].

(** One stored byte of the xor loop. *)
Definition xor8 (k p : option Z) : Z :=
  JS.toUint8 (JS.bxor (JS.int32_of_elem k) (JS.int32_of_elem p)).

(** The length of block [b] (lines 101 and 167). *)
Definition block_length (len blockCount b : Z) : Z :=
  if b <? blockCount - 1 then blockSize else Z.rem (len - 1) blockSize + 1.

(** The key stream block of block [b] under a given header. *)
Definition keystream {aes : AesCipher} (keySchedule : KeySchedule)
    (header : list Z) (sequence b : Z) : list Z :=
  cipher (header ++ counter_bytes b sequence) keySchedule.

(** The sequence values on which [leadingZeros] loops for ever: the
    positive multiples of 2^31. *)
Definition looping_sequence (sequence : option Z) : bool :=
  match sequence with
  | None => false
  | Some s => (0 <? s) && (s mod 2 ^ 31 =? 0)
  end.

(** The nonce packing of the header as the comment of lines 73-74
    describes it: milliseconds, random, seconds, little-endian. *)
Definition documented_header (nonce rnd : Z) : list Z :=
  [ byte_of 0 (Z.rem nonce 1000); byte_of 1 (Z.rem nonce 1000);
    byte_of 0 rnd; byte_of 1 rnd;
    byte_of 0 (JS.toUint32 (nonce / 1000)); byte_of 1 (JS.toUint32 (nonce / 1000));
    byte_of 2 (JS.toUint32 (nonce / 1000)); byte_of 3 (JS.toUint32 (nonce / 1000)) ].

(** Invariants of the two block loops: the counter block keeps its
    length and header, the output buffer its length. *)
Definition enc_inv (L : nat) (st : encState) : Prop :=
  length (enc_counterBlock st) = 16%nat /\
  take 8 (enc_counterBlock st) = replicate 8 0 /\
  Z.of_nat (length (enc_ciphertext st)) = 8 + Z.of_nat L.

Definition dec_inv (header : list Z) (L : Z) (st : decState) : Prop :=
  length (dec_counterBlock st) = 16%nat /\
  take 8 (dec_counterBlock st) = Some <$> header /\
  Z.of_nat (length (dec_plaintext st)) = 0 + L.

(** ** A small stand-in cipher for concrete runs *)

Module Sample.

(** Sixteen bytes that depend on every byte of the block and on the key;
    the key schedule is the key itself. *)
Definition aes : AesCipher := {|
  KeySchedule := list Z;
  keyExpansion := fun key => key;
  cipher := fun block w =>
    take 16 (zip_with (fun x y => (x * 7 + y + 3) mod 256) block (w ++ w ++ w)) |}.

(** The identity on blocks, the simplest permutation. *)
Definition identity : AesCipher := {|
  KeySchedule := list Z;
  keyExpansion := fun key => key;
  cipher := fun block w => block |}.

Definition env : Environment := {|
  getTime := 1700000000123;
  randomFloor := 4660 |}.

Definition encrypt_run := @encrypt_run aes env.
Definition encrypt := @encrypt aes env.
Definition decrypt_run := @decrypt_run aes.
Definition decrypt := @decrypt aes.
Definition decrypt_encrypt := @decrypt_encrypt aes env.
Definition encrypt_log := @encrypt_log aes env.
Definition decrypt_log := @decrypt_log aes.

End Sample.

(** The bytes of a returned buffer, to name the result of a concrete run. *)
Definition result_bytes (r : option result) : list Z :=
  match r with
  | Some (Bytes b) => b
  | _ => []
  end.

(** ** Closed forms of the key derivation *)

(** The bytes that the loop of lines 67-69 (and 139-141) leaves in
    [pwBytes]: the password from its start, repeated when it is shorter
    than the key; zeros for the empty password. *)
Definition cycled_password (n : nat) (password : list Z) : list Z :=
  (fun i => default 0 (password !! (i mod length password)%nat)) <$> seq 0 n.

(** The index [j] of lines 67 and 139 at iteration [k], and the body of
    that loop. *)
Definition password_index (password : list Z) (k : Z) : Z :=
  if Z.of_nat (length password) =? 0 then 0 else k mod Z.of_nat (length password).

Definition password_step (password : list Z) (i : Z) (st : Z * list Z) : Z * list Z :=
  let '(j, pw) := st in
  let pw := JS.u8_set pw i (default 0 (JS.get password j)) in
  ((if j <? Z.of_nat (length password) - 1 then j + 1 else 0), pw).

(** ** Text helpers of aes-ctr.js *)

(** A JavaScript string is the list of its UTF-16 code units, each in
    [0, 65535]. *)
Definition is_unit (c : Z) : bool := (0 <=? c) && (c <? 65536).
Definition is_string (s : list Z) : bool := forallb is_unit s.

Module JSText.

(** [x >> k]: signed shift right on the 32-bit value. *)
Definition sar (x k : Z) : Z := Z.shiftr (JS.toInt32 x) (JS.toUint32 k mod 32).

(** [x | y] on 32-bit integers. *)
Definition bor (x y : Z) : Z := JS.toInt32 (Z.lor (JS.toInt32 x) (JS.toInt32 y)).

(** [String.fromCharCode(x)]: the code unit [ToUint16(x)]. *)
Definition fromCharCode (x : Z) : Z := x mod 65536.

(** [s.charCodeAt(n)] for [n] inside the string. *)
Definition charCodeAt (s : list Z) (n : Z) : Z := default 0 (JS.get s n).

(** [s.replace(/\r\n/g, "\n")]: every carriage return that a line feed
    follows is dropped, from left to right. *)
Fixpoint replace_crlf (s : list Z) : list Z :=
  match s with
  | [] => []
  | c :: r =>
      match r with
      | c2 :: r2 =>
          if (c =? 13) && (c2 =? 10) then 10 :: replace_crlf r2
          else c :: replace_crlf r
      | [] => [c]
      end
  end.

End JSText.

(** [AesCtrP.stringArrayBuffer]: [utftext\[utftext.length\] = v] appends
    to the plain array. *)
Definition stringArrayBuffer (stringToEncode : list Z) : list Z :=
  let stringToEncode := JSText.replace_crlf stringToEncode in
  let utftext := [] in
  JS.for_range 0 (Z.of_nat (length stringToEncode)) (fun n utftext =>
    let c := JSText.charCodeAt stringToEncode n in
    if c <? 128 then utftext ++ [c]
    else if (127 <? c) && (c <? 2048) then
      let utftext := utftext ++ [JSText.bor (JSText.sar c 6) 192] in
      utftext ++ [JSText.bor (JS.band c 63) 128]
    else
      let utftext := utftext ++ [JSText.bor (JSText.sar c 12) 224] in
      let utftext := utftext ++ [JSText.bor (JS.band (JSText.sar c 6) 63) 128] in
      utftext ++ [JSText.bor (JS.band c 63) 128]) utftext.

(** The [while (i < len)] loop of [AesCtrP.arrayBufferString]; [None] when
    the fuel runs out. [array\[i++\]] past the end is [undefined]. *)
Fixpoint arrayBufferString_loop (fuel : nat) (array : list Z) (i : Z) (out : list Z)
  : option (list Z) :=
  match fuel with
  | O => None
  | S fuel' =>
      if i <? Z.of_nat (length array) then
        let c := default 0 (JS.get array i) in
        let i := i + 1 in
        let k := JSText.sar c 4 in
        if (0 <=? k) && (k <=? 7) then
          arrayBufferString_loop fuel' array i (out ++ [JSText.fromCharCode c])
        else if (k =? 12) || (k =? 13) then
          let char2 := JS.get array i in
          let i := i + 1 in
          arrayBufferString_loop fuel' array i
            (out ++ [JSText.fromCharCode
                       (JSText.bor (JS.shl (JS.band c 31) 6)
                                   (JS.band (JS.int32_of_elem char2) 63))])
        else if k =? 14 then
          let char2 := JS.get array i in
          let i := i + 1 in
          let char3 := JS.get array i in
          let i := i + 1 in
          arrayBufferString_loop fuel' array i
            (out ++ [JSText.fromCharCode
                       (JSText.bor
                          (JSText.bor (JS.shl (JS.band c 15) 12)
                                      (JS.shl (JS.band (JS.int32_of_elem char2) 63) 6))
                          (JS.shl (JS.band (JS.int32_of_elem char3) 63) 0))])
        else arrayBufferString_loop fuel' array i out
      else Some out
  end.

(** [AesCtrP.arrayBufferString]: every iteration advances [i], so the
    loop ends within [array.length] iterations and one more test. *)
Definition arrayBufferString (array : list Z) : option (list Z) :=
  arrayBufferString_loop (S (length array)) array 0 [].

(** The bytes that [stringArrayBuffer] appends for one code unit. *)
Definition utf8_bytes (c : Z) : list Z :=
  if c <? 128 then [c]
  else if (127 <? c) && (c <? 2048) then
    [JSText.bor (JSText.sar c 6) 192; JSText.bor (JS.band c 63) 128]
  else
    [JSText.bor (JSText.sar c 12) 224;
     JSText.bor (JS.band (JSText.sar c 6) 63) 128;
     JSText.bor (JS.band c 63) 128].

(** The code units that [arrayBufferString] produces, read off the list of
    bytes that is left. *)
Definition utf8_two (c : Z) (char2 : option Z) : Z :=
  JSText.fromCharCode
    (JSText.bor (JS.shl (JS.band c 31) 6) (JS.band (JS.int32_of_elem char2) 63)).

Definition utf8_three (c : Z) (char2 char3 : option Z) : Z :=
  JSText.fromCharCode
    (JSText.bor
       (JSText.bor (JS.shl (JS.band c 15) 12)
                   (JS.shl (JS.band (JS.int32_of_elem char2) 63) 6))
       (JS.shl (JS.band (JS.int32_of_elem char3) 63) 0)).

Fixpoint utf8_units (l : list Z) : list Z :=
  match l with
  | [] => []
  | c :: r =>
      let k := JSText.sar c 4 in
      if (0 <=? k) && (k <=? 7) then JSText.fromCharCode c :: utf8_units r
      else if (k =? 12) || (k =? 13) then
        match r with
        | [] => [utf8_two c None]
        | c2 :: r2 => utf8_two c (Some c2) :: utf8_units r2
        end
      else if k =? 14 then
        match r with
        | [] => [utf8_three c None None]
        | c2 :: r2 =>
            match r2 with
            | [] => [utf8_three c (Some c2) None]
            | c3 :: r3 => utf8_three c (Some c2) (Some c3) :: utf8_units r3
            end
        end
      else utf8_units r
  end.

(** ** AesCtrP.arrayBufferBase64 *)

Module JSLoop.

(** [for (var i = lo; i < hi; i = i + step) body]: [n] iterations from
    [i]. *)
Fixpoint for_loop_step {S : Type} (n : nat) (step i : Z) (body : Z -> S -> S) (s : S)
  : S :=
  match n with
  | O => s
  | Datatypes.S n' => for_loop_step n' step (i + step) body (body i s)
  end.

Definition for_range_step {S : Type} (lo hi step : Z) (body : Z -> S -> S) (s : S) : S :=
  for_loop_step (Z.to_nat (JS.ceil_div (hi - lo) step)) step lo body s.

(** The code units of a string literal of the source (ASCII only). *)
Definition code_units (s : string) : list Z :=
  (fun a => Z.of_N (Ascii.N_of_ascii a)) <$> String.list_ascii_of_string s.

End JSLoop.

Definition encodings : list Z :=
  JSLoop.code_units "ABCDEFGHIJKLMNOPQRSTUVWXYZabcdefghijklmnopqrstuvwxyz0123456789+/".

(** [base64 += encodings\[a\] + encodings\[b\] + ...]: each index is looked
    up in the alphabet. An index outside it would read [undefined]; the
    model stops with [None] there, and [arrayBufferBase64_groups] shows
    that this never happens. *)
Definition append_encodings (base64 : option (list Z)) (indices : list Z) (tail : string)
  : option (list Z) :=
  base64 ← base64;
  chars ← mapM (JS.get encodings) indices;
  Some (base64 ++ chars ++ JSLoop.code_units tail).

Definition arrayBufferBase64 (arrayBuffer : list Z) : option (list Z) :=
  let base64 := Some [] in
  let bytes := JS.u8_from arrayBuffer in
  let byteLength := Z.of_nat (length bytes) in
  let byteRemainder := Z.rem byteLength 3 in
  let mainLength := byteLength - byteRemainder in
  let byte i := default 0 (JS.get bytes i) in
  let base64 :=
    JSLoop.for_range_step 0 mainLength 3 (fun i base64 =>
      let chunk := JSText.bor (JSText.bor (JS.shl (byte i) 16) (JS.shl (byte (i + 1)) 8))
                              (byte (i + 2)) in
      let a := JSText.sar (JS.band chunk 16515072) 18 in
      let b := JSText.sar (JS.band chunk 258048) 12 in
      let c := JSText.sar (JS.band chunk 4032) 6 in
      let d := JS.band chunk 63 in
      append_encodings base64 [a; b; c; d] "") base64 in
  if byteRemainder =? 1 then
    let chunk := byte mainLength in
    let a := JSText.sar (JS.band chunk 252) 2 in
    let b := JS.shl (JS.band chunk 3) 4 in
    append_encodings base64 [a; b] "=="
  else if byteRemainder =? 2 then
    let chunk := JSText.bor (JS.shl (byte mainLength) 8) (byte (mainLength + 1)) in
    let a := JSText.sar (JS.band chunk 64512) 10 in
    let b := JSText.sar (JS.band chunk 1008) 4 in
    let c := JS.shl (JS.band chunk 15) 2 in
    append_encodings base64 [a; b; c] "="
  else base64.

(** Base64 as a function of the bytes, group by group: four characters for
    three bytes, and a last group padded with [=] (code unit 61). *)
Definition base64_char (v : Z) : Z := default 0 (JS.get encodings v).

Fixpoint base64_groups (bytes : list Z) : list Z :=
  match bytes with
  | [] => []
  | [b0] => [base64_char (b0 / 4); base64_char (b0 mod 4 * 16); 61; 61]
  | [b0; b1] =>
      [base64_char (b0 / 4); base64_char (b0 mod 4 * 16 + b1 / 16);
       base64_char (b1 mod 16 * 4); 61]
  | b0 :: b1 :: b2 :: rest =>
      [base64_char (b0 / 4); base64_char (b0 mod 4 * 16 + b1 / 16);
       base64_char (b1 mod 16 * 4 + b2 / 64); base64_char (b2 mod 64)]
      ++ base64_groups rest
  end.

(** * Properties *)

(** ** 32-bit coercions *)

Lemma toInt32_range x : - 2 ^ 31 <= JS.toInt32 x < 2 ^ 31.
Proof. unfold JS.toInt32. pose proof (Z.mod_pos_bound (x + 2 ^ 31) (2 ^ 32)). lia. Qed.

Lemma toInt32_small x : - 2 ^ 31 <= x < 2 ^ 31 -> JS.toInt32 x = x.
Proof. intros H. unfold JS.toInt32. rewrite Z.mod_small; lia. Qed.

Lemma toInt32_congr x : exists k, JS.toInt32 x = x + 2 ^ 32 * k.
Proof.
  exists (- ((x + 2 ^ 31) / 2 ^ 32)). unfold JS.toInt32.
  rewrite Z.mod_eq by lia. lia.
Qed.

Lemma toInt32_mod256 x : JS.toInt32 x mod 256 = x mod 256.
Proof.
  destruct (toInt32_congr x) as [k ->].
  replace (x + 2 ^ 32 * k) with (x + (2 ^ 24 * k) * 256) by lia.
  apply Z.mod_add. lia.
Qed.

Lemma mod256_range x : 0 <= x mod 256 < 256.
Proof. apply Z.mod_pos_bound. lia. Qed.

Lemma band_255 x : JS.band x 255 = x mod 256.
Proof.
  unfold JS.band. rewrite (toInt32_small 255) by lia.
  change 255 with (Z.ones 8). rewrite Z.land_ones by lia.
  change (2 ^ 8) with 256. rewrite toInt32_mod256.
  apply toInt32_small. pose proof (mod256_range x). lia.
Qed.

Lemma shl_1 x : JS.shl x 1 = JS.toInt32 (2 * x).
Proof.
  unfold JS.shl. change (JS.toUint32 1 mod 32) with 1.
  rewrite Z.shiftl_mul_pow2 by lia. change (2 ^ 1) with 2.
  destruct (toInt32_congr x) as [k Hk]. rewrite Hk.
  unfold JS.toInt32.
  replace ((x + 2 ^ 32 * k) * 2 + 2 ^ 31) with (2 * x + 2 ^ 31 + (2 * k) * 2 ^ 32) by lia.
  now rewrite Z.mod_add by lia.
Qed.

(** ** leadingZeros *)

Lemma leadingZeros_loop_zero fuel n : leadingZeros_loop fuel 0 n = None.
Proof.
  revert n. induction fuel as [|fuel IH]; intros n; [reflexivity|].
  cbn [leadingZeros_loop]. change (0 <? 0) with false. cbv iota.
  rewrite shl_1. change (JS.toInt32 (2 * 0)) with 0. apply IH.
Qed.

Lemma leadingZeros_loop_mono fuel fuel' x n r :
  leadingZeros_loop fuel x n = Some r -> (fuel <= fuel')%nat ->
  leadingZeros_loop fuel' x n = Some r.
Proof.
  revert fuel' x n. induction fuel as [|fuel IH]; intros fuel' x n H Hle; [discriminate|].
  destruct fuel' as [|fuel']; [lia|].
  cbn [leadingZeros_loop] in *. destruct (x <? 0); [exact H|].
  apply IH; [exact H | lia].
Qed.

(** On a positive 32-bit value with [31 - k] bits the loop runs [k + 1]
    more times. *)
Lemma leadingZeros_loop_pos (k : nat) : forall y n,
  2 ^ (30 - Z.of_nat k) <= y < 2 ^ (31 - Z.of_nat k) -> (k <= 30)%nat ->
  leadingZeros_loop (k + 2) y n = Some (n + Z.of_nat k + 1).
Proof.
  induction k as [|k IH]; intros y n Hy Hk.
  - change (30 - Z.of_nat 0) with 30 in Hy. change (31 - Z.of_nat 0) with 31 in Hy.
    cbn [Nat.add leadingZeros_loop].
    destruct (Z.ltb_spec y 0) as [Hneg|_]; [lia|].
    rewrite shl_1. unfold JS.toInt32.
    replace (2 * y + 2 ^ 31) with (2 * y - 2 ^ 31 + 1 * 2 ^ 32) by lia.
    rewrite Z.mod_add by lia. rewrite Z.mod_small by lia.
    destruct (Z.ltb_spec (2 * y - 2 ^ 31 - 2 ^ 31) 0) as [_|Hge]; [|lia].
    f_equal. lia.
  - assert (Hpow : 2 ^ (31 - Z.of_nat k) = 2 * 2 ^ (30 - Z.of_nat k)).
    { replace (31 - Z.of_nat k) with (Z.succ (30 - Z.of_nat k)) by lia.
      apply Z.pow_succ_r. lia. }
    assert (Hpow' : 2 ^ (30 - Z.of_nat k) = 2 * 2 ^ (29 - Z.of_nat k)).
    { replace (30 - Z.of_nat k) with (Z.succ (29 - Z.of_nat k)) by lia.
      apply Z.pow_succ_r. lia. }
    replace (30 - Z.of_nat (S k)) with (29 - Z.of_nat k) in Hy by lia.
    replace (31 - Z.of_nat (S k)) with (30 - Z.of_nat k) in Hy by lia.
    assert (Hle : 2 ^ (31 - Z.of_nat k) <= 2 ^ 31) by (apply Z.pow_le_mono_r; lia).
    assert (Hpos : 0 < 2 ^ (29 - Z.of_nat k)) by (apply Z.pow_pos_nonneg; lia).
    change (S k + 2)%nat with (S (k + 2)). cbn [leadingZeros_loop].
    destruct (Z.ltb_spec y 0) as [Hneg|_]; [lia|].
    rewrite shl_1, toInt32_small by lia.
    rewrite IH by lia. f_equal. lia.
Qed.

Lemma leadingZeros_mono fuel fuel' x r :
  leadingZeros fuel x = Some r -> (fuel <= fuel')%nat -> leadingZeros fuel' x = Some r.
Proof.
  unfold leadingZeros. destruct (x =? 0); [auto|].
  destruct (leadingZeros_loop fuel x 0) as [n|] eqn:E; [|discriminate].
  intros H Hle. now rewrite (leadingZeros_loop_mono _ _ _ _ _ E Hle).
Qed.

Lemma leadingZeros_negative fuel x :
  x < 0 -> (1 <= fuel)%nat -> leadingZeros fuel x = Some 32.
Proof.
  intros Hx Hf. unfold leadingZeros.
  destruct (Z.eqb_spec x 0) as [->|_]; [lia|].
  destruct fuel as [|fuel]; [lia|]. cbn [leadingZeros_loop].
  destruct (Z.ltb_spec x 0); [reflexivity | lia].
Qed.

Lemma leadingZeros_looping fuel x :
  0 < x -> x mod 2 ^ 31 = 0 -> leadingZeros fuel x = None.
Proof.
  intros Hx Hm. unfold leadingZeros.
  destruct (Z.eqb_spec x 0) as [->|_]; [lia|].
  destruct fuel as [|fuel]; [reflexivity|]. cbn [leadingZeros_loop].
  destruct (Z.ltb_spec x 0); [lia|].
  rewrite shl_1.
  assert (Hz : JS.toInt32 (2 * x) = 0).
  { unfold JS.toInt32. rewrite (Z.div_mod x (2 ^ 31)) at 1 by lia. rewrite Hm.
    replace (2 * (2 ^ 31 * (x / 2 ^ 31) + 0) + 2 ^ 31)
      with (2 ^ 31 + (x / 2 ^ 31) * 2 ^ 32) by lia.
    rewrite Z.mod_add by lia. reflexivity. }
  rewrite Hz, leadingZeros_loop_zero. reflexivity.
Qed.

Lemma leadingZeros_positive fuel x :
  0 < x -> x mod 2 ^ 31 <> 0 -> (33 <= fuel)%nat ->
  leadingZeros fuel x = Some (64 - bitlength (x mod 2 ^ 31)).
Proof.
  intros Hx Hm Hf. unfold leadingZeros, bitlength.
  destruct (Z.eqb_spec x 0) as [->|_]; [lia|].
  destruct (Z.eqb_spec (x mod 2 ^ 31) 0) as [E|_]; [contradiction|].
  pose proof (Z.mod_pos_bound x (2 ^ 31) ltac:(lia)) as Hr.
  set (r := x mod 2 ^ 31) in *.
  destruct fuel as [|fuel]; [lia|]. cbn [leadingZeros_loop].
  destruct (Z.ltb_spec x 0); [lia|].
  rewrite shl_1.
  assert (Hy : JS.toInt32 (2 * x) = JS.toInt32 (2 * r)).
  { unfold JS.toInt32. rewrite (Z.div_mod x (2 ^ 31)) at 1 by lia. fold r.
    replace (2 * (2 ^ 31 * (x / 2 ^ 31) + r) + 2 ^ 31)
      with (2 * r + 2 ^ 31 + (x / 2 ^ 31) * 2 ^ 32) by lia.
    now rewrite Z.mod_add by lia. }
  rewrite Hy.
  destruct (Z.lt_ge_cases r (2 ^ 30)) as [Hlt|Hge].
  - rewrite toInt32_small by lia.
    pose proof (Z.log2_nonneg r) as Hl0.
    assert (Hl : Z.log2 r < 30) by (apply Z.log2_lt_pow2; lia).
    destruct (Z.log2_spec r ltac:(lia)) as [Hlo Hhi].
    set (m := Z.log2 r) in *.
    assert (Hs : 2 ^ Z.succ m = 2 * 2 ^ m) by (apply Z.pow_succ_r; lia).
    assert (Hs' : 2 ^ Z.succ (Z.succ m) = 2 * 2 ^ Z.succ m) by (apply Z.pow_succ_r; lia).
    pose (k := Z.to_nat (29 - m)).
    assert (Hloop : leadingZeros_loop (k + 2) (2 * r) (0 + 1) = Some (0 + 1 + Z.of_nat k + 1)).
    { apply leadingZeros_loop_pos; [|subst k; lia].
      replace (30 - Z.of_nat k) with (Z.succ m) by (subst k; lia).
      replace (31 - Z.of_nat k) with (Z.succ (Z.succ m)) by (subst k; lia).
      lia. }
    rewrite (leadingZeros_loop_mono _ fuel _ _ _ Hloop) by (subst k; lia).
    cbn. f_equal. subst k. lia.
  - assert (Hl : Z.log2 r = 30) by (apply Z.log2_unique; lia).
    rewrite Hl. unfold JS.toInt32.
    replace (2 * r + 2 ^ 31) with (2 * r - 2 ^ 31 + 1 * 2 ^ 32) by lia.
    rewrite Z.mod_add by lia. rewrite Z.mod_small by lia.
    destruct fuel as [|fuel]; [lia|]. cbn [leadingZeros_loop].
    destruct (Z.ltb_spec (2 * r - 2 ^ 31 - 2 ^ 31) 0); [reflexivity | lia].
Qed.

(** ** The shift amount *)

Lemma shift_of_mono fuel fuel' sequence sh :
  shift_of fuel sequence = Some sh -> (fuel <= fuel')%nat ->
  shift_of fuel' sequence = Some sh.
Proof.
  destruct sequence as [s|]; [|auto]. cbn.
  destruct (leadingZeros fuel s) as [lz|] eqn:E; [|discriminate].
  intros H Hle. now rewrite (leadingZeros_mono _ _ _ _ E Hle).
Qed.

Lemma shift_of_looping fuel sequence :
  looping_sequence sequence = true -> shift_of fuel sequence = None.
Proof.
  destruct sequence as [s|]; [|discriminate]. cbn.
  intros [H1 H2]%andb_prop. apply Z.ltb_lt in H1. apply Z.eqb_eq in H2.
  now rewrite leadingZeros_looping.
Qed.

Lemma bitlength_range31 r : 0 <= r < 2 ^ 31 -> 0 <= bitlength r <= 31.
Proof.
  intros Hr. unfold bitlength. destruct (Z.eqb_spec r 0); [lia|].
  pose proof (Z.log2_nonneg r).
  assert (Z.log2 r < 31) by (apply Z.log2_lt_pow2; lia). lia.
Qed.

(** The shift amount of a supplied sequence, case by case. *)
Lemma shift_of_supplied fuel s :
  (33 <= fuel)%nat -> (0 <? s) && (s mod 2 ^ 31 =? 0) = false ->
  shift_of fuel (Some s) =
    Some (if s <? 0 then 32 else bitlength (s mod 2 ^ 31)).
Proof.
  intros Hf Hs. cbn [shift_of].
  destruct (Z.ltb_spec s 0) as [Hneg|Hge].
  - rewrite leadingZeros_negative by lia. reflexivity.
  - destruct (Z.eqb_spec s 0) as [->|Hnz]; [reflexivity|].
    destruct (Z.ltb_spec 0 s) as [Hpos|]; [|lia].
    destruct (Z.eqb_spec (s mod 2 ^ 31) 0) as [|Hm]; [discriminate|].
    rewrite leadingZeros_positive by (assumption || lia). cbn. f_equal. lia.
Qed.

(** Below 2^31 the shift amount is the bit length. *)
Lemma shift_of_int31 fuel s :
  (33 <= fuel)%nat -> 0 <= s < 2 ^ 31 -> shift_of fuel (Some s) = Some (bitlength s).
Proof.
  intros Hf Hs. rewrite shift_of_supplied by assumption || (
    destruct (Z.eqb_spec s 0) as [->|Hnz]; [reflexivity|];
    rewrite Z.mod_small by lia;
    destruct (Z.eqb_spec s 0); [lia|]; apply andb_false_r).
  destruct (Z.ltb_spec s 0); [lia|]. now rewrite Z.mod_small by lia.
Qed.

Lemma shift_of_defined fuel sequence :
  (33 <= fuel)%nat -> looping_sequence sequence = false ->
  exists sh, shift_of fuel sequence = Some sh /\ 0 <= sh <= 32.
Proof.
  intros Hf Hs. destruct sequence as [s|]; [|exists 8; split; [reflexivity|lia]].
  cbn in Hs. rewrite shift_of_supplied by assumption.
  eexists; split; [reflexivity|].
  destruct (s <? 0); [lia|].
  pose proof (Z.mod_pos_bound s (2 ^ 31) ltac:(lia)).
  pose proof (bitlength_range31 (s mod 2 ^ 31)). lia.
Qed.

Lemma shift_of_not_looping fuel sequence sh :
  shift_of fuel sequence = Some sh -> looping_sequence sequence = false.
Proof.
  intros H. destruct (looping_sequence sequence) eqn:E; [|reflexivity].
  rewrite shift_of_looping in H by assumption. discriminate.
Qed.

(** ** Bytes of the counter *)

Lemma toUint32_range x : 0 <= JS.toUint32 x < 2 ^ 32.
Proof. apply Z.mod_pos_bound. lia. Qed.

Lemma toUint32_small x : 0 <= x < 2 ^ 32 -> JS.toUint32 x = x.
Proof. intros. unfold JS.toUint32. apply Z.mod_small. lia. Qed.

Lemma ushr_const x k : 0 <= k < 32 -> JS.ushr x k = JS.toUint32 x / 2 ^ k.
Proof.
  intros Hk. unfold JS.ushr. unfold JS.toUint32 at 2.
  rewrite (Z.mod_small k (2 ^ 32)) by lia. rewrite (Z.mod_small k 32) by lia.
  apply Z.shiftr_div_pow2. lia.
Qed.

Lemma ushr_range x k : 0 <= JS.ushr x k < 2 ^ 32.
Proof.
  unfold JS.ushr.
  pose proof (toUint32_range x) as Hx.
  pose proof (Z.mod_pos_bound (JS.toUint32 k) 32 ltac:(lia)) as Hk.
  rewrite Z.shiftr_div_pow2 by lia.
  assert (0 < 2 ^ (JS.toUint32 k mod 32)) by (apply Z.pow_pos_nonneg; lia).
  split; [apply Z.div_pos; lia|].
  apply Z.div_lt_upper_bound; nia.
Qed.

Lemma toUint8_idem x : JS.toUint8 (x mod 256) = x mod 256.
Proof. unfold JS.toUint8. apply Z.mod_mod. lia. Qed.

Lemma counter_lo_byte b c :
  0 <= c < 4 ->
  JS.band (JS.ushr b (c * 8)) 255 = byte_of c (JS.toUint32 b).
Proof.
  intros Hc. rewrite band_255, ushr_const by lia.
  unfold byte_of. now replace (8 * c) with (c * 8) by lia.
Qed.

Lemma counter_hi_byte b sh c :
  0 <= c < 4 ->
  JS.toUint8 (JS.ushr (JS.ushr b sh) (c * 8)) = byte_of c (JS.ushr b sh).
Proof.
  intros Hc. rewrite (ushr_const _ (c * 8)) by lia.
  rewrite toUint32_small by apply ushr_range.
  unfold byte_of, JS.toUint8. now replace (8 * c) with (c * 8) by lia.
Qed.

Lemma byte_of_toUint8 c x : JS.toUint8 (byte_of c x) = byte_of c x.
Proof. apply toUint8_idem. Qed.

Lemma byte_of_range c x : 0 <= byte_of c x < 256.
Proof. apply mod256_range. Qed.

(** The two inner loops of lines 95-96 write positions 15 down to 8. *)
Lemma u8_counter_writes (f g : Z -> Z) (cb : list Z) :
  length cb = 16%nat ->
  JS.for_range 0 4 (fun c cb => JS.u8_set cb (15 - c - 4) (g c))
    (JS.for_range 0 4 (fun c cb => JS.u8_set cb (15 - c) (f c)) cb)
  = take 8 cb ++ (JS.toUint8 <$> [g 3; g 2; g 1; g 0; f 3; f 2; f 1; f 0]).
Proof.
  intros Hlen.
  do 16 (destruct cb as [|? cb]; [discriminate|]). destruct cb; [|discriminate].
  reflexivity.
Qed.

Lemma arr_counter_writes (f g : Z -> Z) (cb : list (option Z)) :
  length cb = 16%nat ->
  JS.for_range 0 4 (fun c cb => JS.arr_set cb (15 - c - 4) (g c))
    (JS.for_range 0 4 (fun c cb => JS.arr_set cb (15 - c) (f c)) cb)
  = take 8 cb ++ (Some <$> [g 3; g 2; g 1; g 0; f 3; f 2; f 1; f 0]).
Proof.
  intros Hlen.
  do 16 (destruct cb as [|? cb]; [discriminate|]). destruct cb; [|discriminate].
  reflexivity.
Qed.

Lemma enc_set_counter_closed cb b sh :
  length cb = 16%nat ->
  enc_set_counter cb b sh = take 8 cb ++ counter_bytes b sh.
Proof.
  intros Hlen. unfold enc_set_counter.
  rewrite (u8_counter_writes
             (fun c => JS.band (JS.ushr b (c * 8)) 255)
             (fun c => JS.ushr (JS.ushr b sh) (c * 8))) by assumption.
  f_equal. unfold counter_bytes. cbn [fmap list_fmap].
  rewrite !counter_hi_byte, !counter_lo_byte, !byte_of_toUint8 by lia.
  reflexivity.
Qed.

Lemma dec_set_counter_closed cb b sh :
  length cb = 16%nat ->
  dec_set_counter cb b sh = take 8 cb ++ (Some <$> counter_bytes b sh).
Proof.
  intros Hlen. unfold dec_set_counter.
  rewrite (arr_counter_writes
             (fun c => JS.band (JS.ushr b (c * 8)) 255)
             (fun c => JS.band (JS.ushr (JS.ushr b sh) (c * 8)) 255)) by assumption.
  f_equal. unfold counter_bytes. cbn [fmap list_fmap].
  rewrite !counter_lo_byte by lia.
  rewrite !(toUint32_small (JS.ushr b sh)) by apply ushr_range. reflexivity.
Qed.

Lemma arr_elems_filled (l : list Z) : JS.arr_elems (Some <$> l) = l.
Proof.
  unfold JS.arr_elems. rewrite <- list_fmap_compose.
  induction l as [|x l IH]; [reflexivity|]. cbn. now rewrite IH.
Qed.

(** ** Stores into a typed array *)

Lemma u8_set_length a i v : length (JS.u8_set a i v) = length a.
Proof. unfold JS.u8_set. destruct (i <? 0); [reflexivity | apply length_insert]. Qed.

Lemma u8_set_lookup a i v (k : nat) :
  JS.u8_set a i v !! k =
    if decide (Z.of_nat k = i /\ (k < length a)%nat)
    then Some (JS.toUint8 v) else a !! k.
Proof.
  unfold JS.u8_set. destruct (Z.ltb_spec i 0) as [Hneg|Hge].
  - destruct (decide _) as [[H _]|_]; [lia | reflexivity].
  - destruct (decide (Z.to_nat i = k)) as [<-|Hne].
    + destruct (decide _) as [[_ H]|Hn].
      * now apply list_lookup_insert_eq.
      * rewrite list_insert_ge by lia. reflexivity.
    + rewrite list_lookup_insert_ne by assumption.
      destruct (decide _) as [[H _]|_]; [lia | reflexivity].
Qed.

Lemma for_loop_invariant {S : Type} (P : S -> Prop) (body : Z -> S -> S) n :
  forall i s, (forall j t, P t -> P (body j t)) -> P s -> P (JS.for_loop n i body s).
Proof.
  induction n as [|n IH]; intros i s Hb Hs; [exact Hs|].
  cbn. apply IH; auto.
Qed.

Lemma for_loop_writes_length n : forall i0 dst off (g : Z -> Z),
  length (JS.for_loop n i0 (fun i d => JS.u8_set d (off + i) (g i)) dst) = length dst.
Proof.
  induction n as [|n IH]; intros; [reflexivity|].
  cbn. now rewrite IH, u8_set_length.
Qed.

Lemma for_loop_writes_lookup n : forall i0 dst off (g : Z -> Z) (k : nat),
  JS.for_loop n i0 (fun i d => JS.u8_set d (off + i) (g i)) dst !! k =
    if decide (off + i0 <= Z.of_nat k < off + i0 + Z.of_nat n /\ (k < length dst)%nat)
    then Some (JS.toUint8 (g (Z.of_nat k - off))) else dst !! k.
Proof.
  induction n as [|n IH]; intros i0 dst off g k.
  - cbn. destruct (decide _) as [[H _]|_]; [lia | reflexivity].
  - cbn [JS.for_loop]. rewrite IH, u8_set_length, u8_set_lookup.
    repeat destruct (decide _); try reflexivity; try lia.
    do 2 f_equal. f_equal. lia.
Qed.

Lemma xor_block_length K src dst so d n : length (xor_block K src dst so d n) = length dst.
Proof. unfold xor_block, JS.for_range. apply for_loop_writes_length. Qed.

Lemma xor_block_lookup K src dst so d n (k : nat) :
  xor_block K src dst so d n !! k =
    if decide (d <= Z.of_nat k < d + n /\ (k < length dst)%nat)
    then Some (xor8 (JS.get K (Z.of_nat k - d)) (JS.get src (so + (Z.of_nat k - d))))
    else dst !! k.
Proof.
  unfold xor_block, JS.for_range.
  rewrite (for_loop_writes_lookup _ 0 dst d
    (fun i => JS.bxor (JS.int32_of_elem (JS.get K i))
                      (JS.int32_of_elem (JS.get src (so + i))))).
  repeat destruct (decide _); try reflexivity; lia.
Qed.

(** ** The block loop *)

Lemma ceil_div_bounds L : 0 <= L -> 16 * (JS.ceil_div L 16 - 1) < L <= 16 * JS.ceil_div L 16.
Proof.
  intros HL. unfold JS.ceil_div.
  pose proof (Z.div_mod (- L) 16 ltac:(lia)).
  pose proof (Z.mod_pos_bound (- L) 16 ltac:(lia)). lia.
Qed.

Lemma block_length_covers L b :
  0 <= L -> 0 <= b < JS.ceil_div L 16 ->
  16 * b + block_length L (JS.ceil_div L 16) b = Z.min (16 * (b + 1)) L.
Proof.
  intros HL Hb. pose proof (ceil_div_bounds L HL) as Hq.
  unfold block_length, blockSize.
  destruct (Z.ltb_spec b (JS.ceil_div L 16 - 1)) as [Hlt|Hge]; [lia|].
  assert (b = JS.ceil_div L 16 - 1) as -> by lia.
  rewrite Z.rem_mod_nonneg by lia.
  pose proof (Z.div_mod (L - 1) 16 ltac:(lia)).
  pose proof (Z.mod_pos_bound (L - 1) 16 ltac:(lia)). lia.
Qed.

Section CtrLoop.

Context {S : Type}.
Variable body : Z -> S -> S.
Variable data : S -> list Z.
Variable Inv : S -> Prop.
Variable log : S -> list (list Z).
Variable ks : Z -> list Z.
Variable cb : Z -> list Z.
Variable src : list Z.
Variables so d L : Z.

Hypothesis HL : 0 <= L.
Hypothesis Hinv : forall b s, Inv s -> Inv (body b s).
Hypothesis Hlen : forall s, Inv s -> Z.of_nat (length (data s)) = d + L.
Hypothesis Hdata : forall b s, Inv s ->
  data (body b s) =
    xor_block (ks b) src (data s) (so + b * 16) (d + b * 16)
      (block_length L (JS.ceil_div L 16) b).
Hypothesis Hlog : forall b s, Inv s -> log (body b s) = log s ++ [cb b].

Lemma ctr_loop_inv n b0 s : Inv s -> Inv (JS.for_loop n b0 body s).
Proof. intros Hs. apply for_loop_invariant; auto. Qed.

(** After blocks [b0 .. b0+n-1] the bytes of those blocks are the xor of
    the source with the key stream, and the others are untouched. *)
Lemma ctr_loop_lookup n : forall b0 s (k : nat),
  Inv s -> 0 <= b0 -> b0 + Z.of_nat n <= JS.ceil_div L 16 ->
  data (JS.for_loop n b0 body s) !! k =
    if decide (d + 16 * b0 <= Z.of_nat k < d + 16 * (b0 + Z.of_nat n)
               /\ Z.of_nat k < d + L)
    then Some (xor8 (JS.get (ks ((Z.of_nat k - d) / 16)) ((Z.of_nat k - d) mod 16))
                    (JS.get src (so + (Z.of_nat k - d))))
    else data s !! k.
Proof.
  induction n as [|n IH]; intros b0 s k Hs Hb0 Hn.
  - cbn. destruct (decide _) as [[H _]|_]; [lia | reflexivity].
  - cbn [JS.for_loop]. rewrite IH by (auto; lia).
    rewrite Hdata, xor_block_lookup by assumption.
    pose proof (Hlen s Hs) as Hls.
    pose proof (block_length_covers L b0 HL ltac:(lia)) as Hcov.
    pose proof (Z.div_mod (Z.of_nat k - d) 16 ltac:(lia)) as Hdm.
    pose proof (Z.mod_pos_bound (Z.of_nat k - d) 16 ltac:(lia)) as Hmb.
    repeat destruct (decide _); try reflexivity; try lia.
    assert (Hq : (Z.of_nat k - d) / 16 = b0) by lia.
    rewrite Hq. do 2 f_equal; f_equal; lia.
Qed.

(** The loop hands the counter blocks of [b0 .. b0+n-1] to the cipher,
    in this order. *)
Lemma ctr_loop_log n : forall b0 s,
  Inv s ->
  log (JS.for_loop n b0 body s) = log s ++ (cb <$> seqZ b0 (Z.of_nat n)).
Proof.
  induction n as [|n IH]; intros b0 s Hs.
  - cbn. now rewrite app_nil_r.
  - cbn [JS.for_loop]. rewrite IH, Hlog by auto.
    rewrite (seqZ_cons b0) by lia. cbn [fmap list_fmap].
    rewrite <- app_assoc. cbn [app].
    replace (Z.pred (Z.of_nat (Datatypes.S n))) with (Z.of_nat n) by lia.
    replace (Z.succ b0) with (b0 + 1) by lia. reflexivity.
Qed.

End CtrLoop.

(** ** The xor of one byte *)

Lemma lxor_mod256 a b : Z.lxor a b mod 256 = Z.lxor (a mod 256) (b mod 256).
Proof.
  change 256 with (2 ^ 8). apply Z.bits_inj'. intros n Hn.
  rewrite Z.lxor_spec, !Z.testbit_mod_pow2, Z.lxor_spec by lia.
  destruct (n <? 8); reflexivity.
Qed.

Lemma xor8_spec k p : xor8 k p = Z.lxor (default 0 k mod 256) (default 0 p mod 256).
Proof.
  unfold xor8, JS.toUint8, JS.bxor.
  rewrite toInt32_mod256, lxor_mod256, !toInt32_mod256.
  destruct k, p; cbn [JS.int32_of_elem from_option id];
    rewrite ?toInt32_mod256; reflexivity.
Qed.

Lemma xor8_range k p : 0 <= xor8 k p < 256.
Proof. unfold xor8. apply mod256_range. Qed.

(** Xoring twice with the same key byte gives the byte back. *)
Lemma xor8_involutive k p :
  0 <= p < 256 -> xor8 k (Some (xor8 k (Some p))) = p.
Proof.
  intros Hp. rewrite (xor8_spec k (Some (xor8 k (Some p)))). cbn [from_option id].
  rewrite (xor8_spec k (Some p)). cbn [from_option id].
  rewrite lxor_mod256, !Z.mod_mod by lia.
  rewrite <- Z.lxor_assoc, Z.lxor_nilpotent, Z.lxor_0_l.
  apply Z.mod_small. lia.
Qed.

(** ** The two calls, block by block *)

Lemma get_lookup (a : list Z) (k : nat) : JS.get a (Z.of_nat k) = a !! k.
Proof.
  unfold JS.get. destruct (Z.ltb_spec (Z.of_nat k) 0); [lia|].
  now rewrite Nat2Z.id.
Qed.

Lemma get_zeros n i : default 0 (JS.get (replicate n 0) i) = 0.
Proof.
  unfold JS.get. destruct (i <? 0); [reflexivity|].
  destruct (replicate n 0 !! Z.to_nat i) as [y|] eqn:E; [|reflexivity].
  apply lookup_replicate in E as [-> _]. reflexivity.
Qed.

Lemma u8_set_zeros n i v : JS.toUint8 v = 0 -> JS.u8_set (replicate n 0) i v = replicate n 0.
Proof.
  intros Hv. unfold JS.u8_set. destruct (i <? 0); [reflexivity|].
  rewrite Hv. apply insert_replicate.
Qed.

Lemma header_copy_zeros n m :
  JS.for_range 0 8 (fun i ct => JS.u8_set ct i (default 0 (JS.get (replicate m 0) i)))
    (replicate n 0) = replicate n 0.
Proof.
  unfold JS.for_range.
  apply (for_loop_invariant (fun ct => ct = replicate n 0)); [|reflexivity].
  intros j t ->. apply u8_set_zeros. now rewrite get_zeros.
Qed.

Section BlockByBlock.

Context {aes : AesCipher} {env : Environment}.

Lemma encrypt_run_unfold fuel P pw nBits seq nonce sh :
  shift_of fuel seq = Some sh -> valid_nBits nBits = true ->
  encrypt_run fuel P pw nBits seq nonce =
    let plaintext := JS.u8_from P in
    let keySchedule := keyExpansion (derive_key nBits (JS.u8_from pw)) in
    let blockCount := JS.ceil_div (Z.of_nat (length plaintext)) 16 in
    let st :=
      JS.for_loop (Z.to_nat blockCount) 0
        (encrypt_block plaintext keySchedule sh blockCount)
        (EncState (replicate 16 0)
                  (replicate (Z.to_nat (Z.of_nat (length plaintext) + 8)) 0) []) in
    Some (Run (Bytes (enc_ciphertext st)) (enc_log st)).
Proof.
  intros Hsh Hv. unfold encrypt_run. rewrite Hsh. cbn [mbind option_bind].
  rewrite Hv. cbn [negb]. cbv zeta.
  set (cb0 := JS.for_range 0 4 _ (JS.for_range 0 2 _ (JS.for_range 0 2 _ (JS.u8_new blockSize)))).
  assert (Hcb : cb0 = replicate 16 0) by reflexivity.
  rewrite Hcb. unfold JS.u8_new. rewrite header_copy_zeros.
  unfold JS.for_range, blockSize. rewrite Z.sub_0_r. reflexivity.
Qed.


Lemma ceil_div_nonneg L : 0 <= L -> 0 <= JS.ceil_div L 16.
Proof. intros HL. pose proof (ceil_div_bounds L HL). lia. Qed.

Lemma encrypt_run_spec fuel P pw nBits seq nonce sh :
  shift_of fuel seq = Some sh -> valid_nBits nBits = true ->
  let plaintext := JS.u8_from P in
  let keySchedule := keyExpansion (derive_key nBits (JS.u8_from pw)) in
  let L := Z.of_nat (length P) in
  exists ct,
    encrypt_run fuel P pw nBits seq nonce =
      Some (Run (Bytes ct)
                ((fun b => replicate 8 0 ++ counter_bytes b sh) <$> seqZ 0 (JS.ceil_div L 16)))
    /\ length ct = (length P + 8)%nat
    /\ forall k : nat,
         ct !! k =
           if decide (8 <= Z.of_nat k < 8 + L)
           then Some (xor8 (JS.get (keystream keySchedule (replicate 8 0) sh
                                      ((Z.of_nat k - 8) / 16))
                                   ((Z.of_nat k - 8) mod 16))
                           (JS.get plaintext (Z.of_nat k - 8)))
           else if decide (k < 8)%nat then Some 0 else None.
Proof.
  intros Hsh Hv plaintext keySchedule L.
  rewrite (encrypt_run_unfold _ _ _ _ _ _ sh) by assumption. cbv zeta.
  fold plaintext. fold keySchedule.
  assert (HLp : Z.of_nat (length plaintext) = L).
  { unfold plaintext, JS.u8_from. now rewrite length_fmap. }
  rewrite HLp.
  set (body := encrypt_block plaintext keySchedule sh (JS.ceil_div L 16)).
  set (s0 := EncState (replicate 16 0) (replicate (Z.to_nat (L + 8)) 0) []).
  assert (HL0 : 0 <= L) by (unfold L; lia).
  assert (Hinv0 : enc_inv (length P) s0).
  { unfold enc_inv, s0. cbn [enc_counterBlock enc_ciphertext].
    rewrite !length_replicate. split; [reflexivity|]. split; [reflexivity|]. lia. }
  assert (Hstep : forall b s, enc_inv (length P) s ->
            enc_counterBlock (body b s) = replicate 8 0 ++ counter_bytes b sh).
  { intros b s (Hl & Ht & _). unfold body, encrypt_block. cbn [enc_counterBlock].
    now rewrite enc_set_counter_closed, Ht by assumption. }
  assert (Hpres : forall b s, enc_inv (length P) s -> enc_inv (length P) (body b s)).
  { intros b s Hs. pose proof (Hstep b s Hs) as Hcb. destruct Hs as (Hl & Ht & Hc).
    unfold enc_inv. rewrite Hcb. split; [reflexivity|]. split; [reflexivity|].
    unfold body, encrypt_block. cbn [enc_ciphertext]. now rewrite xor_block_length. }
  assert (Hdata : forall b s, enc_inv (length P) s ->
            enc_ciphertext (body b s) =
              xor_block (keystream keySchedule (replicate 8 0) sh b) plaintext
                (enc_ciphertext s) (0 + b * 16) (8 + b * 16)
                (block_length L (JS.ceil_div L 16) b)).
  { intros b s (Hl & Ht & _). unfold body, encrypt_block. cbn [enc_ciphertext].
    rewrite enc_set_counter_closed, Ht, HLp by assumption. reflexivity. }
  assert (Hlog : forall b s, enc_inv (length P) s ->
            enc_log (body b s) = enc_log s ++ [replicate 8 0 ++ counter_bytes b sh]).
  { intros b s (Hl & Ht & _). unfold body, encrypt_block. cbn [enc_log].
    now rewrite enc_set_counter_closed, Ht by assumption. }
  pose proof (ceil_div_nonneg L HL0) as Hq.
  eexists. split; [|split].
  - f_equal. f_equal.
    rewrite (ctr_loop_log body (enc_inv (length P)) enc_log _ Hpres Hlog) by assumption.
    cbn [enc_log s0 app]. now rewrite Z2Nat.id by assumption.
  - pose proof (ctr_loop_inv body (enc_inv (length P)) Hpres
                  (Z.to_nat (JS.ceil_div L 16)) 0 s0 Hinv0) as (_ & _ & Hlen).
    unfold L in *. lia.
  - intros k.
    rewrite (ctr_loop_lookup body enc_ciphertext (enc_inv (length P)) _ plaintext 0 8 L
               HL0 Hpres ltac:(intros s (_ & _ & H); exact H) Hdata)
      by (assumption || lia).
    pose proof (ceil_div_bounds L HL0) as Hb.
    cbn [enc_ciphertext s0]. rewrite Z2Nat.id by assumption.
    repeat destruct (decide _); try lia.
    + reflexivity.
    + apply lookup_replicate. split; [reflexivity | lia].
    + apply lookup_ge_None. rewrite length_replicate. lia.
Qed.


Lemma dec_header_init (ct : list Z) :
  (8 <= length ct)%nat ->
  JS.for_range 0 8 (fun i cb => JS.arr_set cb i (default 0 (JS.get ct i)))
    (JS.arr_new blockSize) = (Some <$> take 8 ct) ++ replicate 8 None.
Proof.
  intros Hlen.
  do 8 (destruct ct as [|? ct]; [cbn in Hlen; lia|]).
  reflexivity.
Qed.

Lemma decrypt_run_unfold fuel C pw nBits seq sh :
  shift_of fuel seq = Some sh -> valid_nBits nBits = true ->
  (8 <= length C)%nat ->
  decrypt_run fuel C pw nBits seq =
    let ciphertext := JS.u8_from C in
    let keySchedule := keyExpansion (derive_key nBits (JS.u8_from pw)) in
    let blockCount := JS.ceil_div (Z.of_nat (length ciphertext) - 8) 16 in
    let st :=
      JS.for_loop (Z.to_nat blockCount) 0
        (decrypt_block ciphertext keySchedule sh blockCount)
        (DecState ((Some <$> take 8 ciphertext) ++ replicate 8 None)
                  (replicate (Z.to_nat (Z.of_nat (length ciphertext) - 8)) 0) []) in
    Some (Run (Bytes (dec_plaintext st)) (dec_log st)).
Proof.
  intros Hsh Hv Hlen. unfold decrypt_run. rewrite Hv. cbn [negb].
  rewrite Hsh. cbn [mbind option_bind]. cbv zeta.
  assert (Hl : (8 <= length (JS.u8_from C))%nat).
  { unfold JS.u8_from. now rewrite length_fmap. }
  destruct (Z.ltb_spec (Z.of_nat (length (JS.u8_from C)) - 8) 0) as [Hneg|_]; [lia|].
  rewrite dec_header_init by assumption.
  unfold JS.for_range, JS.u8_new, blockSize. rewrite Z.sub_0_r. reflexivity.
Qed.

(** When [decrypt] hands its counter block to the cipher no hole is left
    in it. *)
Lemma decrypt_counter_filled header L st b sh :
  dec_inv header L st ->
  dec_set_counter (dec_counterBlock st) b sh = Some <$> (header ++ counter_bytes b sh).
Proof.
  intros (Hl & Ht & _).
  rewrite dec_set_counter_closed, Ht by assumption. now rewrite fmap_app.
Qed.

Lemma decrypt_run_spec fuel C pw nBits seq sh :
  shift_of fuel seq = Some sh -> valid_nBits nBits = true ->
  (8 <= length C)%nat ->
  let ciphertext := JS.u8_from C in
  let keySchedule := keyExpansion (derive_key nBits (JS.u8_from pw)) in
  let L := Z.of_nat (length C) - 8 in
  exists pt,
    decrypt_run fuel C pw nBits seq =
      Some (Run (Bytes pt)
                ((fun b => take 8 ciphertext ++ counter_bytes b sh)
                   <$> seqZ 0 (JS.ceil_div L 16)))
    /\ length pt = (length C - 8)%nat
    /\ forall k : nat,
         pt !! k =
           if decide (Z.of_nat k < L)
           then Some (xor8 (JS.get (keystream keySchedule (take 8 ciphertext) sh
                                      (Z.of_nat k / 16))
                                   (Z.of_nat k mod 16))
                           (JS.get ciphertext (8 + Z.of_nat k)))
           else None.
Proof.
  intros Hsh Hv Hlen ciphertext keySchedule L.
  rewrite (decrypt_run_unfold _ _ _ _ _ sh) by assumption. cbv zeta.
  fold ciphertext. fold keySchedule.
  assert (HLc : Z.of_nat (length ciphertext) - 8 = L).
  { unfold ciphertext, JS.u8_from. now rewrite length_fmap. }
  assert (Hlc : (8 <= length ciphertext)%nat) by lia.
  rewrite HLc.
  set (header := take 8 ciphertext).
  set (body := decrypt_block ciphertext keySchedule sh (JS.ceil_div L 16)).
  set (s0 := DecState ((Some <$> header) ++ replicate 8 None)
                      (replicate (Z.to_nat L) 0) []).
  assert (HL0 : 0 <= L) by (unfold L; lia).
  assert (Hhl : length header = 8%nat).
  { unfold header. rewrite length_take. lia. }
  assert (Hinv0 : dec_inv header L s0).
  { unfold dec_inv, s0. cbn [dec_counterBlock dec_plaintext].
    rewrite length_app, length_fmap, !length_replicate, Hhl.
    split; [reflexivity|]. split; [|lia].
    rewrite take_app_length'; [reflexivity|]. now rewrite length_fmap. }
  pose proof (fun b s => decrypt_counter_filled header L s b sh) as Hcb.
  assert (Hpres : forall b s, dec_inv header L s -> dec_inv header L (body b s)).
  { intros b s Hs. pose proof (Hcb b s Hs) as Hc. destruct Hs as (Hl & Ht & Hp).
    unfold dec_inv, body, decrypt_block. cbn [dec_counterBlock dec_plaintext].
    rewrite Hc, xor_block_length. split; [|split; [|assumption]].
    - rewrite length_fmap, length_app, Hhl. reflexivity.
    - rewrite fmap_app, take_app_length'; [reflexivity|]. now rewrite length_fmap. }
  assert (Hdata : forall b s, dec_inv header L s ->
            dec_plaintext (body b s) =
              xor_block (keystream keySchedule header sh b) ciphertext
                (dec_plaintext s) (8 + b * 16) (0 + b * 16)
                (block_length L (JS.ceil_div L 16) b)).
  { intros b s Hs. pose proof (Hcb b s Hs) as Hc. destruct Hs as (Hl & Ht & Hp).
    unfold body, decrypt_block. cbn [dec_plaintext].
    rewrite Hc, arr_elems_filled, Hp. reflexivity. }
  assert (Hlog : forall b s, dec_inv header L s ->
            dec_log (body b s) = dec_log s ++ [header ++ counter_bytes b sh]).
  { intros b s Hs. pose proof (Hcb b s Hs) as Hc.
    unfold body, decrypt_block. cbn [dec_log].
    now rewrite Hc, arr_elems_filled. }
  pose proof (ceil_div_nonneg L HL0) as Hq.
  eexists. split; [|split].
  - f_equal. f_equal.
    rewrite (ctr_loop_log body (dec_inv header L) dec_log _ Hpres Hlog) by assumption.
    cbn [dec_log s0 app]. now rewrite Z2Nat.id by assumption.
  - pose proof (ctr_loop_inv body (dec_inv header L) Hpres
                  (Z.to_nat (JS.ceil_div L 16)) 0 s0 Hinv0) as (_ & _ & Hlen').
    unfold L in *. lia.
  - intros k.
    rewrite (ctr_loop_lookup body dec_plaintext (dec_inv header L) _ ciphertext 8 0 L
               HL0 Hpres ltac:(intros s (_ & _ & H); exact H) Hdata)
      by (assumption || lia).
    pose proof (ceil_div_bounds L HL0) as Hb.
    cbn [dec_plaintext s0]. rewrite Z2Nat.id by assumption.
    rewrite Z.sub_0_r.
    repeat destruct (decide _); try lia.
    + reflexivity.
    + apply lookup_ge_None. rewrite length_replicate. lia.
Qed.

End BlockByBlock.

(** ** Byte arrays *)

Lemma is_bytes_lookup l (k : nat) x :
  is_bytes l = true -> l !! k = Some x -> 0 <= x < 256.
Proof.
  unfold is_bytes. rewrite forallb_forall. intros H Hk.
  apply list_elem_of_lookup_2, list_elem_of_In, H in Hk.
  unfold is_byte in Hk. lia.
Qed.

Lemma u8_from_fixed l :
  (forall (k : nat) x, l !! k = Some x -> 0 <= x < 256) -> JS.u8_from l = l.
Proof.
  intros H. apply list_eq. intros k. unfold JS.u8_from.
  rewrite list_lookup_fmap. destruct (l !! k) as [x|] eqn:E; [|reflexivity].
  cbn. f_equal. unfold JS.toUint8. apply Z.mod_small. eauto.
Qed.

Lemma u8_from_bytes l : is_bytes l = true -> JS.u8_from l = l.
Proof. intros H. apply u8_from_fixed. intros k x. now apply is_bytes_lookup. Qed.

(** ** Counter blocks *)

Lemma uint32_bytes x :
  0 <= x < 2 ^ 32 ->
  x = byte_of 0 x + 256 * byte_of 1 x + 65536 * byte_of 2 x + 16777216 * byte_of 3 x.
Proof.
  intros Hx. unfold byte_of.
  change (2 ^ (8 * 0)) with 1. change (2 ^ (8 * 1)) with 256.
  change (2 ^ (8 * 2)) with (256 * 256). change (2 ^ (8 * 3)) with (256 * 256 * 256).
  rewrite Z.div_1_r, <- !Z.div_div by lia.
  pose proof (Z.div_mod x 256 ltac:(lia)).
  pose proof (Z.div_mod (x / 256) 256 ltac:(lia)).
  pose proof (Z.div_mod (x / 256 / 256) 256 ltac:(lia)).
  pose proof (Z.div_mod (x / 256 / 256 / 256) 256 ltac:(lia)).
  pose proof (Z.mod_pos_bound x 256 ltac:(lia)).
  pose proof (Z.mod_pos_bound (x / 256) 256 ltac:(lia)).
  pose proof (Z.mod_pos_bound (x / 256 / 256) 256 ltac:(lia)).
  pose proof (Z.mod_pos_bound (x / 256 / 256 / 256) 256 ltac:(lia)).
  assert (x / 256 / 256 / 256 / 256 = 0); [|lia].
  rewrite !Z.div_div by lia. apply Z.div_small. lia.
Qed.

Lemma counter_bytes_inj b1 b2 sh1 sh2 :
  0 <= b1 < 2 ^ 32 -> 0 <= b2 < 2 ^ 32 ->
  counter_bytes b1 sh1 = counter_bytes b2 sh2 -> b1 = b2.
Proof.
  intros H1 H2 E. unfold counter_bytes in E.
  rewrite !(toUint32_small b1), !(toUint32_small b2) in E by assumption.
  injection E as _ _ _ _ E3 E2 E1 E0.
  rewrite (uint32_bytes b1 H1), (uint32_bytes b2 H2). congruence.
Qed.

Lemma counter_log_lookup (header : list Z) sh n (b : nat) cb :
  ((fun b => header ++ counter_bytes b sh) <$> seqZ 0 n) !! b = Some cb ->
  cb = header ++ counter_bytes (Z.of_nat b) sh /\ Z.of_nat b < n.
Proof.
  intros H. apply list_lookup_fmap_Some_1 in H as (x & -> & Hx).
  apply lookup_seqZ in Hx as [-> Hlt]. split; [reflexivity | assumption].
Qed.

Lemma counter_block_bytes (header : list Z) b sh (c : nat) :
  length header = 8%nat -> (c < 4)%nat ->
  (header ++ counter_bytes b sh) !! (15 - c)%nat
    = Some (byte_of (Z.of_nat c) (JS.toUint32 b))
  /\ (header ++ counter_bytes b sh) !! (11 - c)%nat
    = Some (byte_of (Z.of_nat c) (JS.ushr b sh)).
Proof.
  intros Hh Hc.
  rewrite !lookup_app_r by lia. rewrite Hh.
  destruct c as [|[|[|[|c]]]]; [| | | |lia]; split; reflexivity.
Qed.

(** ** Whole calls *)

Section Calls.

Context {aes : AesCipher} {env : Environment}.

Lemma log_of_run (o : option run) log :
  cipherLog <$> o = Some log -> exists r, o = Some (Run r log).
Proof.
  destruct o as [[r l]|]; [|discriminate]. cbn. intros [= <-]. eauto.
Qed.

Lemma encrypt_run_looping fuel P pw nBits seq nonce :
  looping_sequence seq = true -> encrypt_run fuel P pw nBits seq nonce = None.
Proof.
  intros H. unfold encrypt_run. now rewrite shift_of_looping.
Qed.

Lemma encrypt_run_invalid fuel P pw nBits seq nonce sh :
  shift_of fuel seq = Some sh -> valid_nBits nBits = false ->
  encrypt_run fuel P pw nBits seq nonce = Some (Run EmptyString []).
Proof.
  intros Hsh Hv. unfold encrypt_run. rewrite Hsh. cbn [mbind option_bind].
  now rewrite Hv.
Qed.

Lemma decrypt_run_invalid fuel C pw nBits seq :
  valid_nBits nBits = false ->
  decrypt_run fuel C pw nBits seq = Some (Run EmptyString []).
Proof. intros Hv. unfold decrypt_run. now rewrite Hv. Qed.

Lemma decrypt_run_looping fuel C pw nBits seq :
  valid_nBits nBits = true -> looping_sequence seq = true ->
  decrypt_run fuel C pw nBits seq = None.
Proof.
  intros Hv H. unfold decrypt_run. rewrite Hv. cbn [negb].
  now rewrite shift_of_looping.
Qed.

Lemma decrypt_run_short fuel C pw nBits seq sh :
  shift_of fuel seq = Some sh -> valid_nBits nBits = true ->
  (length C < 8)%nat ->
  decrypt_run fuel C pw nBits seq = Some (Run RangeError []).
Proof.
  intros Hsh Hv Hlen. unfold decrypt_run. rewrite Hv. cbn [negb].
  rewrite Hsh. cbn [mbind option_bind]. cbv zeta.
  assert (Hl : length (JS.u8_from C) = length C) by apply length_fmap.
  rewrite Hl.
  destruct (Z.ltb_spec (Z.of_nat (length C) - 8) 0); [reflexivity | lia].
Qed.

Lemma encrypt_then_decrypt fuel P pw nBits seq seq' nonce sh :
  shift_of fuel seq = Some sh -> shift_of fuel seq' = Some sh ->
  valid_nBits nBits = true -> is_bytes P = true ->
  exists ct,
    encrypt fuel P pw nBits seq nonce = Some (Bytes ct)
    /\ decrypt fuel ct pw nBits seq' = Some (Bytes P).
Proof.
  intros Hsh Hsh' Hv HP.
  destruct (encrypt_run_spec fuel P pw nBits seq nonce sh Hsh Hv)
    as (ct & Hrun & Hlen & Hct).
  rewrite (u8_from_bytes P HP) in Hct.
  exists ct. split.
  { unfold encrypt. now rewrite Hrun. }
  assert (Hfix : JS.u8_from ct = ct).
  { apply u8_from_fixed. intros k x. rewrite Hct.
    repeat destruct (decide _); intros [= <-]; [apply xor8_range | lia]. }
  assert (Hhdr : take 8 ct = replicate 8 0).
  { apply list_eq. intros k. destruct (decide (k < 8)%nat) as [Hk|Hk].
    - rewrite lookup_take_lt, Hct by assumption.
      destruct (decide _); [lia|]. destruct (decide _); [|lia].
      symmetry. apply lookup_replicate. split; [reflexivity | assumption].
    - rewrite lookup_take_ge by lia. symmetry. apply lookup_ge_None.
      rewrite length_replicate. lia. }
  destruct (decrypt_run_spec fuel ct pw nBits seq' sh Hsh' Hv
              ltac:(lia)) as (pt & Hdrun & Hplen & Hpt).
  rewrite Hfix, Hhdr in Hpt.
  unfold decrypt. rewrite Hdrun. cbn. do 2 f_equal.
  apply list_eq. intros k. rewrite Hpt.
  destruct (decide _) as [Hk|Hk].
  - replace (8 + Z.of_nat k) with (Z.of_nat (8 + k)) by lia.
    rewrite get_lookup, Hct.
    destruct (decide _) as [_|Hn]; [|lia].
    replace (Z.of_nat (8 + k)%nat - 8) with (Z.of_nat k) by lia.
    rewrite get_lookup.
    destruct (P !! k) as [p|] eqn:Ep.
    + rewrite xor8_involutive; [reflexivity|]. eapply is_bytes_lookup; eauto.
    + apply lookup_ge_None in Ep. lia.
  - symmetry. apply lookup_ge_None. lia.
Qed.

Lemma encrypt_run_log fuel P pw nBits seq nonce sh r log :
  shift_of fuel seq = Some sh ->
  encrypt_run fuel P pw nBits seq nonce = Some (Run r log) ->
  log = [] \/
  (valid_nBits nBits = true /\
   log = (fun b => replicate 8 0 ++ counter_bytes b sh)
           <$> seqZ 0 (JS.ceil_div (Z.of_nat (length P)) 16)).
Proof.
  intros Hsh Hrun. destruct (valid_nBits nBits) eqn:Hv.
  - right. split; [reflexivity|].
    destruct (encrypt_run_spec fuel P pw nBits seq nonce sh Hsh Hv) as (ct & Hspec & _).
    rewrite Hspec in Hrun. now injection Hrun as _ <-.
  - left. erewrite encrypt_run_invalid in Hrun by eassumption.
    now injection Hrun as _ <-.
Qed.

Lemma decrypt_run_log fuel C pw nBits seq sh r log :
  shift_of fuel seq = Some sh ->
  decrypt_run fuel C pw nBits seq = Some (Run r log) ->
  log = [] \/
  (valid_nBits nBits = true /\ (8 <= length C)%nat /\
   log = (fun b => take 8 (JS.u8_from C) ++ counter_bytes b sh)
           <$> seqZ 0 (JS.ceil_div (Z.of_nat (length C) - 8) 16)).
Proof.
  intros Hsh Hrun. destruct (valid_nBits nBits) eqn:Hv.
  - destruct (le_lt_dec 8 (length C)) as [Hlen|Hlen].
    + right. split; [reflexivity|]. split; [assumption|].
      destruct (decrypt_run_spec fuel C pw nBits seq sh Hsh Hv Hlen)
        as (pt & Hspec & _).
      rewrite Hspec in Hrun. now injection Hrun as _ <-.
    + left. erewrite decrypt_run_short in Hrun by eassumption.
      now injection Hrun as _ <-.
  - left. rewrite decrypt_run_invalid in Hrun by assumption.
    now injection Hrun as _ <-.
Qed.

(** C5, as the code has it: in every block that [encrypt] or [decrypt]
    processes, with block index [b] and shift amount [sh], counter-block
    bytes 15, 14, 13, 12 hold bytes 0..3 of [b] (least significant in
    byte 15), and bytes 11, 10, 9, 8 hold bytes 0..3 of [b >>> sh], the
    block index shifted right (least significant in byte 11). The
    sequence value itself is not stored. *)
Theorem counter_block_layout fuel P C pw nBits seq nonce sh log (b c : nat) cb :
  shift_of fuel seq = Some sh ->
  encrypt_log fuel P pw nBits seq nonce = Some log
    \/ decrypt_log fuel C pw nBits seq = Some log ->
  log !! b = Some cb -> (c < 4)%nat ->
  cb !! (15 - c)%nat = Some (byte_of (Z.of_nat c) (JS.toUint32 (Z.of_nat b)))
  /\ cb !! (11 - c)%nat = Some (byte_of (Z.of_nat c) (JS.ushr (Z.of_nat b) sh)).
Proof.
  intros Hsh [[r Hrun]%log_of_run|[r Hrun]%log_of_run] Hb Hc.
  - destruct (encrypt_run_log _ _ _ _ _ _ _ _ _ Hsh Hrun) as [->|(_ & ->)];
      [discriminate|].
    apply counter_log_lookup in Hb as [-> _].
    now apply counter_block_bytes.
  - destruct (decrypt_run_log _ _ _ _ _ _ _ _ Hsh Hrun) as [->|(_ & Hlen & ->)];
      [discriminate|].
    apply counter_log_lookup in Hb as [-> _].
    apply counter_block_bytes; [|assumption].
    rewrite length_take. unfold JS.u8_from. rewrite length_fmap. lia.
Qed.

Lemma encrypt_run_shift fuel P pw nBits seq nonce rn :
  encrypt_run fuel P pw nBits seq nonce = Some rn ->
  exists sh, shift_of fuel seq = Some sh.
Proof.
  unfold encrypt_run. destruct (shift_of fuel seq) as [sh|]; [eauto | discriminate].
Qed.

(** C6: within one [encrypt] call with [blockCount = ceil(L/16)] at most
    2^32, one counter block per block index is handed to the cipher, and
    the counter blocks of two different block indices differ. *)
Theorem counter_blocks_distinct fuel P pw nBits seq nonce log :
  encrypt_log fuel P pw nBits seq nonce = Some log ->
  valid_nBits nBits = true ->
  JS.ceil_div (Z.of_nat (length P)) 16 <= 2 ^ 32 ->
  Z.of_nat (length log) = JS.ceil_div (Z.of_nat (length P)) 16
  /\ forall (b1 b2 : nat) cb1 cb2,
       b1 <> b2 -> log !! b1 = Some cb1 -> log !! b2 = Some cb2 -> cb1 <> cb2.
Proof.
  intros [r Hrun]%log_of_run Hv Hn.
  destruct (encrypt_run_shift _ _ _ _ _ _ _ Hrun) as [sh Hsh].
  destruct (encrypt_run_log _ _ _ _ _ _ _ _ _ Hsh Hrun) as [->|(_ & ->)].
  { destruct (encrypt_run_spec fuel P pw nBits seq nonce sh Hsh Hv) as (ct & Hspec & _).
    rewrite Hspec in Hrun. injection Hrun as _ Hlog.
    pose proof (ceil_div_bounds (Z.of_nat (length P)) ltac:(lia)) as Hb.
    apply (f_equal length) in Hlog.
    rewrite length_fmap, length_seqZ in Hlog. cbn in Hlog.
    split; [cbn; lia|]. intros b1 b2 cb1 cb2 _ H. discriminate. }
  pose proof (ceil_div_bounds (Z.of_nat (length P)) ltac:(lia)) as Hb.
  split.
  { rewrite length_fmap, length_seqZ. lia. }
  intros b1 b2 cb1 cb2 Hne H1 H2 ->.
  apply counter_log_lookup in H1 as [-> Hb1].
  apply counter_log_lookup in H2 as [E Hb2].
  apply app_inv_head in E. apply counter_bytes_inj in E; lia.
Qed.

(** *** Round trip *)

(** For every sequence on which [leadingZeros] returns, decrypting what
    [encrypt] produced gives the plaintext back. *)
Lemma roundtrip fuel P pw nBits seq nonce :
  valid_nBits nBits = true -> is_bytes P = true ->
  looping_sequence seq = false -> (33 <= fuel)%nat ->
  decrypt_encrypt fuel P pw nBits seq nonce = Some (Bytes P).
Proof.
  intros Hv HP Hs Hf.
  destruct (shift_of_defined fuel seq Hf Hs) as (sh & Hsh & _).
  edestruct encrypt_then_decrypt as (ct & Hct & Hpt);
    [exact Hsh | exact Hsh | exact Hv | exact HP |].
  unfold decrypt_encrypt. rewrite Hct. cbn [mbind option_bind]. exact Hpt.
Qed.

(** C1, at the failing input: with [sequence = 2^63], one of the values
    the round-trip property lists, [encrypt] never returns, for every
    plaintext, password, key size and nonce, so
    [decrypt(encrypt(P, ...), ...)] produces nothing. *)
Theorem roundtrip_stuck_at_2p63 fuel P pw nBits nonce :
  decrypt_encrypt fuel P pw nBits (Some (2 ^ 63)) nonce = None.
Proof.
  unfold decrypt_encrypt, encrypt.
  erewrite encrypt_run_looping; reflexivity.
Qed.

(** *** Header *)

Lemma encrypt_header_zero fuel P pw nBits seq nonce ct :
  encrypt fuel P pw nBits seq nonce = Some (Bytes ct) ->
  take 8 ct = replicate 8 0 /\ (8 <= length ct)%nat.
Proof.
  unfold encrypt. intros H.
  destruct (encrypt_run fuel P pw nBits seq nonce) as [rn|] eqn:Hrun; [|discriminate].
  destruct (encrypt_run_shift _ _ _ _ _ _ _ Hrun) as [sh Hsh].
  destruct (valid_nBits nBits) eqn:Hv.
  - destruct (encrypt_run_spec fuel P pw nBits seq nonce sh Hsh Hv)
      as (ct' & Hspec & Hlen & Hct).
    rewrite Hspec in Hrun. injection Hrun as <-. cbn in H. injection H as <-.
    split; [|lia].
    apply list_eq. intros k. destruct (decide (k < 8)%nat) as [Hk|Hk].
    + rewrite lookup_take_lt, Hct by assumption.
      destruct (decide _); [lia|]. destruct (decide _); [|lia].
      symmetry. apply lookup_replicate. split; [reflexivity | assumption].
    + rewrite lookup_take_ge by lia. symmetry. apply lookup_ge_None.
      rewrite length_replicate. lia.
  - erewrite encrypt_run_invalid in Hrun by eassumption.
    injection Hrun as <-. discriminate.
Qed.

(** C3, at the failing input: for the nonce 10000 of the README the
    header that [encrypt] writes is eight zero bytes, whatever the
    plaintext and password, while the documented packing puts
    [floor(10000/1000) = 10] in byte 4. *)
Theorem header_ignores_nonce_10000 fuel P pw :
  exists ct,
    encrypt fuel P pw 128 None (Some 10000) = Some (Bytes ct)
    /\ take 8 ct = [0; 0; 0; 0; 0; 0; 0; 0]
    /\ documented_header 10000 randomFloor !! 4%nat = Some 10.
Proof.
  destruct (encrypt_run_spec fuel P pw 128 None (Some 10000) 8 eq_refl eq_refl)
    as (ct & Hspec & _).
  assert (Hct : encrypt fuel P pw 128 None (Some 10000) = Some (Bytes ct)).
  { unfold encrypt. now rewrite Hspec. }
  exists ct. split; [exact Hct|]. split; [|reflexivity].
  now apply encrypt_header_zero in Hct as [-> _].
Qed.

(** *** Lengths *)


(** Whatever the fuel and the sequence, a result that comes back has
    these lengths. *)
Lemma encrypt_result_length fuel P pw nBits seq nonce r :
  valid_nBits nBits = true -> encrypt fuel P pw nBits seq nonce = Some r ->
  exists ct, r = Bytes ct /\ length ct = (length P + 8)%nat.
Proof.
  intros Hv H. unfold encrypt in H.
  destruct (encrypt_run fuel P pw nBits seq nonce) as [rn|] eqn:Hrun; [|discriminate].
  destruct (encrypt_run_shift _ _ _ _ _ _ _ Hrun) as [sh Hsh].
  destruct (encrypt_run_spec fuel P pw nBits seq nonce sh Hsh Hv)
    as (ct & Hspec & Hlen & _).
  rewrite Hspec in Hrun. injection Hrun as <-. cbn in H. injection H as <-. eauto.
Qed.

Lemma decrypt_result_length fuel C pw nBits seq r :
  valid_nBits nBits = true -> decrypt fuel C pw nBits seq = Some r ->
  if (length C <? 8)%nat then r = RangeError
  else exists pt, r = Bytes pt /\ length pt = (length C - 8)%nat.
Proof.
  intros Hv H. unfold decrypt in H.
  destruct (decrypt_run fuel C pw nBits seq) as [rn|] eqn:Hrun; [|discriminate].
  assert (Hsh : exists sh, shift_of fuel seq = Some sh).
  { unfold decrypt_run in Hrun. rewrite Hv in Hrun. cbn [negb] in Hrun.
    destruct (shift_of fuel seq) as [sh|]; [eauto | discriminate]. }
  destruct Hsh as [sh Hsh]. destruct (Nat.ltb_spec (length C) 8) as [Hlt|Hge].
  - erewrite decrypt_run_short in Hrun by eassumption.
    injection Hrun as <-. cbn in H. now injection H as <-.
  - destruct (decrypt_run_spec fuel C pw nBits seq sh Hsh Hv Hge)
      as (pt & Hspec & Hlen & _).
    rewrite Hspec in Hrun. injection Hrun as <-. cbn in H. injection H as <-. eauto.
Qed.

(** *** Key-size guard *)

Lemma invalid_nBits_empty fuel P C pw nBits seq nonce :
  valid_nBits nBits = false ->
  decrypt fuel C pw nBits seq = Some EmptyString
  /\ (looping_sequence seq = false -> (33 <= fuel)%nat ->
      encrypt fuel P pw nBits seq nonce = Some EmptyString).
Proof.
  intros Hv. split.
  - unfold decrypt. now rewrite decrypt_run_invalid.
  - intros Hs Hf. destruct (shift_of_defined fuel seq Hf Hs) as (sh & Hsh & _).
    unfold encrypt. now erewrite encrypt_run_invalid by eassumption.
Qed.

(** C8, at the failing input: [nBits = 100] is not a key size, and with
    [sequence = 2^31] [encrypt] never returns the empty result: line 57
    runs [leadingZeros] before the key-size guard of line 59 is reached.
    [decrypt], which tests [nBits] first, returns the empty result. *)
Theorem encrypt_guard_not_reached fuel P C pw nonce :
  valid_nBits 100 = false
  /\ encrypt fuel P pw 100 (Some (2 ^ 31)) nonce = None
  /\ decrypt fuel C pw 100 (Some (2 ^ 31)) = Some EmptyString.
Proof.
  split; [reflexivity|]. split.
  - unfold encrypt. erewrite encrypt_run_looping; reflexivity.
  - unfold decrypt. now rewrite decrypt_run_invalid.
Qed.

(** *** Short ciphertexts *)


(** *** Termination *)

(** Apart from [leadingZeros] every loop is a counted [for]: a call
    returns (or raises) exactly when the sequence is not a positive
    multiple of 2^31. *)
Lemma encrypt_returns fuel P pw nBits seq nonce :
  looping_sequence seq = false -> (33 <= fuel)%nat ->
  exists r, encrypt fuel P pw nBits seq nonce = Some r.
Proof.
  intros Hs Hf. destruct (shift_of_defined fuel seq Hf Hs) as (sh & Hsh & _).
  unfold encrypt, encrypt_run. rewrite Hsh. cbn [mbind option_bind].
  destruct (negb (valid_nBits nBits)); cbn; eauto.
Qed.

Lemma decrypt_returns fuel C pw nBits seq :
  looping_sequence seq = false -> (33 <= fuel)%nat ->
  exists r, decrypt fuel C pw nBits seq = Some r.
Proof.
  intros Hs Hf. destruct (shift_of_defined fuel seq Hf Hs) as (sh & Hsh & _).
  unfold decrypt, decrypt_run.
  destruct (negb (valid_nBits nBits)); [cbn; eauto|].
  rewrite Hsh. cbn [mbind option_bind]. cbv zeta.
  destruct (_ <? 0); cbn; eauto.
Qed.

Lemma encrypt_never_returns fuel P pw nBits seq nonce :
  looping_sequence seq = true -> encrypt fuel P pw nBits seq nonce = None.
Proof. intros H. unfold encrypt. now rewrite encrypt_run_looping. Qed.

(** *** Sequences of the same bit length *)

Lemma encrypt_run_same_shift fuel P pw nBits seq seq' nonce :
  shift_of fuel seq = shift_of fuel seq' ->
  encrypt_run fuel P pw nBits seq nonce = encrypt_run fuel P pw nBits seq' nonce.
Proof. intros H. unfold encrypt_run. now rewrite H. Qed.

(** C9, as the code has it: two supplied sequence values below 2^31
    with the same bit length have the same shift amount, their bit length,
    and give the same ciphertext for the same plaintext, password, key
    size and nonce; for a valid key size [decrypt] with either of them
    recovers the plaintext encrypted with the other. *)
Theorem same_bitlength_same_ciphertext fuel P pw nBits s1 s2 nonce :
  (33 <= fuel)%nat -> 0 <= s1 < 2 ^ 31 -> 0 <= s2 < 2 ^ 31 ->
  bitlength s1 = bitlength s2 ->
  shift_of fuel (Some s1) = Some (bitlength s1)
  /\ shift_of fuel (Some s2) = Some (bitlength s1)
  /\ encrypt fuel P pw nBits (Some s1) nonce = encrypt fuel P pw nBits (Some s2) nonce
  /\ (valid_nBits nBits = true -> is_bytes P = true ->
      exists ct,
        encrypt fuel P pw nBits (Some s1) nonce = Some (Bytes ct)
        /\ decrypt fuel ct pw nBits (Some s2) = Some (Bytes P)).
Proof.
  intros Hf H1 H2 Hb.
  pose proof (shift_of_int31 fuel s1 Hf H1) as E1.
  pose proof (shift_of_int31 fuel s2 Hf H2) as E2.
  rewrite <- Hb in E2. repeat split; try assumption.
  - unfold encrypt. f_equal. apply encrypt_run_same_shift. congruence.
  - intros Hv HP. eapply encrypt_then_decrypt; eassumption.
Qed.

End Calls.

(** ** Termination of leadingZeros *)

Lemma leadingZeros_stuck_multiples fuel k :
  0 < k -> leadingZeros fuel (k * 2 ^ 32) = None.
Proof.
  intros Hk. apply leadingZeros_looping; [lia|].
  replace (k * 2 ^ 32) with ((2 * k) * 2 ^ 31) by lia. apply Z.mod_mul. lia.
Qed.

(** When it returns, [leadingZeros] does so within 33 iterations. *)
Lemma leadingZeros_returns fuel x :
  (33 <= fuel)%nat -> (0 <? x) && (x mod 2 ^ 31 =? 0) = false ->
  exists n, leadingZeros fuel x = Some n /\ 32 <= n <= 64.
Proof.
  intros Hf Hx. pose proof (shift_of_supplied fuel x Hf Hx) as H.
  cbn [shift_of] in H.
  destruct (leadingZeros fuel x) as [n|]; [|discriminate].
  exists n. split; [reflexivity|]. cbn in H. injection H as H.
  destruct (x <? 0); [lia|].
  pose proof (Z.mod_pos_bound x (2 ^ 31) ltac:(lia)).
  pose proof (bitlength_range31 (x mod 2 ^ 31)). lia.
Qed.

(** C2, at the failing input: on [2^63], and on [2^32] and [2^31],
    [leadingZeros] never returns: after the first [x << 1] the value is
    the 32-bit integer 0, which no further shift makes negative. The shift
    amount of line 57 and line 130 is then never computed. *)
Theorem leadingZeros_stuck_at_2p63 fuel :
  leadingZeros fuel (2 ^ 63) = None
  /\ leadingZeros fuel (2 ^ 32) = None
  /\ leadingZeros fuel (2 ^ 31) = None
  /\ shift_of fuel (Some (2 ^ 63)) = None.
Proof.
  repeat split; try (apply leadingZeros_looping; [lia | reflexivity]).
  now apply shift_of_looping.
Qed.

(** ** The shift amount of a supplied sequence *)

(** C4, as the code has it: the shift amount is 8 when the sequence is
    absent; for a supplied [s] with [0 < s < 2^31], [leadingZeros] returns
    [64 - bitlength s] and the shift amount, [64 - leadingZeros(s)], is
    [bitlength s]; a supplied 0 gives [leadingZeros = 64] and the shift
    amount 0, which differs from the 8 of an omitted sequence. *)
Theorem shift_amount fuel s :
  (33 <= fuel)%nat -> 0 < s < 2 ^ 31 ->
  shift_of fuel None = Some 8
  /\ leadingZeros fuel 0 = Some 64
  /\ shift_of fuel (Some 0) = Some 0
  /\ leadingZeros fuel s = Some (64 - bitlength s)
  /\ shift_of fuel (Some s) = Some (bitlength s).
Proof.
  intros Hf Hs. split; [reflexivity|]. split; [reflexivity|]. split; [reflexivity|].
  split.
  - rewrite leadingZeros_positive by (rewrite ?Z.mod_small; lia).
    now rewrite Z.mod_small by lia.
  - apply shift_of_int31; lia.
Qed.

Lemma shift_amount_witness :
  (33 <= 33)%nat /\ 0 < 5 < 2 ^ 31
  /\ shift_of 33 None = Some 8
  /\ leadingZeros 33 0 = Some 64
  /\ shift_of 33 (Some 0) = Some 0
  /\ leadingZeros 33 5 = Some (64 - bitlength 5)
  /\ shift_of 33 (Some 5) = Some (bitlength 5).
Proof.
  split; [lia|]. split; [lia|]. apply (shift_amount 33 5); lia.
Defined.

(** The shift amount is not [64 - bitlength s]: for [s = 0] and [s = 1]
    it is 0 and 1, and for [s = 2^31 + 1], of 32 bits, it is 1. *)
Lemma shift_is_not_64_minus_bitlength :
  shift_of 33 (Some 0) = Some 0
  /\ shift_of 33 (Some 0) <> Some (64 - bitlength 0)
  /\ shift_of 33 (Some 1) = Some 1
  /\ shift_of 33 (Some 1) <> Some (64 - bitlength 1)
  /\ shift_of 33 (Some (2 ^ 31 + 1)) = Some 1
  /\ shift_of 33 (Some (2 ^ 31 + 1)) <> Some (64 - bitlength (2 ^ 31 + 1)).
Proof. vm_compute. repeat split; discriminate. Qed.

(** ** Concrete runs *)

(** With [sequence = 1] the shift amount is 1; in block 2 of a 33-byte
    plaintext byte 11 of the counter block is [2 >>> 1 = 1], not byte 0 of
    [sequence >> shift = 1 >> 1 = 0]. *)
Lemma counter_high_word_is_block_index :
  shift_of 33 (Some 1) = Some 1
  /\ Sample.encrypt_log 33 (replicate 33 0) [] 128 (Some 1) None
     = Some [ [0; 0; 0; 0; 0; 0; 0; 0; 0; 0; 0; 0; 0; 0; 0; 0];
              [0; 0; 0; 0; 0; 0; 0; 0; 0; 0; 0; 0; 0; 0; 0; 1];
              [0; 0; 0; 0; 0; 0; 0; 0; 0; 0; 0; 1; 0; 0; 0; 2] ]
  /\ byte_of 0 (Z.shiftr 1 1) = 0
  /\ [0; 0; 0; 0; 0; 0; 0; 0; 0; 0; 0; 1; 0; 0; 0; 2] !! 11%nat
     <> Some (byte_of 0 (Z.shiftr 1 1)).
Proof. vm_compute. repeat split; discriminate. Qed.

Lemma counter_block_layout_witness :
  shift_of 33 (Some 1) = Some 1
  /\ (Sample.encrypt_log 33 (replicate 33 0) [] 128 (Some 1) None
        = Some [ [0; 0; 0; 0; 0; 0; 0; 0; 0; 0; 0; 0; 0; 0; 0; 0];
                 [0; 0; 0; 0; 0; 0; 0; 0; 0; 0; 0; 0; 0; 0; 0; 1];
                 [0; 0; 0; 0; 0; 0; 0; 0; 0; 0; 0; 1; 0; 0; 0; 2] ]
      \/ Sample.decrypt_log 33 [] [] 128 (Some 1)
        = Some [ [0; 0; 0; 0; 0; 0; 0; 0; 0; 0; 0; 0; 0; 0; 0; 0];
                 [0; 0; 0; 0; 0; 0; 0; 0; 0; 0; 0; 0; 0; 0; 0; 1];
                 [0; 0; 0; 0; 0; 0; 0; 0; 0; 0; 0; 1; 0; 0; 0; 2] ])
  /\ [ [0; 0; 0; 0; 0; 0; 0; 0; 0; 0; 0; 0; 0; 0; 0; 0];
       [0; 0; 0; 0; 0; 0; 0; 0; 0; 0; 0; 0; 0; 0; 0; 1];
       [0; 0; 0; 0; 0; 0; 0; 0; 0; 0; 0; 1; 0; 0; 0; 2] ] !! 2%nat
     = Some [0; 0; 0; 0; 0; 0; 0; 0; 0; 0; 0; 1; 0; 0; 0; 2]
  /\ (0 < 4)%nat
  /\ [0; 0; 0; 0; 0; 0; 0; 0; 0; 0; 0; 1; 0; 0; 0; 2] !! (15 - 0)%nat
     = Some (byte_of (Z.of_nat 0) (JS.toUint32 (Z.of_nat 2)))
  /\ [0; 0; 0; 0; 0; 0; 0; 0; 0; 0; 0; 1; 0; 0; 0; 2] !! (11 - 0)%nat
     = Some (byte_of (Z.of_nat 0) (JS.ushr (Z.of_nat 2) 1)).
Proof.
  split; [reflexivity|]. split; [left; vm_compute; reflexivity|].
  split; [reflexivity|]. split; [lia|].
  apply (@counter_block_layout Sample.aes Sample.env
           33 (replicate 33 0) [] [] 128 (Some 1) None 1
           [ [0; 0; 0; 0; 0; 0; 0; 0; 0; 0; 0; 0; 0; 0; 0; 0];
             [0; 0; 0; 0; 0; 0; 0; 0; 0; 0; 0; 0; 0; 0; 0; 1];
             [0; 0; 0; 0; 0; 0; 0; 0; 0; 0; 0; 1; 0; 0; 0; 2] ]
           2%nat 0%nat).
  - reflexivity.
  - left. vm_compute. reflexivity.
  - reflexivity.
  - lia.
Defined.

Lemma counter_blocks_distinct_witness :
  Sample.encrypt_log 33 (replicate 40 7) [1; 2; 3] 192 None None
    = Some [ [0; 0; 0; 0; 0; 0; 0; 0; 0; 0; 0; 0; 0; 0; 0; 0];
             [0; 0; 0; 0; 0; 0; 0; 0; 0; 0; 0; 0; 0; 0; 0; 1];
             [0; 0; 0; 0; 0; 0; 0; 0; 0; 0; 0; 0; 0; 0; 0; 2] ]
  /\ valid_nBits 192 = true
  /\ JS.ceil_div (Z.of_nat (length (replicate 40 7))) 16 <= 2 ^ 32
  /\ Z.of_nat (length [ [0; 0; 0; 0; 0; 0; 0; 0; 0; 0; 0; 0; 0; 0; 0; 0];
                        [0; 0; 0; 0; 0; 0; 0; 0; 0; 0; 0; 0; 0; 0; 0; 1];
                        [0; 0; 0; 0; 0; 0; 0; 0; 0; 0; 0; 0; 0; 0; 0; 2] ])
     = JS.ceil_div (Z.of_nat (length (replicate 40 7))) 16
  /\ forall (b1 b2 : nat) cb1 cb2,
       b1 <> b2 ->
       [ [0; 0; 0; 0; 0; 0; 0; 0; 0; 0; 0; 0; 0; 0; 0; 0];
         [0; 0; 0; 0; 0; 0; 0; 0; 0; 0; 0; 0; 0; 0; 0; 1];
         [0; 0; 0; 0; 0; 0; 0; 0; 0; 0; 0; 0; 0; 0; 0; 2] ] !! b1 = Some cb1 ->
       [ [0; 0; 0; 0; 0; 0; 0; 0; 0; 0; 0; 0; 0; 0; 0; 0];
         [0; 0; 0; 0; 0; 0; 0; 0; 0; 0; 0; 0; 0; 0; 0; 1];
         [0; 0; 0; 0; 0; 0; 0; 0; 0; 0; 0; 0; 0; 0; 0; 2] ] !! b2 = Some cb2 ->
       cb1 <> cb2.
Proof.
  split; [vm_compute; reflexivity|]. split; [reflexivity|].
  split; [vm_compute; discriminate|].
  apply (@counter_blocks_distinct Sample.aes Sample.env
           33 (replicate 40 7) [1; 2; 3] 192 None None).
  - vm_compute. reflexivity.
  - reflexivity.
  - vm_compute. discriminate.
Defined.



Lemma same_bitlength_same_ciphertext_witness :
  (33 <= 33)%nat /\ 0 <= 5 < 2 ^ 31 /\ 0 <= 7 < 2 ^ 31
  /\ bitlength 5 = bitlength 7
  /\ shift_of 33 (Some 5) = Some (bitlength 5)
  /\ shift_of 33 (Some 7) = Some (bitlength 5)
  /\ Sample.encrypt 33 (replicate 40 9) [7] 128 (Some 5) None
     = Sample.encrypt 33 (replicate 40 9) [7] 128 (Some 7) None
  /\ (valid_nBits 128 = true -> is_bytes (replicate 40 9) = true ->
      exists ct,
        Sample.encrypt 33 (replicate 40 9) [7] 128 (Some 5) None = Some (Bytes ct)
        /\ Sample.decrypt 33 ct [7] 128 (Some 7) = Some (Bytes (replicate 40 9))).
Proof.
  split; [lia|]. split; [lia|]. split; [lia|]. split; [reflexivity|].
  apply (@same_bitlength_same_ciphertext Sample.aes Sample.env
           33 (replicate 40 9) [7] 128 5 7 None);
    [lia | lia | lia | reflexivity].
Defined.

(** ** Sequences above 2^31 *)

Lemma is_block_spec l : is_block l = true -> length l = 16%nat /\ is_bytes l = true.
Proof.
  unfold is_block. intros [H1 H2]%andb_prop. split; [|exact H2].
  now apply Nat.eqb_eq.
Qed.

Section PermutationCipher.

Context {aes : AesCipher} {env : Environment}.

(** A block cipher maps the 16-byte blocks one to one onto 16-byte
    blocks. *)
Hypothesis cipher_injective : forall w x y,
  is_block x = true -> is_block y = true -> cipher x w = cipher y w -> x = y.
Hypothesis cipher_block : forall w x,
  is_block x = true -> is_block (cipher x w) = true.

(** With any such cipher the sequences [2^31 + 1] and [2^31 + 2], both of
    32 bits, give different ciphertexts for 48 zero bytes. *)
Lemma block_cipher_separates_sequences fuel pw nBits nonce :
  (33 <= fuel)%nat -> valid_nBits nBits = true ->
  encrypt fuel (replicate 48 0) pw nBits (Some (2 ^ 31 + 1)) nonce
  <> encrypt fuel (replicate 48 0) pw nBits (Some (2 ^ 31 + 2)) nonce.
Proof.
  intros Hf Hv.
  assert (H1 : shift_of fuel (Some (2 ^ 31 + 1)) = Some 1).
  { now rewrite shift_of_supplied by (assumption || reflexivity). }
  assert (H2 : shift_of fuel (Some (2 ^ 31 + 2)) = Some 2).
  { now rewrite shift_of_supplied by (assumption || reflexivity). }
  destruct (encrypt_run_spec fuel (replicate 48 0) pw nBits _ nonce 1 H1 Hv)
    as (c1 & E1 & _ & L1).
  destruct (encrypt_run_spec fuel (replicate 48 0) pw nBits _ nonce 2 H2 Hv)
    as (c2 & E2 & _ & L2).
  unfold encrypt. rewrite E1, E2. cbn. intros [= ->].
  set (w := keyExpansion (derive_key nBits (JS.u8_from pw))) in *.
  assert (Hks : keystream w (replicate 8 0) 1 2
                = keystream w (replicate 8 0) 2 2).
  { apply list_eq. intros i.
    pose proof (cipher_block w (replicate 8 0 ++ counter_bytes 2 1) eq_refl) as B1.
    pose proof (cipher_block w (replicate 8 0 ++ counter_bytes 2 2) eq_refl) as B2.
    apply is_block_spec in B1 as [Hl1 Hb1]. apply is_block_spec in B2 as [Hl2 Hb2].
    fold (keystream w (replicate 8 0) 1 2) in Hl1, Hb1.
    fold (keystream w (replicate 8 0) 2 2) in Hl2, Hb2.
    destruct (decide (i < 16)%nat) as [Hi|Hi].
    - pose proof (L1 (40 + i)%nat) as A. rewrite (L2 (40 + i)%nat) in A.
      destruct (decide _) as [_|Hn]; [|cbn in Hn; lia].
      replace ((Z.of_nat (40 + i) - 8) / 16) with 2 in A
        by (apply (Z.div_unique _ _ _ (Z.of_nat i)); lia).
      replace ((Z.of_nat (40 + i) - 8) mod 16) with (Z.of_nat i) in A
        by (apply (Z.mod_unique _ _ 2); lia).
      replace (Z.of_nat (40 + i) - 8) with (Z.of_nat (40 + i - 8)) in A by lia.
      rewrite !get_lookup in A.
      destruct (keystream w (replicate 8 0) 1 2 !! i) as [a|] eqn:Ea;
        [|apply lookup_ge_None in Ea; lia].
      destruct (keystream w (replicate 8 0) 2 2 !! i) as [b|] eqn:Eb;
        [|apply lookup_ge_None in Eb; lia].
      pose proof (is_bytes_lookup _ _ _ Hb1 Ea).
      pose proof (is_bytes_lookup _ _ _ Hb2 Eb).
      apply (inj Some) in A. rewrite !xor8_spec in A.
      cbn [from_option id] in A.
      apply (f_equal (fun x => Z.lxor x (default 0
               (JS.u8_from (replicate 48 0) !! (40 + i - 8)%nat) mod 256))) in A.
      cbv beta in A.
      rewrite !Z.lxor_assoc, !Z.lxor_nilpotent, !Z.lxor_0_r in A.
      rewrite !Z.mod_small in A by lia. congruence.
    - rewrite !(proj2 (lookup_ge_None _ _)) by lia. reflexivity. }
  apply cipher_injective in Hks; [|reflexivity..].
  apply app_inv_head in Hks. discriminate.
Qed.

End PermutationCipher.

(** The identity cipher is such a permutation. *)
Example identity_separates_sequences :
  @encrypt Sample.identity Sample.env 33 (replicate 48 0) [] 128 (Some (2 ^ 31 + 1)) None
  <> @encrypt Sample.identity Sample.env 33 (replicate 48 0) [] 128 (Some (2 ^ 31 + 2)) None.
Proof.
  apply (@block_cipher_separates_sequences Sample.identity Sample.env).
  - intros w x y _ _ H. exact H.
  - intros w x H. exact H.
  - lia.
  - reflexivity.
Qed.

(** Above 2^31 the bit length no longer decides the shift amount:
    [2^31 + 1] and [2^31 + 2] both have 32 bits, their shift amounts are 1
    and 2, and the ciphertexts of a 48-byte plaintext differ in block 2. *)
Lemma same_bitlength_different_ciphertext :
  bitlength (2 ^ 31 + 1) = bitlength (2 ^ 31 + 2)
  /\ shift_of 33 (Some (2 ^ 31 + 1)) = Some 1
  /\ shift_of 33 (Some (2 ^ 31 + 2)) = Some 2
  /\ Sample.encrypt_log 33 (replicate 48 0) [] 128 (Some (2 ^ 31 + 1)) None
     <> Sample.encrypt_log 33 (replicate 48 0) [] 128 (Some (2 ^ 31 + 2)) None
  /\ Sample.encrypt 33 (replicate 48 0) [] 128 (Some (2 ^ 31 + 1)) None
     <> Sample.encrypt 33 (replicate 48 0) [] 128 (Some (2 ^ 31 + 2)) None.
Proof. vm_compute. repeat split; discriminate. Qed.

(** * Further properties of the two calls *)

(** ** Helper facts *)

Lemma u8_from_idem l : JS.u8_from (JS.u8_from l) = JS.u8_from l.
Proof.
  apply u8_from_fixed. intros k x. unfold JS.u8_from. rewrite list_lookup_fmap.
  destruct (l !! k); [|discriminate]. cbn. intros [= <-]. apply mod256_range.
Qed.

Lemma u8_from_is_bytes l : is_bytes (JS.u8_from l) = true.
Proof.
  unfold is_bytes, JS.u8_from. apply forallb_forall. intros x Hx.
  apply list_elem_of_In, list_elem_of_fmap in Hx as (y & -> & _).
  pose proof (mod256_range y). unfold is_byte, JS.toUint8. lia.
Qed.

Lemma xor8_bytes k p : xor8 k (Some p) = Z.lxor (default 0 k mod 256) (p mod 256).
Proof. apply xor8_spec. Qed.

Lemma ushr_below b sh : 0 <= sh < 32 -> 0 <= b < 2 ^ sh -> JS.ushr b sh = 0.
Proof.
  intros Hsh Hb. rewrite ushr_const by assumption.
  assert (2 ^ sh <= 2 ^ 32) by (apply Z.pow_le_mono_r; lia).
  rewrite toUint32_small by lia. apply Z.div_small. lia.
Qed.

Lemma ushr_32 b : JS.ushr b 32 = JS.ushr b 0.
Proof. reflexivity. Qed.

Section MoreCalls.

Context {aes : AesCipher} {env : Environment}.

(** The ciphertext as a whole: eight zero bytes, then the xor of the
    plaintext with the key stream. *)
Lemma encrypt_spec fuel P pw nBits seq nonce sh :
  shift_of fuel seq = Some sh -> valid_nBits nBits = true ->
  exists ct,
    encrypt fuel P pw nBits seq nonce = Some (Bytes ct)
    /\ length ct = (length P + 8)%nat
    /\ (forall k, (k < 8)%nat -> ct !! k = Some 0)
    /\ (forall j p, P !! j = Some p ->
          ct !! (8 + j)%nat =
            Some (xor8 (JS.get (keystream
                                  (keyExpansion (derive_key nBits (JS.u8_from pw)))
                                  (replicate 8 0) sh (Z.of_nat j / 16))
                               (Z.of_nat j mod 16))
                       (Some (p mod 256)))).
Proof.
  intros Hsh Hv.
  destruct (encrypt_run_spec fuel P pw nBits seq nonce sh Hsh Hv)
    as (ct & Hrun & Hlen & Hct).
  exists ct. split; [unfold encrypt; now rewrite Hrun|]. split; [exact Hlen|]. split.
  - intros k Hk. rewrite Hct. destruct (decide _); [lia|].
    destruct (decide _); [reflexivity | lia].
  - intros j p Hj. pose proof (lookup_lt_Some _ _ _ Hj) as Hlt.
    rewrite Hct. destruct (decide _) as [_|Hn]; [|lia].
    replace (Z.of_nat (8 + j) - 8) with (Z.of_nat j) by lia.
    rewrite get_lookup. unfold JS.u8_from. rewrite list_lookup_fmap, Hj. reflexivity.
Qed.

Lemma decrypt_spec fuel C pw nBits seq sh :
  shift_of fuel seq = Some sh -> valid_nBits nBits = true ->
  (8 <= length C)%nat ->
  exists pt,
    decrypt fuel C pw nBits seq = Some (Bytes pt)
    /\ length pt = (length C - 8)%nat
    /\ (forall j c, C !! (8 + j)%nat = Some c ->
          pt !! j =
            Some (xor8 (JS.get (keystream
                                  (keyExpansion (derive_key nBits (JS.u8_from pw)))
                                  (take 8 (JS.u8_from C)) sh (Z.of_nat j / 16))
                               (Z.of_nat j mod 16))
                       (Some (c mod 256)))).
Proof.
  intros Hsh Hv Hlen.
  destruct (decrypt_run_spec fuel C pw nBits seq sh Hsh Hv Hlen)
    as (pt & Hrun & Hl & Hpt).
  exists pt. split; [unfold decrypt; now rewrite Hrun|]. split; [exact Hl|].
  intros j c Hj. pose proof (lookup_lt_Some _ _ _ Hj) as Hlt.
  rewrite Hpt. destruct (decide _) as [_|Hn]; [|lia].
  replace (8 + Z.of_nat j) with (Z.of_nat (8 + j)) by lia.
  assert (E : JS.u8_from C !! (8 + j)%nat = Some (c mod 256)).
  { unfold JS.u8_from. now rewrite list_lookup_fmap, Hj. }
  now rewrite get_lookup, E.
Qed.

Lemma encrypt_shift fuel P pw nBits seq nonce r :
  encrypt fuel P pw nBits seq nonce = Some r -> exists sh, shift_of fuel seq = Some sh.
Proof.
  unfold encrypt. destruct (encrypt_run fuel P pw nBits seq nonce) eqn:E; [|discriminate].
  intros _. eapply encrypt_run_shift; eassumption.
Qed.

Lemma decrypt_shift fuel C pw nBits seq r :
  valid_nBits nBits = true ->
  decrypt fuel C pw nBits seq = Some r -> exists sh, shift_of fuel seq = Some sh.
Proof.
  intros Hv. unfold decrypt, decrypt_run. rewrite Hv. cbn [negb].
  destruct (shift_of fuel seq) as [sh|]; [eauto | discriminate].
Qed.

End MoreCalls.

Section Stream.

Context {aes : AesCipher} {env : Environment}.

(** ** The key stream *)

(** X1: two plaintexts encrypted with the same password, key size and
    sequence are xored with the same key stream, whatever the nonces: at
    every position the xor of the two ciphertext bytes is the xor of the
    two plaintext bytes. *)
Theorem keystream_reuse fuel P1 P2 pw nBits seq nonce1 nonce2 ct1 ct2 (j : nat) p1 p2 :
  valid_nBits nBits = true ->
  is_bytes P1 = true -> is_bytes P2 = true ->
  encrypt fuel P1 pw nBits seq nonce1 = Some (Bytes ct1) ->
  encrypt fuel P2 pw nBits seq nonce2 = Some (Bytes ct2) ->
  P1 !! j = Some p1 -> P2 !! j = Some p2 ->
  exists c1 c2,
    ct1 !! (8 + j)%nat = Some c1 /\ ct2 !! (8 + j)%nat = Some c2
    /\ Z.lxor c1 c2 = Z.lxor p1 p2.
Proof.
  intros Hv HP1 HP2 E1 E2 Hp1 Hp2.
  destruct (encrypt_shift _ _ _ _ _ _ _ E1) as [sh Hsh].
  destruct (encrypt_spec fuel P1 pw nBits seq nonce1 sh Hsh Hv) as (c1 & F1 & _ & _ & L1).
  destruct (encrypt_spec fuel P2 pw nBits seq nonce2 sh Hsh Hv) as (c2 & F2 & _ & _ & L2).
  rewrite F1 in E1. rewrite F2 in E2. injection E1 as <-. injection E2 as <-.
  do 2 eexists. split; [apply L1, Hp1|]. split; [apply L2, Hp2|].
  rewrite !xor8_bytes.
  pose proof (is_bytes_lookup _ _ _ HP1 Hp1). pose proof (is_bytes_lookup _ _ _ HP2 Hp2).
  rewrite !(Z.mod_small (p1 mod 256)), !(Z.mod_small (p2 mod 256)) by apply mod256_range.
  rewrite (Z.mod_small p1), (Z.mod_small p2) by lia.
  set (K := default 0 _ mod 256).
  rewrite (Z.lxor_comm K p1), Z.lxor_assoc, <- (Z.lxor_assoc K K p2).
  now rewrite Z.lxor_nilpotent, Z.lxor_0_l.
Qed.

(** X2: the ciphertext of a prefix is the prefix of the ciphertext: byte
    [8 + j] of the output depends on plaintext byte [j] only, not on what
    follows or on the length. *)
Theorem encrypt_prefix fuel P pw nBits seq nonce ct (n : nat) :
  valid_nBits nBits = true ->
  encrypt fuel P pw nBits seq nonce = Some (Bytes ct) ->
  encrypt fuel (take n P) pw nBits seq nonce = Some (Bytes (take (8 + n) ct)).
Proof.
  intros Hv E.
  destruct (encrypt_shift _ _ _ _ _ _ _ E) as [sh Hsh].
  destruct (encrypt_spec fuel P pw nBits seq nonce sh Hsh Hv) as (c & F & Hl & H0 & L).
  rewrite F in E. injection E as <-.
  destruct (encrypt_spec fuel (take n P) pw nBits seq nonce sh Hsh Hv)
    as (c' & F' & Hl' & H0' & L').
  rewrite F'. do 2 f_equal. apply list_eq. intros k.
  rewrite length_take in Hl'.
  destruct (decide (k < 8)%nat) as [Hk|Hk].
  - rewrite lookup_take_lt by lia. now rewrite H0, H0'.
  - destruct (take n P !! (k - 8)%nat) as [p|] eqn:Ep.
    + pose proof (lookup_lt_Some _ _ _ Ep) as Hlt. rewrite length_take in Hlt.
      rewrite lookup_take_lt by lia.
      replace k with (8 + (k - 8))%nat by lia.
      rewrite (L' _ _ Ep). rewrite lookup_take_lt in Ep by lia.
      now rewrite (L _ _ Ep).
    + apply lookup_ge_None in Ep. rewrite length_take in Ep.
      rewrite (proj2 (lookup_ge_None c' k)) by lia.
      symmetry. apply lookup_ge_None. rewrite length_take. lia.
Qed.

End Stream.

Lemma keystream_reuse_witness :
  exists c1 c2,
    result_bytes (Sample.encrypt 33 [10; 20; 30] [7] 128 (Some 5) (Some 10000))
      !! (8 + 1)%nat = Some c1
    /\ result_bytes (Sample.encrypt 33 [1; 2; 3; 4] [7] 128 (Some 5) None)
         !! (8 + 1)%nat = Some c2
    /\ Z.lxor c1 c2 = Z.lxor 20 2.
Proof.
  apply (@keystream_reuse Sample.aes Sample.env 33 [10; 20; 30] [1; 2; 3; 4] [7] 128
           (Some 5) (Some 10000) None);
    [reflexivity | reflexivity | reflexivity
    | vm_compute; reflexivity | vm_compute; reflexivity | reflexivity | reflexivity].
Defined.

Lemma encrypt_prefix_witness :
  Sample.encrypt 33 (take 2 [1; 2; 3; 4; 5]) [7] 192 None None
  = Some (Bytes (take (8 + 2)
                   (result_bytes (Sample.encrypt 33 [1; 2; 3; 4; 5] [7] 192 None None)))).
Proof.
  apply (@encrypt_prefix Sample.aes Sample.env 33 [1; 2; 3; 4; 5] [7] 192 None None);
    [reflexivity | vm_compute; reflexivity].
Defined.

Lemma is_bytes_insert l (i : nat) v :
  is_bytes l = true -> 0 <= v < 256 -> is_bytes (<[i := v]> l) = true.
Proof.
  intros Hl Hv. unfold is_bytes. apply forallb_forall. intros x Hx.
  apply list_elem_of_In, list_elem_of_lookup in Hx as (k & Hk).
  destruct (decide (i = k)) as [->|Hne].
  - pose proof (lookup_lt_Some _ _ _ Hk) as Hlt. rewrite length_insert in Hlt.
    rewrite list_lookup_insert_eq in Hk by assumption. injection Hk as <-.
    unfold is_byte. lia.
  - rewrite list_lookup_insert_ne in Hk by assumption.
    pose proof (is_bytes_lookup _ _ _ Hl Hk). unfold is_byte. lia.
Qed.

Lemma counter_bytes_small b sh1 sh2 :
  0 <= sh1 < 32 -> 0 <= sh2 < 32 -> 0 <= b < 2 ^ sh1 -> b < 2 ^ sh2 ->
  counter_bytes b sh1 = counter_bytes b sh2.
Proof.
  intros H1 H2 Hb1 Hb2. unfold counter_bytes.
  now rewrite !(ushr_below b sh1), !(ushr_below b sh2) by lia.
Qed.

Section Stream2.

Context {aes : AesCipher} {env : Environment}.

(** ** No integrity *)

(** X3: [decrypt] checks nothing: when one byte of the body of a
    ciphertext is replaced, the result is the old plaintext with the byte
    at the same offset changed by the same xor difference, and every other
    byte as before. *)
Theorem decrypt_modified_byte fuel C pw nBits seq pt (j : nat) c p v :
  valid_nBits nBits = true -> is_bytes C = true -> 0 <= v < 256 ->
  decrypt fuel C pw nBits seq = Some (Bytes pt) ->
  C !! (8 + j)%nat = Some c -> pt !! j = Some p ->
  decrypt fuel (<[(8 + j)%nat := v]> C) pw nBits seq
    = Some (Bytes (<[j := Z.lxor p (Z.lxor c v)]> pt)).
Proof.
  intros Hv HC Hvb E Hc Hp.
  destruct (decrypt_shift _ _ _ _ _ _ Hv E) as [sh Hsh].
  pose proof (lookup_lt_Some _ _ _ Hc) as HlenC.
  destruct (decrypt_spec fuel C pw nBits seq sh Hsh Hv ltac:(lia)) as (q & F & Hl & L).
  rewrite F in E. injection E as <-.
  destruct (decrypt_spec fuel (<[(8 + j)%nat := v]> C) pw nBits seq sh Hsh Hv
              ltac:(rewrite length_insert; lia)) as (q' & F' & Hl' & L').
  rewrite F'. do 2 f_equal. rewrite length_insert in Hl'.
  assert (Hhdr : take 8 (JS.u8_from (<[(8 + j)%nat := v]> C)) = take 8 (JS.u8_from C)).
  { rewrite (u8_from_bytes C HC), (u8_from_bytes _ (is_bytes_insert _ _ _ HC Hvb)).
    apply take_insert_ge. lia. }
  rewrite Hhdr in L'.
  apply list_eq. intros k. destruct (decide (j = k)) as [<-|Hne].
  - rewrite list_lookup_insert_eq by (apply lookup_lt_Some in Hp; lia).
    rewrite (L' j v) by (apply list_lookup_insert_eq; lia).
    rewrite (L j c Hc) in Hp. injection Hp as <-. f_equal.
    rewrite !xor8_bytes. pose proof (is_bytes_lookup _ _ _ HC Hc) as Hcb.
    rewrite !(Z.mod_small (_ mod 256) 256) by apply mod256_range.
    rewrite (Z.mod_small c), (Z.mod_small v) by lia.
    rewrite Z.lxor_assoc, <- (Z.lxor_assoc c c v).
    now rewrite Z.lxor_nilpotent, Z.lxor_0_l.
  - rewrite list_lookup_insert_ne by assumption.
    destruct (C !! (8 + k)%nat) as [ck|] eqn:Eck.
    + rewrite (L' k ck) by (rewrite list_lookup_insert_ne by lia; exact Eck).
      now rewrite (L k ck Eck).
    + apply lookup_ge_None in Eck.
      now rewrite !(proj2 (lookup_ge_None _ k)) by lia.
Qed.

(** ** What the sequence changes *)

Lemma encrypt_same_counters fuel P pw nBits seq1 seq2 nonce sh1 sh2 :
  shift_of fuel seq1 = Some sh1 -> shift_of fuel seq2 = Some sh2 ->
  (forall b, 0 <= b < JS.ceil_div (Z.of_nat (length P)) 16 ->
             counter_bytes b sh1 = counter_bytes b sh2) ->
  encrypt fuel P pw nBits seq1 nonce = encrypt fuel P pw nBits seq2 nonce.
Proof.
  intros H1 H2 Hcb. destruct (valid_nBits nBits) eqn:Hv.
  - destruct (encrypt_spec fuel P pw nBits seq1 nonce sh1 H1 Hv) as (c1 & F1 & Hl1 & Z1 & L1).
    destruct (encrypt_spec fuel P pw nBits seq2 nonce sh2 H2 Hv) as (c2 & F2 & Hl2 & Z2 & L2).
    rewrite F1, F2. do 2 f_equal. apply list_eq. intros k.
    destruct (decide (k < 8)%nat) as [Hk|Hk]; [now rewrite Z1, Z2|].
    destruct (P !! (k - 8)%nat) as [p|] eqn:Ep.
    + pose proof (lookup_lt_Some _ _ _ Ep) as Hlt.
      replace k with (8 + (k - 8))%nat by lia.
      rewrite (L1 _ _ Ep), (L2 _ _ Ep). do 3 f_equal.
      unfold keystream. rewrite Hcb; [reflexivity|].
      pose proof (ceil_div_bounds (Z.of_nat (length P)) ltac:(lia)).
      pose proof (Z.div_mod (Z.of_nat (k - 8)) 16 ltac:(lia)).
      pose proof (Z.mod_pos_bound (Z.of_nat (k - 8)) 16 ltac:(lia)). lia.
    + apply lookup_ge_None in Ep.
      now rewrite !(proj2 (lookup_ge_None _ k)) by lia.
  - unfold encrypt.
    now rewrite (encrypt_run_invalid fuel P pw nBits seq1 nonce sh1 H1 Hv),
                (encrypt_run_invalid fuel P pw nBits seq2 nonce sh2 H2 Hv).
Qed.

(** X4: the sequence reaches the ciphertext only through [b >>> shift],
    which is 0 while the block index is below [2^shift]. A plaintext of at
    most [16 * 2^m] bytes is therefore encrypted in the same way under any
    two sequences whose shift amounts are at least [m] (and below 32): an
    absent sequence (shift 8) and any sequence of at least 8 bits give the
    same ciphertext up to 4096 bytes. *)
Theorem short_plaintext_ignores_sequence fuel P pw nBits seq1 seq2 nonce sh1 sh2 m :
  shift_of fuel seq1 = Some sh1 -> shift_of fuel seq2 = Some sh2 ->
  0 <= m -> m <= sh1 < 32 -> m <= sh2 < 32 ->
  Z.of_nat (length P) <= 16 * 2 ^ m ->
  encrypt fuel P pw nBits seq1 nonce = encrypt fuel P pw nBits seq2 nonce.
Proof.
  intros H1 H2 Hm Hs1 Hs2 HL. eapply encrypt_same_counters; [eassumption..|].
  intros b Hb.
  pose proof (ceil_div_bounds (Z.of_nat (length P)) ltac:(lia)).
  assert (2 ^ m <= 2 ^ sh1) by (apply Z.pow_le_mono_r; lia).
  assert (2 ^ m <= 2 ^ sh2) by (apply Z.pow_le_mono_r; lia).
  apply counter_bytes_small; lia.
Qed.

(** X5: a negative sequence has the shift amount 32, and [b >>> 32] is
    [b >>> 0]: every negative sequence encrypts as the sequence 0 does. *)
Theorem negative_sequence_as_zero fuel P pw nBits s nonce :
  (1 <= fuel)%nat -> s < 0 ->
  shift_of fuel (Some s) = Some 32
  /\ encrypt fuel P pw nBits (Some s) nonce = encrypt fuel P pw nBits (Some 0) nonce.
Proof.
  intros Hf Hs.
  assert (H32 : shift_of fuel (Some s) = Some 32).
  { cbn [shift_of]. now rewrite leadingZeros_negative by assumption. }
  split; [exact H32|].
  eapply encrypt_same_counters; [exact H32 | reflexivity |].
  intros b _. reflexivity.
Qed.

End Stream2.

Lemma decrypt_modified_byte_witness :
  Sample.decrypt 33 (<[(8 + 1)%nat := 200]> [0; 0; 0; 0; 0; 0; 0; 0; 11; 22; 33])
    [7] 128 (Some 5)
  = Some (Bytes (<[1%nat := Z.lxor 40 (Z.lxor 22 200)]>
                   (result_bytes
                      (Sample.decrypt 33 [0; 0; 0; 0; 0; 0; 0; 0; 11; 22; 33]
                         [7] 128 (Some 5))))).
Proof.
  apply (@decrypt_modified_byte Sample.aes 33 [0; 0; 0; 0; 0; 0; 0; 0; 11; 22; 33]
           [7] 128 (Some 5));
    [reflexivity | reflexivity | lia | vm_compute; reflexivity
    | reflexivity | vm_compute; reflexivity].
Defined.

Lemma short_plaintext_ignores_sequence_witness :
  Sample.encrypt 33 (replicate 40 9) [7] 128 None None
  = Sample.encrypt 33 (replicate 40 9) [7] 128 (Some 1000) None.
Proof.
  apply (@short_plaintext_ignores_sequence Sample.aes Sample.env 33 (replicate 40 9)
           [7] 128 None (Some 1000) None 8 10 8);
    [reflexivity | vm_compute; reflexivity | lia | lia | lia | vm_compute; discriminate].
Defined.

Lemma negative_sequence_as_zero_witness :
  shift_of 33 (Some (-3)) = Some 32
  /\ Sample.encrypt 33 (replicate 40 9) [7] 128 (Some (-3)) None
     = Sample.encrypt 33 (replicate 40 9) [7] 128 (Some 0) None.
Proof.
  apply (@negative_sequence_as_zero Sample.aes Sample.env 33 (replicate 40 9)
           [7] 128 (-3) None); lia.
Defined.

Section Stream3.

Context {aes : AesCipher} {env : Environment}.

(** X6: decrypting with another sequence than the one used to encrypt is
    not noticed, and the leading blocks still come out right: with shift
    amounts of at least [m] on both sides (and below 32), the first
    [16 * 2^m] bytes of the result are those of the plaintext; the first
    16 bytes always are. *)
Theorem wrong_sequence_recovers_prefix fuel P pw nBits seq1 seq2 nonce sh1 sh2 m :
  valid_nBits nBits = true -> is_bytes P = true ->
  shift_of fuel seq1 = Some sh1 -> shift_of fuel seq2 = Some sh2 ->
  0 <= m -> m <= sh1 < 32 -> m <= sh2 < 32 ->
  exists ct pt,
    encrypt fuel P pw nBits seq1 nonce = Some (Bytes ct)
    /\ decrypt fuel ct pw nBits seq2 = Some (Bytes pt)
    /\ length pt = length P
    /\ forall j : nat, Z.of_nat j < 16 * 2 ^ m -> pt !! j = P !! j.
Proof.
  intros Hv HP H1 H2 Hm Hs1 Hs2.
  destruct (encrypt_spec fuel P pw nBits seq1 nonce sh1 H1 Hv) as (ct & F & Hl & Z0 & L).
  destruct (decrypt_spec fuel ct pw nBits seq2 sh2 H2 Hv ltac:(lia)) as (pt & G & Hlp & M).
  exists ct, pt. split; [exact F|]. split; [exact G|]. split; [lia|].
  intros j Hj.
  assert (Hfix : JS.u8_from ct = ct).
  { apply u8_from_fixed. intros k x Hk. destruct (decide (k < 8)%nat) as [Hk8|Hk8].
    - rewrite Z0 in Hk by assumption. injection Hk as <-. lia.
    - destruct (P !! (k - 8)%nat) as [p|] eqn:Ep.
      + replace k with (8 + (k - 8))%nat in Hk by lia.
        rewrite (L _ _ Ep) in Hk. injection Hk as <-. apply xor8_range.
      + apply lookup_ge_None in Ep. apply lookup_lt_Some in Hk. lia. }
  assert (Hhdr : take 8 ct = replicate 8 0).
  { apply list_eq. intros k. destruct (decide (k < 8)%nat) as [Hk|Hk].
    - rewrite lookup_take_lt, Z0 by assumption.
      symmetry. apply lookup_replicate. split; [reflexivity | assumption].
    - rewrite lookup_take_ge by lia. symmetry. apply lookup_ge_None.
      rewrite length_replicate. lia. }
  rewrite Hfix, Hhdr in M.
  destruct (P !! j) as [p|] eqn:Ep.
  - pose proof (is_bytes_lookup _ _ _ HP Ep) as Hb.
    rewrite (M j _ (L j p Ep)).
    assert (Hcb : counter_bytes (Z.of_nat j / 16) sh2 = counter_bytes (Z.of_nat j / 16) sh1).
    { assert (2 ^ m <= 2 ^ sh1) by (apply Z.pow_le_mono_r; lia).
      assert (2 ^ m <= 2 ^ sh2) by (apply Z.pow_le_mono_r; lia).
      pose proof (Z.div_mod (Z.of_nat j) 16 ltac:(lia)).
      pose proof (Z.mod_pos_bound (Z.of_nat j) 16 ltac:(lia)).
      apply counter_bytes_small; lia. }
    unfold keystream at 1. rewrite Hcb. fold (keystream
      (keyExpansion (derive_key nBits (JS.u8_from pw))) (replicate 8 0) sh1 (Z.of_nat j / 16)).
    rewrite (Z.mod_small p) by lia. rewrite (Z.mod_small (xor8 _ _)) by apply xor8_range.
    now rewrite xor8_involutive.
  - apply lookup_ge_None in Ep. apply lookup_ge_None. lia.
Qed.

(** X7: [encrypt] and [decrypt] apply the same key stream, so they also
    invert each other in the other order, for a ciphertext whose header is
    the eight zero bytes that [encrypt] writes: encrypting what [decrypt]
    returned gives the ciphertext back. *)
Theorem encrypt_after_decrypt fuel C pw nBits seq nonce pt :
  valid_nBits nBits = true -> is_bytes C = true ->
  take 8 C = replicate 8 0 ->
  decrypt fuel C pw nBits seq = Some (Bytes pt) ->
  encrypt fuel pt pw nBits seq nonce = Some (Bytes C).
Proof.
  intros Hv HC Hhdr E.
  destruct (decrypt_shift _ _ _ _ _ _ Hv E) as [sh Hsh].
  assert (HlenC : (8 <= length C)%nat).
  { apply (f_equal length) in Hhdr. rewrite length_take, length_replicate in Hhdr. lia. }
  destruct (decrypt_spec fuel C pw nBits seq sh Hsh Hv HlenC) as (q & G & Hlp & M).
  rewrite G in E. injection E as ->.
  rewrite (u8_from_bytes C HC), Hhdr in M.
  destruct (encrypt_spec fuel pt pw nBits seq nonce sh Hsh Hv) as (ct & F & Hl & Z0 & L).
  rewrite F. do 2 f_equal. apply list_eq. intros k.
  destruct (decide (k < 8)%nat) as [Hk|Hk].
  - rewrite Z0 by assumption. rewrite <- (lookup_take_lt C 8 k), Hhdr by assumption.
    symmetry. apply lookup_replicate. split; [reflexivity | assumption].
  - destruct (C !! k) as [c|] eqn:Ec.
    + replace k with (8 + (k - 8))%nat in * by lia.
      pose proof (is_bytes_lookup _ _ _ HC Ec) as Hb.
      rewrite (L _ _ (M _ _ Ec)). f_equal.
      rewrite (Z.mod_small c) by lia. rewrite (Z.mod_small (xor8 _ _)) by apply xor8_range.
      now apply xor8_involutive.
    + apply lookup_ge_None in Ec. apply lookup_ge_None. lia.
Qed.

Lemma encrypt_u8_from fuel P pw nBits seq nonce :
  encrypt fuel P pw nBits seq nonce = encrypt fuel (JS.u8_from P) pw nBits seq nonce.
Proof.
  unfold encrypt. f_equal. destruct (shift_of fuel seq) as [sh|] eqn:Hsh.
  - destruct (valid_nBits nBits) eqn:Hv.
    + rewrite !(encrypt_run_unfold _ _ _ _ _ _ sh Hsh Hv). cbv zeta.
      now rewrite u8_from_idem.
    + now rewrite !(encrypt_run_invalid _ _ _ _ _ _ sh Hsh Hv).
  - unfold encrypt_run. now rewrite Hsh.
Qed.

(** X8: for a valid key size and a sequence that is absent or not a
    positive multiple of 2^31, [decrypt(encrypt(P))] returns [P] with each
    element reduced modulo 256, as [new Uint8Array(plaintext)] stores it;
    this is [P] itself for an array of bytes, the empty one included. *)
Theorem roundtrip_modulo_256 fuel P pw nBits seq nonce :
  valid_nBits nBits = true -> looping_sequence seq = false -> (33 <= fuel)%nat ->
  decrypt_encrypt fuel P pw nBits seq nonce = Some (Bytes (JS.u8_from P))
  /\ (is_bytes P = true -> JS.u8_from P = P).
Proof.
  intros Hv Hs Hf. split; [|apply u8_from_bytes].
  pose proof (roundtrip fuel (JS.u8_from P) pw nBits seq nonce Hv
                (u8_from_is_bytes P) Hs Hf) as H.
  unfold decrypt_encrypt in *. now rewrite encrypt_u8_from.
Qed.

End Stream3.

Lemma wrong_sequence_recovers_prefix_witness :
  exists ct pt,
    Sample.encrypt 33 (replicate 40 9) [7] 128 (Some 5) None = Some (Bytes ct)
    /\ Sample.decrypt 33 ct [7] 128 (Some 1) = Some (Bytes pt)
    /\ length pt = length (replicate 40 9)
    /\ forall j : nat, Z.of_nat j < 16 * 2 ^ 1 -> pt !! j = replicate 40 9 !! j.
Proof.
  apply (@wrong_sequence_recovers_prefix Sample.aes Sample.env 33 (replicate 40 9)
           [7] 128 (Some 5) (Some 1) None 3 1 1);
    [reflexivity | reflexivity | vm_compute; reflexivity | vm_compute; reflexivity
    | lia | lia | lia].
Defined.

Lemma encrypt_after_decrypt_witness :
  Sample.encrypt 33
    (result_bytes (Sample.decrypt 33 [0; 0; 0; 0; 0; 0; 0; 0; 11; 22; 33] [7] 256 None))
    [7] 256 None (Some 10000)
  = Some (Bytes [0; 0; 0; 0; 0; 0; 0; 0; 11; 22; 33]).
Proof.
  apply (@encrypt_after_decrypt Sample.aes Sample.env 33
           [0; 0; 0; 0; 0; 0; 0; 0; 11; 22; 33] [7] 256 None (Some 10000));
    [reflexivity | reflexivity | reflexivity | vm_compute; reflexivity].
Defined.

Lemma roundtrip_modulo_256_witness :
  Sample.decrypt_encrypt 33 [300; -1; 5] [7] 128 (Some 1) (Some 10000)
    = Some (Bytes (JS.u8_from [300; -1; 5]))
  /\ (is_bytes [300; -1; 5] = true -> JS.u8_from [300; -1; 5] = [300; -1; 5]).
Proof.
  apply (@roundtrip_modulo_256 Sample.aes Sample.env 33 [300; -1; 5] [7] 128
           (Some 1) (Some 10000)); [reflexivity | reflexivity | lia].
Defined.

(** ** concat *)

Lemma u8_copy_length dst src off : length (JS.u8_copy dst src off) = length dst.
Proof. unfold JS.u8_copy, JS.for_range. apply for_loop_writes_length. Qed.

Lemma u8_copy_lookup dst src off (k : nat) :
  JS.u8_copy dst src off !! k =
    if decide (off <= Z.of_nat k < off + Z.of_nat (length src) /\ (k < length dst)%nat)
    then Some (JS.toUint8 (default 0 (JS.get src (Z.of_nat k - off))))
    else dst !! k.
Proof.
  unfold JS.u8_copy, JS.for_range.
  rewrite (for_loop_writes_lookup _ 0 dst off (fun i => default 0 (JS.get src i))).
  repeat destruct (decide _); try reflexivity; lia.
Qed.

Lemma concat_app b1 b2 : concat b1 b2 = JS.u8_from b1 ++ JS.u8_from b2.
Proof.
  assert (Hl1 : length (JS.u8_from b1) = length b1) by apply length_fmap.
  assert (Hl2 : length (JS.u8_from b2) = length b2) by apply length_fmap.
  { unfold concat. apply list_eq. intros k.
    rewrite !u8_copy_lookup, !u8_copy_length. unfold JS.u8_new.
    rewrite length_replicate, Hl1, Hl2.
    destruct (decide (k < length b1)%nat) as [H1|H1].
    - rewrite lookup_app_l by lia.
      destruct (decide _) as [?|_]; [lia|]. destruct (decide _) as [_|?]; [|lia].
      rewrite Z.sub_0_r, get_lookup.
      destruct (JS.u8_from b1 !! k) as [x|] eqn:E; [|apply lookup_ge_None in E; lia].
      cbn. f_equal.
      pose proof (is_bytes_lookup _ _ _ (u8_from_is_bytes b1) E).
      apply Z.mod_small. lia.
    - rewrite lookup_app_r by lia. rewrite Hl1.
      destruct (decide (k < length b1 + length b2)%nat) as [H2|H2].
      + destruct (decide _) as [_|?]; [|lia].
        replace (Z.of_nat k - Z.of_nat (length b1)) with (Z.of_nat (k - length b1)) by lia.
        rewrite get_lookup.
        destruct (JS.u8_from b2 !! (k - length b1)%nat) as [x|] eqn:E;
          [|apply lookup_ge_None in E; lia].
        cbn. f_equal.
        pose proof (is_bytes_lookup _ _ _ (u8_from_is_bytes b2) E).
        apply Z.mod_small. lia.
      + destruct (decide _) as [?|_]; [lia|]. destruct (decide _) as [?|_]; [lia|].
        rewrite (proj2 (lookup_ge_None (JS.u8_from b2) _)) by lia.
        apply lookup_ge_None. rewrite length_replicate. lia. }
Qed.


(** ** The key from the password *)

Lemma password_index_next password k :
  0 <= k ->
  (if password_index password k <? Z.of_nat (length password) - 1
   then password_index password k + 1 else 0) = password_index password (k + 1).
Proof.
  intros Hk. unfold password_index.
  destruct (Z.eqb_spec (Z.of_nat (length password)) 0) as [E|E].
  - rewrite E. reflexivity.
  - set (len := Z.of_nat (length password)) in *.
    assert (0 < len) by (unfold len in *; lia).
    pose proof (Z.mod_pos_bound k len ltac:(lia)).
    pose proof (Z.div_mod k len ltac:(lia)).
    destruct (Z.ltb_spec (k mod len) (len - 1)).
    + apply (Z.mod_unique _ _ (k / len)); lia.
    + apply (Z.mod_unique _ _ (k / len + 1)); lia.
Qed.

Lemma password_loop password n : forall i0 pw0,
  0 <= i0 ->
  length (JS.for_loop n i0 (password_step password)
            (password_index password i0, pw0)).2 = length pw0
  /\ forall k : nat,
       (JS.for_loop n i0 (password_step password)
          (password_index password i0, pw0)).2 !! k =
         if decide (i0 <= Z.of_nat k < i0 + Z.of_nat n /\ (k < length pw0)%nat)
         then Some (JS.toUint8
                      (default 0 (JS.get password (password_index password (Z.of_nat k)))))
         else pw0 !! k.
Proof.
  induction n as [|n IH]; intros i0 pw0 Hi.
  - cbn. split; [reflexivity|]. intros k.
    destruct (decide _) as [[? _]|_]; [lia | reflexivity].
  - cbn [JS.for_loop].
    assert (Hs : password_step password i0 (password_index password i0, pw0)
                 = (password_index password (i0 + 1),
                    JS.u8_set pw0 i0
                      (default 0 (JS.get password (password_index password i0))))).
    { unfold password_step. now rewrite password_index_next by assumption. }
    rewrite Hs.
    destruct (IH (i0 + 1)
                (JS.u8_set pw0 i0
                   (default 0 (JS.get password (password_index password i0))))
                ltac:(lia)) as [Hl Hk].
    rewrite u8_set_length in Hl. split; [exact Hl|]. intros k.
    rewrite Hk, u8_set_length, u8_set_lookup.
    repeat destruct (decide _); try reflexivity; try lia.
    match goal with H : Z.of_nat k = i0 /\ _ |- _ => destruct H as [<- _] end.
    reflexivity.
Qed.

Lemma password_index_lookup password (k : nat) :
  is_bytes password = true ->
  JS.toUint8 (default 0 (JS.get password (password_index password (Z.of_nat k))))
  = default 0 (password !! (k mod length password)%nat).
Proof.
  intros HP. unfold password_index.
  destruct (Z.eqb_spec (Z.of_nat (length password)) 0) as [E|E].
  - assert (length password = 0%nat) as El by lia.
    apply length_zero_iff_nil in El. rewrite El. reflexivity.
  - pose proof (Z.mod_pos_bound (Z.of_nat k) (Z.of_nat (length password)) ltac:(lia)).
    rewrite <- Nat2Z.inj_mod, get_lookup.
    destruct (password !! (k mod length password)%nat) as [x|] eqn:Ex; [|reflexivity].
    cbn. pose proof (is_bytes_lookup _ _ _ HP Ex). apply Z.mod_small. lia.
Qed.

Section KeyDerivation.

Context {aes : AesCipher}.

Lemma derive_key_closed nBits password :
  is_bytes password = true ->
  derive_key nBits password =
    let pwBytes := cycled_password (Z.to_nat (nBits / 8)) password in
    let key := cipher pwBytes (keyExpansion pwBytes) in
    concat key (take (Z.to_nat (nBits / 8 - 16)) key).
Proof.
  intros HP. unfold derive_key. cbv zeta.
  unfold JS.for_range. rewrite Z.sub_0_r.
  destruct (password_loop password (Z.to_nat (nBits / 8)) 0 (JS.u8_new (nBits / 8))
              ltac:(lia)) as [Hl Hk].
  assert (H0 : password_index password 0 = 0).
  { unfold password_index. destruct (_ =? 0); [reflexivity | apply Zmod_0_l]. }
  rewrite H0 in Hl, Hk.
  change (JS.for_loop (Z.to_nat (nBits / 8)) 0 _ (0, JS.u8_new (nBits / 8)))
    with (JS.for_loop (Z.to_nat (nBits / 8)) 0 (password_step password)
            (0, JS.u8_new (nBits / 8))).
  destruct (JS.for_loop (Z.to_nat (nBits / 8)) 0 (password_step password)
              (0, JS.u8_new (nBits / 8))) as [j pwBytes].
  cbn [snd] in Hl, Hk.
  assert (Hpw : pwBytes = cycled_password (Z.to_nat (nBits / 8)) password).
  { apply list_eq. intros k. rewrite Hk. unfold JS.u8_new in *.
    rewrite length_replicate. unfold cycled_password.
    rewrite list_lookup_fmap.
    destruct (decide _) as [[_ Hlt]|Hn].
    - rewrite lookup_seq_lt by assumption. cbn [fmap option_fmap option_map Nat.add].
      f_equal. now apply password_index_lookup.
    - rewrite lookup_seq_ge by lia. cbn.
      apply lookup_ge_None. rewrite length_replicate. lia. }
  now rewrite Hpw.
Qed.

End KeyDerivation.

Lemma cycled_password_lookup n password (i : nat) :
  (i < n)%nat ->
  cycled_password n password !! i
  = Some (default 0 (password !! (i mod length password)%nat)).
Proof.
  intros Hi. unfold cycled_password.
  now rewrite list_lookup_fmap, lookup_seq_lt by assumption.
Qed.

Lemma cycled_password_length n password : length (cycled_password n password) = n.
Proof. unfold cycled_password. now rewrite length_fmap, length_seq. Qed.

Lemma cycled_password_ext n pw pw' :
  (forall i, (i < n)%nat ->
     default 0 (pw !! (i mod length pw)%nat) = default 0 (pw' !! (i mod length pw')%nat)) ->
  cycled_password n pw = cycled_password n pw'.
Proof.
  intros H. apply list_eq. intros i. destruct (decide (i < n)%nat) as [Hi|Hi].
  - rewrite !cycled_password_lookup by assumption. f_equal. now apply H.
  - rewrite !(proj2 (lookup_ge_None _ i)) by (rewrite cycled_password_length; lia).
    reflexivity.
Qed.

Section Passwords.

Context {aes : AesCipher} {env : Environment}.

(** The two calls depend on the password through the bytes of [pwBytes]
    only. *)
Lemma same_pwBytes_same_result fuel P C pw pw' nBits seq nonce :
  cycled_password (Z.to_nat (nBits / 8)) (JS.u8_from pw)
    = cycled_password (Z.to_nat (nBits / 8)) (JS.u8_from pw') ->
  encrypt fuel P pw nBits seq nonce = encrypt fuel P pw' nBits seq nonce
  /\ decrypt fuel C pw nBits seq = decrypt fuel C pw' nBits seq.
Proof.
  intros H.
  assert (Hk : derive_key nBits (JS.u8_from pw) = derive_key nBits (JS.u8_from pw')).
  { rewrite !derive_key_closed by apply u8_from_is_bytes. cbv zeta. now rewrite H. }
  unfold encrypt, decrypt. split; f_equal.
  - destruct (shift_of fuel seq) as [sh|] eqn:Hsh; [|unfold encrypt_run; now rewrite Hsh].
    destruct (valid_nBits nBits) eqn:Hv.
    + rewrite !(encrypt_run_unfold _ _ _ _ _ _ sh Hsh Hv). cbv zeta. now rewrite Hk.
    + now rewrite !(encrypt_run_invalid _ _ _ _ _ _ sh Hsh Hv).
  - destruct (valid_nBits nBits) eqn:Hv; [|now rewrite !decrypt_run_invalid].
    destruct (shift_of fuel seq) as [sh|] eqn:Hsh;
      [|unfold decrypt_run; now rewrite Hv, Hsh].
    destruct (le_lt_dec 8 (length C)) as [Hl|Hl].
    + rewrite !(decrypt_run_unfold _ _ _ _ _ sh Hsh Hv Hl). cbv zeta. now rewrite Hk.
    + now rewrite !(decrypt_run_short _ _ _ _ _ sh Hsh Hv Hl).
Qed.

(** X10: only the first [nBits/8] bytes of a password are used: two
    passwords that are at least that long and agree on these bytes give
    the same results in [encrypt] and in [decrypt]. *)
Theorem long_password_truncated fuel P C pw pw' nBits seq nonce :
  (Z.to_nat (nBits / 8) <= length pw)%nat ->
  (Z.to_nat (nBits / 8) <= length pw')%nat ->
  take (Z.to_nat (nBits / 8)) pw = take (Z.to_nat (nBits / 8)) pw' ->
  encrypt fuel P pw nBits seq nonce = encrypt fuel P pw' nBits seq nonce
  /\ decrypt fuel C pw nBits seq = decrypt fuel C pw' nBits seq.
Proof.
  intros H1 H2 Ht. apply same_pwBytes_same_result.
  apply cycled_password_ext. intros i Hi.
  assert (L1 : length (JS.u8_from pw) = length pw) by apply length_fmap.
  assert (L2 : length (JS.u8_from pw') = length pw') by apply length_fmap.
  rewrite L1, L2, !Nat.mod_small by lia.
  unfold JS.u8_from. rewrite !list_lookup_fmap.
  rewrite <- (lookup_take_lt pw _ i Hi), <- (lookup_take_lt pw' _ i Hi).
  now rewrite Ht.
Qed.

(** X11: a password shorter than the key is repeated to fill it, so a
    password and the same password written twice give the same results. *)
Theorem repeated_password fuel P C pw nBits seq nonce :
  encrypt fuel P pw nBits seq nonce = encrypt fuel P (pw ++ pw) nBits seq nonce
  /\ decrypt fuel C pw nBits seq = decrypt fuel C (pw ++ pw) nBits seq.
Proof.
  apply same_pwBytes_same_result.
  apply cycled_password_ext. intros i _.
  unfold JS.u8_from. rewrite fmap_app, length_app, !length_fmap.
  destruct (length pw) as [|l'] eqn:El.
  { apply length_zero_iff_nil in El. now subst pw. }
  rewrite <- El. assert (Hpos : (0 < length pw)%nat) by lia. clear l' El.
  set (q := JS.toUint8 <$> pw).
  assert (Lq : length q = length pw) by apply length_fmap.
  pose proof (Nat.mod_upper_bound i (length pw + length pw) ltac:(lia)) as Hr.
  pose proof (Nat.div_mod_eq i (length pw + length pw)) as Hd.
  set (r := (i mod (length pw + length pw))%nat) in *.
  destruct (decide (r < length pw)%nat) as [Hlt|Hge].
  - rewrite lookup_app_l by lia. do 2 f_equal.
    symmetry. apply (Nat.mod_unique _ _ (2 * (i / (length pw + length pw)))); lia.
  - rewrite lookup_app_r by lia. rewrite Lq. do 2 f_equal.
    symmetry. apply (Nat.mod_unique _ _ (2 * (i / (length pw + length pw)) + 1)); lia.
Qed.

(** X12: the empty password is accepted: [password\[0\]] is [undefined],
    which is stored as 0, so it gives the same results as a password of
    zero bytes of any length. *)
Theorem empty_password_is_zeros fuel P C (k : nat) nBits seq nonce :
  encrypt fuel P [] nBits seq nonce = encrypt fuel P (replicate k 0) nBits seq nonce
  /\ decrypt fuel C [] nBits seq = decrypt fuel C (replicate k 0) nBits seq.
Proof.
  apply same_pwBytes_same_result.
  apply cycled_password_ext. intros i _.
  change (JS.u8_from []) with (@nil Z). cbn [lookup list_lookup from_option].
  set (z := JS.u8_from (replicate k 0)). set (m := (i mod length z)%nat).
  destruct (z !! m) as [x|] eqn:E; [|reflexivity].
  unfold z, JS.u8_from in E. apply list_lookup_fmap_Some in E as (y & -> & Hy).
  apply lookup_replicate in Hy as [-> _]. reflexivity.
Qed.

End Passwords.

Lemma long_password_truncated_witness :
  Sample.encrypt 33 [1; 2; 3] (replicate 16 1 ++ [2]) 128 None None
    = Sample.encrypt 33 [1; 2; 3] (replicate 16 1 ++ [3; 4]) 128 None None
  /\ Sample.decrypt 33 [0; 0; 0; 0; 0; 0; 0; 0; 11; 22] (replicate 16 1 ++ [2]) 128 None
     = Sample.decrypt 33 [0; 0; 0; 0; 0; 0; 0; 0; 11; 22] (replicate 16 1 ++ [3; 4])
         128 None.
Proof.
  apply (@long_password_truncated Sample.aes Sample.env 33 [1; 2; 3]
           [0; 0; 0; 0; 0; 0; 0; 0; 11; 22] (replicate 16 1 ++ [2])
           (replicate 16 1 ++ [3; 4]) 128 None None);
    [vm_compute; lia | vm_compute; lia | reflexivity].
Defined.

Section KeyLayout.

Context {aes : AesCipher}.

(** X13: the key is the 16-byte block that the cipher returns for the
    password bytes keyed with themselves, followed by its own first
    [nBits/8 - 16] bytes: a 192- or 256-bit key carries the 128 bits of
    that block and nothing more. *)
Theorem derived_key_layout nBits password :
  valid_nBits nBits = true ->
  is_block (cipher (cycled_password (Z.to_nat (nBits / 8)) (JS.u8_from password))
              (keyExpansion
                 (cycled_password (Z.to_nat (nBits / 8)) (JS.u8_from password))))
    = true ->
  exists k,
    k = cipher (cycled_password (Z.to_nat (nBits / 8)) (JS.u8_from password))
          (keyExpansion (cycled_password (Z.to_nat (nBits / 8)) (JS.u8_from password)))
    /\ derive_key nBits (JS.u8_from password) = k ++ take (Z.to_nat (nBits / 8) - 16) k
    /\ Z.of_nat (length (derive_key nBits (JS.u8_from password))) = nBits / 8.
Proof.
  intros Hv Hb. eexists. split; [reflexivity|].
  set (k := cipher _ _) in *.
  apply is_block_spec in Hb as [Hl Hb].
  assert (Hn : nBits = 128 \/ nBits = 192 \/ nBits = 256).
  { unfold valid_nBits in Hv. lia. }
  rewrite derive_key_closed by apply u8_from_is_bytes. cbv zeta. fold k.
  rewrite concat_app.
  rewrite (u8_from_bytes k Hb).
  assert (Ht : is_bytes (take (Z.to_nat (nBits / 8 - 16)) k) = true).
  { unfold is_bytes. apply forallb_forall. intros x Hx.
    apply list_elem_of_In, elem_of_take in Hx as (i & Hx & _).
    pose proof (is_bytes_lookup _ _ _ Hb Hx). unfold is_byte. lia. }
  rewrite (u8_from_bytes _ Ht).
  replace (Z.to_nat (nBits / 8 - 16)) with (Z.to_nat (nBits / 8) - 16)%nat by lia.
  split; [reflexivity|].
  rewrite length_app, length_take, Hl.
  destruct Hn as [-> | [-> | ->]]; reflexivity.
Qed.

End KeyLayout.

Lemma derived_key_layout_witness :
  exists k,
    k = @cipher Sample.aes (cycled_password (Z.to_nat (192 / 8)) (JS.u8_from [1; 2; 3]))
          (@keyExpansion Sample.aes
             (cycled_password (Z.to_nat (192 / 8)) (JS.u8_from [1; 2; 3])))
    /\ @derive_key Sample.aes 192 (JS.u8_from [1; 2; 3])
       = k ++ take (Z.to_nat (192 / 8) - 16) k
    /\ Z.of_nat (length (@derive_key Sample.aes 192 (JS.u8_from [1; 2; 3]))) = 192 / 8.
Proof.
  apply (@derived_key_layout Sample.aes 192 [1; 2; 3]);
    [reflexivity | vm_compute; reflexivity].
Defined.

(** * The text helpers *)

(** ** Bit operators on small non-negative numbers *)

Lemma sar_nonneg x k : 0 <= x < 2 ^ 31 -> 0 <= k < 32 -> JSText.sar x k = x / 2 ^ k.
Proof.
  intros Hx Hk. unfold JSText.sar, JS.toUint32.
  rewrite toInt32_small, (Z.mod_small k (2 ^ 32)), (Z.mod_small k 32) by lia.
  apply Z.shiftr_div_pow2. lia.
Qed.

Lemma band_mask x k :
  0 <= x < 2 ^ 31 -> 0 <= k < 31 -> JS.band x (2 ^ k - 1) = x mod 2 ^ k.
Proof.
  intros Hx Hk.
  assert (0 < 2 ^ k) by (apply Z.pow_pos_nonneg; lia).
  assert (2 ^ k <= 2 ^ 30) by (apply Z.pow_le_mono_r; lia).
  assert (0 <= x mod 2 ^ k < 2 ^ k) by (apply Z.mod_pos_bound; lia).
  unfold JS.band. rewrite (toInt32_small x), (toInt32_small (2 ^ k - 1)) by lia.
  replace (2 ^ k - 1) with (Z.ones k) by (rewrite Z.ones_equiv; lia).
  rewrite Z.land_ones by lia. apply toInt32_small. lia.
Qed.

Lemma lor_disjoint hi lo k :
  0 <= k -> 0 <= lo < 2 ^ k -> Z.lor (hi * 2 ^ k) lo = hi * 2 ^ k + lo.
Proof.
  intros Hk Hlo.
  assert (Hland : Z.land (hi * 2 ^ k) lo = 0).
  { apply Z.bits_inj'. intros n Hn. rewrite Z.land_spec, Z.bits_0.
    destruct (Z.lt_ge_cases n k) as [Hlt|Hge].
    - now rewrite Z.mul_pow2_bits_low by lia.
    - rewrite <- (Z.mod_small lo (2 ^ k)) by lia.
      rewrite Z.mod_pow2_bits_high by lia. apply andb_false_r. }
  rewrite <- Z.lxor_lor by assumption. symmetry. now apply Z.add_nocarry_lxor.
Qed.

Lemma bor_disjoint hi lo k :
  0 <= k -> 0 <= hi -> 0 <= lo < 2 ^ k -> hi * 2 ^ k + lo < 2 ^ 31 ->
  JSText.bor (hi * 2 ^ k) lo = hi * 2 ^ k + lo
  /\ JSText.bor lo (hi * 2 ^ k) = hi * 2 ^ k + lo.
Proof.
  intros Hk Hhi Hlo Hs.
  assert (0 < 2 ^ k) by (apply Z.pow_pos_nonneg; lia).
  assert (0 <= hi * 2 ^ k) by nia.
  unfold JSText.bor. rewrite (toInt32_small lo), (toInt32_small (hi * 2 ^ k)) by lia.
  rewrite (Z.lor_comm lo), lor_disjoint by lia.
  split; apply toInt32_small; lia.
Qed.

Lemma shl_nonneg x k :
  0 <= x -> 0 <= k < 32 -> x * 2 ^ k < 2 ^ 31 -> JS.shl x k = x * 2 ^ k.
Proof.
  intros Hx Hk Hs.
  assert (0 < 2 ^ k) by (apply Z.pow_pos_nonneg; lia).
  assert (x < 2 ^ 31) by nia.
  unfold JS.shl, JS.toUint32.
  rewrite (toInt32_small x), (Z.mod_small k (2 ^ 32)), (Z.mod_small k 32) by lia.
  rewrite Z.shiftl_mul_pow2 by lia. apply toInt32_small. nia.
Qed.

(** ** One code unit *)

Lemma utf8_bytes_spec c :
  0 <= c < 65536 ->
  utf8_bytes c =
    if c <? 128 then [c]
    else if c <? 2048 then [192 + c / 64; 128 + c mod 64]
    else [224 + c / 4096; 128 + (c / 64) mod 64; 128 + c mod 64].
Proof.
  intros Hc. unfold utf8_bytes.
  destruct (Z.ltb_spec c 128) as [H1|H1]; [reflexivity|].
  destruct (Z.ltb_spec 127 c) as [_|?]; [|lia]. cbn [andb].
  pose proof (Z.mod_pos_bound c 64 ltac:(lia)) as Hm.
  assert (Hb2 : JSText.bor (JS.band c 63) 128 = 128 + c mod 64).
  { change 63 with (2 ^ 6 - 1). rewrite band_mask by lia.
    change 128 with (2 * 2 ^ 6) at 1.
    destruct (bor_disjoint 2 (c mod 2 ^ 6) 6) as [_ ->]; change (2 ^ 6) with 64; lia. }
  destruct (Z.ltb_spec c 2048) as [H2|H2].
  - rewrite Hb2. f_equal.
    rewrite sar_nonneg by lia. change (2 ^ 6) with 64.
    assert (0 <= c / 64 < 32).
    { split; [apply Z.div_pos; lia | apply Z.div_lt_upper_bound; lia]. }
    change 192 with (6 * 2 ^ 5) at 1.
    destruct (bor_disjoint 6 (c / 64) 5) as [_ ->]; change (2 ^ 5) with 32; lia.
  - rewrite Hb2. f_equal; [|f_equal].
    + rewrite sar_nonneg by lia. change (2 ^ 12) with 4096.
      assert (0 <= c / 4096 < 16).
      { split; [apply Z.div_pos; lia | apply Z.div_lt_upper_bound; lia]. }
      change 224 with (14 * 2 ^ 4) at 1.
      destruct (bor_disjoint 14 (c / 4096) 4) as [_ ->]; change (2 ^ 4) with 16; lia.
    + rewrite sar_nonneg by lia. change (2 ^ 6) with 64.
      assert (0 <= c / 64 < 1024).
      { split; [apply Z.div_pos; lia | apply Z.div_lt_upper_bound; lia]. }
      pose proof (Z.mod_pos_bound (c / 64) 64 ltac:(lia)).
      change 63 with (2 ^ 6 - 1). rewrite band_mask by lia.
      change 128 with (2 * 2 ^ 6) at 1.
      destruct (bor_disjoint 2 ((c / 64) mod 2 ^ 6) 6) as [_ ->];
        change (2 ^ 6) with 64; lia.
Qed.

Lemma utf8_bytes_range c b :
  0 <= c < 65536 -> b ∈ utf8_bytes c -> 0 <= b < 256.
Proof.
  intros Hc. rewrite utf8_bytes_spec by assumption.
  pose proof (Z.mod_pos_bound c 64 ltac:(lia)).
  pose proof (Z.mod_pos_bound (c / 64) 64 ltac:(lia)).
  destruct (Z.ltb_spec c 128); [|destruct (Z.ltb_spec c 2048)];
    rewrite ?elem_of_cons, elem_of_nil; intros Hb.
  - lia.
  - assert (0 <= c / 64 < 32).
    { split; [apply Z.div_pos; lia | apply Z.div_lt_upper_bound; lia]. }
    lia.
  - assert (0 <= c / 4096 < 16).
    { split; [apply Z.div_pos; lia | apply Z.div_lt_upper_bound; lia]. }
    lia.
Qed.

Lemma utf8_units_bytes c r :
  0 <= c < 65536 -> utf8_units (utf8_bytes c ++ r) = c :: utf8_units r.
Proof.
  intros Hc. rewrite utf8_bytes_spec by assumption.
  pose proof (Z.mod_pos_bound c 64 ltac:(lia)) as Hm.
  pose proof (Z.div_mod c 64 ltac:(lia)) as Hd.
  destruct (Z.ltb_spec c 128) as [H1|H1]; [|destruct (Z.ltb_spec c 2048) as [H2|H2]].
  - cbn [app utf8_units]. rewrite sar_nonneg by lia. change (2 ^ 4) with 16.
    assert (0 <= c / 16 < 8).
    { split; [apply Z.div_pos; lia | apply Z.div_lt_upper_bound; lia]. }
    destruct (Z.leb_spec 0 (c / 16)); [|lia]. destruct (Z.leb_spec (c / 16) 7); [|lia].
    cbn [andb]. unfold JSText.fromCharCode. now rewrite Z.mod_small by lia.
  - assert (Ha : 2 <= c / 64 < 32).
    { split; [apply Z.div_le_lower_bound; lia | apply Z.div_lt_upper_bound; lia]. }
    set (a := c / 64) in *. set (l := c mod 64) in *.
    cbn [app utf8_units]. rewrite sar_nonneg by lia. change (2 ^ 4) with 16.
    assert (Hk : (192 + a) / 16 = 12 \/ (192 + a) / 16 = 13).
    { pose proof (Z.div_mod (192 + a) 16 ltac:(lia)).
      pose proof (Z.mod_pos_bound (192 + a) 16 ltac:(lia)). lia. }
    destruct (Z.leb_spec (( 192 + a) / 16) 7); [lia|]. rewrite andb_false_r.
    assert (((192 + a) / 16 =? 12) || ((192 + a) / 16 =? 13) = true) as -> by lia.
    unfold utf8_two. cbn [JS.int32_of_elem].
    rewrite (toInt32_small (128 + l)) by lia.
    change 31 with (2 ^ 5 - 1). change 63 with (2 ^ 6 - 1).
    rewrite !band_mask by lia.
    replace ((192 + a) mod 2 ^ 5) with a
      by (apply (Z.mod_unique _ _ 6); change (2 ^ 5) with 32; lia).
    replace ((128 + l) mod 2 ^ 6) with l
      by (apply (Z.mod_unique _ _ 2); change (2 ^ 6) with 64; lia).
    rewrite shl_nonneg by (change (2 ^ 6) with 64; lia).
    destruct (bor_disjoint a l 6) as [-> _]; try (change (2 ^ 6) with 64; lia).
    unfold JSText.fromCharCode. change (2 ^ 6) with 64.
    rewrite Z.mod_small by lia. f_equal. lia.
  - assert (Ha : 0 <= c / 4096 < 16).
    { split; [apply Z.div_pos; lia | apply Z.div_lt_upper_bound; lia]. }
    assert (Hq : 0 <= c / 64 < 1024).
    { split; [apply Z.div_pos; lia | apply Z.div_lt_upper_bound; lia]. }
    pose proof (Z.mod_pos_bound (c / 64) 64 ltac:(lia)) as Hm2.
    pose proof (Z.div_mod (c / 64) 64 ltac:(lia)) as Hd2.
    assert (Hqq : c / 64 / 64 = c / 4096) by (rewrite Z.div_div by lia; reflexivity).
    rewrite Hqq in Hd2.
    set (a := c / 4096) in *. set (m := (c / 64) mod 64) in *. set (l := c mod 64) in *.
    cbn [app utf8_units]. rewrite sar_nonneg by lia. change (2 ^ 4) with 16.
    assert (Hk : (224 + a) / 16 = 14).
    { symmetry. apply (Z.div_unique _ _ _ a); lia. }
    rewrite Hk. cbn [Z.leb Z.eqb Z.compare Pos.compare Pos.compare_cont andb orb Pos.eqb].
    unfold utf8_three. cbn [JS.int32_of_elem].
    rewrite (toInt32_small (128 + m)), (toInt32_small (128 + l)) by lia.
    change 15 with (2 ^ 4 - 1). change 63 with (2 ^ 6 - 1).
    rewrite !band_mask by lia.
    replace ((224 + a) mod 2 ^ 4) with a
      by (apply (Z.mod_unique _ _ 14); change (2 ^ 4) with 16; lia).
    replace ((128 + m) mod 2 ^ 6) with m
      by (apply (Z.mod_unique _ _ 2); change (2 ^ 6) with 64; lia).
    replace ((128 + l) mod 2 ^ 6) with l
      by (apply (Z.mod_unique _ _ 2); change (2 ^ 6) with 64; lia).
    rewrite !shl_nonneg by (change (2 ^ 12) with 4096; change (2 ^ 6) with 64;
                            change (2 ^ 0) with 1; lia).
    destruct (bor_disjoint a (m * 2 ^ 6) 12) as [-> _];
      try (change (2 ^ 12) with 4096; change (2 ^ 6) with 64; lia).
    replace (a * 2 ^ 12 + m * 2 ^ 6) with ((a * 64 + m) * 2 ^ 6)
      by (change (2 ^ 12) with 4096; change (2 ^ 6) with 64; lia).
    destruct (bor_disjoint (a * 64 + m) (l * 2 ^ 0) 6) as [-> _];
      try (change (2 ^ 0) with 1; change (2 ^ 6) with 64; lia).
    unfold JSText.fromCharCode. change (2 ^ 6) with 64. change (2 ^ 0) with 1.
    rewrite Z.mod_small by lia. f_equal. lia.
Qed.

(** ** The decoder loop *)

Lemma arrayBufferString_loop_spec fuel : forall array (n : nat) out,
  (length array - n < fuel)%nat ->
  arrayBufferString_loop fuel array (Z.of_nat n) out
  = Some (out ++ utf8_units (drop n array)).
Proof.
  induction fuel as [|fuel IH]; intros array n out Hf; [lia|].
  cbn [arrayBufferString_loop].
  destruct (Z.ltb_spec (Z.of_nat n) (Z.of_nat (length array))) as [Hn|Hn].
  2:{ rewrite drop_ge by lia. cbn [utf8_units]. now rewrite app_nil_r. }
  destruct (lookup_lt_is_Some_2 array n ltac:(lia)) as [c Hc].
  rewrite (drop_S _ _ _ Hc). cbv zeta. rewrite get_lookup, Hc. cbn [default from_option id].
  cbn [utf8_units]. cbv zeta.
  replace (Z.of_nat n + 1) with (Z.of_nat (S n)) by lia.
  destruct ((0 <=? JSText.sar c 4) && (JSText.sar c 4 <=? 7)).
  { rewrite IH by lia. now rewrite <- app_assoc. }
  destruct ((JSText.sar c 4 =? 12) || (JSText.sar c 4 =? 13)).
  { replace (Z.of_nat (S n) + 1) with (Z.of_nat (S (S n))) by lia.
    rewrite IH by lia. rewrite get_lookup. unfold utf8_two.
    destruct (array !! S n) as [c2|] eqn:E2.
    - rewrite (drop_S _ _ _ E2). now rewrite <- app_assoc.
    - apply lookup_ge_None_1 in E2. rewrite !drop_ge by lia. cbn [utf8_units]. now rewrite app_nil_r. }
  destruct (JSText.sar c 4 =? 14).
  { replace (Z.of_nat (S n) + 1) with (Z.of_nat (S (S n))) by lia.
    replace (Z.of_nat (S (S n)) + 1) with (Z.of_nat (S (S (S n)))) by lia.
    rewrite IH by lia. rewrite !get_lookup. unfold utf8_three.
    destruct (array !! S n) as [c2|] eqn:E2.
    - rewrite (drop_S _ _ _ E2).
      destruct (array !! S (S n)) as [c3|] eqn:E3.
      + rewrite (drop_S _ _ _ E3). now rewrite <- app_assoc.
      + apply lookup_ge_None_1 in E3. rewrite !drop_ge by lia. cbn [utf8_units]. now rewrite app_nil_r.
    - apply lookup_ge_None_1 in E2.
      rewrite (lookup_ge_None_2 array (S (S n))) by lia.
      rewrite !drop_ge by lia. cbn [utf8_units]. now rewrite app_nil_r. }
  now rewrite IH by lia.
Qed.

Lemma arrayBufferString_units array : arrayBufferString array = Some (utf8_units array).
Proof.
  unfold arrayBufferString.
  change 0 with (Z.of_nat 0). rewrite arrayBufferString_loop_spec by lia.
  reflexivity.
Qed.

(** ** The encoder loop *)

Lemma stringArrayBuffer_loop (s : list Z) n : forall (i : nat) acc,
  JS.for_loop n (Z.of_nat i) (fun n utftext =>
    let c := JSText.charCodeAt s n in
    if c <? 128 then utftext ++ [c]
    else if (127 <? c) && (c <? 2048) then
      let utftext := utftext ++ [JSText.bor (JSText.sar c 6) 192] in
      utftext ++ [JSText.bor (JS.band c 63) 128]
    else
      let utftext := utftext ++ [JSText.bor (JSText.sar c 12) 224] in
      let utftext := utftext ++ [JSText.bor (JS.band (JSText.sar c 6) 63) 128] in
      utftext ++ [JSText.bor (JS.band c 63) 128]) acc
  = acc ++ flat_map (fun k => utf8_bytes (JSText.charCodeAt s (Z.of_nat k))) (seq i n).
Proof.
  induction n as [|n IH]; intros i acc; cbn [JS.for_loop seq flat_map].
  { now rewrite app_nil_r. }
  replace (Z.of_nat i + 1) with (Z.of_nat (S i)) by lia.
  rewrite IH. rewrite app_assoc. f_equal.
  cbv zeta. unfold utf8_bytes.
  destruct (_ <? 128); [reflexivity|].
  destruct ((127 <? _) && _); now rewrite <- ?app_assoc.
Qed.

Lemma stringArrayBuffer_flat_map s :
  stringArrayBuffer s = flat_map utf8_bytes (JSText.replace_crlf s).
Proof.
  unfold stringArrayBuffer. cbv zeta. unfold JS.for_range.
  rewrite Z.sub_0_r, Nat2Z.id. change 0 with (Z.of_nat 0).
  rewrite stringArrayBuffer_loop. cbn [app].
  generalize (JSText.replace_crlf s). clear s. intros s.
  rewrite <- (flat_map_ext (fun k => utf8_bytes (default 0 (s !! k)))).
  2:{ intros k. unfold JSText.charCodeAt. now rewrite get_lookup. }
  induction s as [|c s IH]; [reflexivity|].
  cbn [length seq flat_map lookup list_lookup default from_option id].
  f_equal. rewrite <- seq_shift, flat_map_concat_map, List.map_map, <- flat_map_concat_map.
  exact IH.
Qed.

Lemma replace_crlf_is_string s :
  is_string s = true -> is_string (JSText.replace_crlf s) = true.
Proof.
  unfold is_string.
  induction s as [s IH] using (induction_ltof1 _ (@length Z)). unfold ltof in IH.
  intros H. destruct s as [|c r]; [reflexivity|].
  cbn [JSText.replace_crlf]. destruct r as [|c2 r2]; [exact H|].
  cbn [forallb] in H. apply andb_prop in H as [Hc H'].
  destruct ((c =? 13) && (c2 =? 10)).
  - cbn [forallb]. apply andb_prop in H' as [_ H2].
    rewrite (IH r2) by (cbn; lia || exact H2). reflexivity.
  - cbn [forallb]. rewrite Hc. cbn [andb]. apply IH; [cbn; lia|exact H'].
Qed.

Lemma utf8_units_flat_map s :
  is_string s = true -> utf8_units (flat_map utf8_bytes s) = s.
Proof.
  unfold is_string. induction s as [|c s IH]; [reflexivity|].
  cbn [forallb flat_map]. intros H. apply andb_prop in H as [Hc Hs].
  unfold is_unit in Hc. rewrite utf8_units_bytes by lia. now rewrite IH.
Qed.

Lemma utf8_bytes_length c : (1 <= length (utf8_bytes c) <= 3)%nat.
Proof.
  unfold utf8_bytes. destruct (c <? 128); [cbn; lia|].
  destruct ((127 <? c) && _); cbn; lia.
Qed.

Lemma flat_map_utf8_bytes s :
  is_string s = true ->
  is_bytes (flat_map utf8_bytes s) = true
  /\ (length s <= length (flat_map utf8_bytes s) <= 3 * length s)%nat.
Proof.
  unfold is_string. induction s as [|c s IH]; [cbn; split; [reflexivity|lia]|].
  cbn [forallb flat_map]. intros H. apply andb_prop in H as [Hc Hs].
  destruct (IH Hs) as [IH1 IH2]. unfold is_unit in Hc. split.
  - unfold is_bytes. rewrite forallb_app. fold (is_bytes (flat_map utf8_bytes s)).
    rewrite IH1, andb_true_r. apply forallb_forall. intros b Hb.
    apply list_elem_of_In in Hb. apply utf8_bytes_range in Hb; [|lia].
    unfold is_byte. lia.
  - rewrite length_app. cbn [length]. pose proof (utf8_bytes_length c). lia.
Qed.

(** X14: text, once its CR LF pairs are turned into LF, survives
    [stringArrayBuffer] followed by [arrayBufferString], for every string
    of 16-bit code units; the decoder returns on every input. *)
Theorem text_roundtrip s :
  is_string s = true ->
  arrayBufferString (stringArrayBuffer s) = Some (JSText.replace_crlf s).
Proof.
  intros Hs. rewrite arrayBufferString_units, stringArrayBuffer_flat_map.
  now rewrite utf8_units_flat_map by now apply replace_crlf_is_string.
Qed.

Lemma text_roundtrip_witness :
  is_string [72; 13; 10; 233; 8364; 55357; 56832] = true
  /\ arrayBufferString (stringArrayBuffer [72; 13; 10; 233; 8364; 55357; 56832])
     = Some (JSText.replace_crlf [72; 13; 10; 233; 8364; 55357; 56832]).
Proof. split; [reflexivity | apply text_roundtrip; reflexivity]. Defined.

(** X15: [stringArrayBuffer] returns bytes, between one and three for each
    code unit that is left after the CR LF replacement. *)
Theorem stringArrayBuffer_bytes s :
  is_string s = true ->
  is_bytes (stringArrayBuffer s) = true
  /\ Z.of_nat (length (JSText.replace_crlf s))
     <= Z.of_nat (length (stringArrayBuffer s))
     <= 3 * Z.of_nat (length (JSText.replace_crlf s)).
Proof.
  intros Hs. rewrite stringArrayBuffer_flat_map.
  destruct (flat_map_utf8_bytes _ (replace_crlf_is_string s Hs)) as [H1 H2].
  split; [exact H1|lia].
Qed.

Lemma stringArrayBuffer_bytes_witness :
  is_string [72; 13; 10; 233; 8364] = true
  /\ is_bytes (stringArrayBuffer [72; 13; 10; 233; 8364]) = true
  /\ Z.of_nat (length (JSText.replace_crlf [72; 13; 10; 233; 8364]))
     <= Z.of_nat (length (stringArrayBuffer [72; 13; 10; 233; 8364]))
     <= 3 * Z.of_nat (length (JSText.replace_crlf [72; 13; 10; 233; 8364])).
Proof. split; [reflexivity | apply stringArrayBuffer_bytes; reflexivity]. Defined.

(** X16: [arrayBufferString] has no case for a byte whose high nibble is 8
    to 11 or 15 (a continuation byte, or the lead byte of a four-byte
    sequence): such a byte in lead position is skipped and adds nothing to
    the text. *)
Theorem arrayBufferString_skips c array :
  128 <= c < 192 \/ 240 <= c < 256 ->
  arrayBufferString (c :: array) = arrayBufferString array.
Proof.
  intros Hc. rewrite !arrayBufferString_units. f_equal.
  cbn [utf8_units]. cbv zeta. rewrite sar_nonneg by lia. change (2 ^ 4) with 16.
  assert (8 <= c / 16 < 12 \/ c / 16 = 15) as Hk.
  { pose proof (Z.div_mod c 16 ltac:(lia)).
    pose proof (Z.mod_pos_bound c 16 ltac:(lia)). lia. }
  destruct (Z.leb_spec (c / 16) 7); [lia|]. rewrite andb_false_r.
  destruct (Z.eqb_spec (c / 16) 12); [lia|].
  destruct (Z.eqb_spec (c / 16) 13); [lia|].
  destruct (Z.eqb_spec (c / 16) 14); [lia|]. reflexivity.
Qed.

Lemma arrayBufferString_skips_witness :
  (128 <= 240 < 192 \/ 240 <= 240 < 256)
  /\ arrayBufferString (240 :: [159; 152; 128; 65]) = arrayBufferString [159; 152; 128; 65].
Proof.
  split; [right; lia | apply arrayBufferString_skips; right; lia].
Defined.

(** * The text helpers with the two calls *)

Section TextCalls.

Context {aes : AesCipher} {env : Environment}.

(** X17: a text that is turned into bytes with [stringArrayBuffer],
    encrypted, decrypted and read back with [arrayBufferString] comes out
    as it went in, up to the CR LF replacement, for a valid key size and a
    sequence that is absent or not a positive multiple of 2^31. *)
Theorem text_through_cipher fuel s pw nBits seq nonce :
  is_string s = true -> valid_nBits nBits = true ->
  looping_sequence seq = false -> (33 <= fuel)%nat ->
  exists pt,
    decrypt_encrypt fuel (stringArrayBuffer s) pw nBits seq nonce = Some (Bytes pt)
    /\ arrayBufferString pt = Some (JSText.replace_crlf s).
Proof.
  intros Hs Hv Hq Hf. exists (stringArrayBuffer s). split.
  - apply roundtrip; try assumption.
    rewrite stringArrayBuffer_flat_map.
    apply flat_map_utf8_bytes. now apply replace_crlf_is_string.
  - rewrite arrayBufferString_units, stringArrayBuffer_flat_map.
    now rewrite utf8_units_flat_map by now apply replace_crlf_is_string.
Qed.

(** X18: the two calls return (a buffer, the empty string or a
    [RangeError]) exactly when [leadingZeros] does: [encrypt] when the
    sequence is absent or not a positive multiple of 2^31, [decrypt] also
    when the key size is invalid, which it tests first. *)
Theorem calls_return_iff P C pw nBits seq nonce :
  ((exists fuel r, encrypt fuel P pw nBits seq nonce = Some r)
   <-> looping_sequence seq = false)
  /\ ((exists fuel r, decrypt fuel C pw nBits seq = Some r)
      <-> valid_nBits nBits = false \/ looping_sequence seq = false).
Proof.
  split; split.
  - intros (fuel & r & H). destruct (looping_sequence seq) eqn:E; [|reflexivity].
    rewrite encrypt_never_returns in H by assumption. discriminate.
  - intros H. exists 33%nat. apply encrypt_returns; [assumption | lia].
  - intros (fuel & r & H).
    destruct (valid_nBits nBits) eqn:Hv; [|now left]. right.
    destruct (looping_sequence seq) eqn:E; [|reflexivity].
    unfold decrypt in H. rewrite decrypt_run_looping in H by assumption. discriminate.
  - intros [Hv|Hq].
    + exists 0%nat, EmptyString. unfold decrypt. now rewrite decrypt_run_invalid.
    + exists 33%nat. apply decrypt_returns; [assumption | lia].
Qed.

End TextCalls.

Lemma text_through_cipher_witness :
  exists pt,
    Sample.decrypt_encrypt 33 (stringArrayBuffer [72; 13; 10; 233; 8364]) [7] 256
      (Some 1) (Some 10000) = Some (Bytes pt)
    /\ arrayBufferString pt = Some (JSText.replace_crlf [72; 13; 10; 233; 8364]).
Proof.
  apply (@text_through_cipher Sample.aes Sample.env 33 [72; 13; 10; 233; 8364] [7] 256
           (Some 1) (Some 10000)); [reflexivity | reflexivity | reflexivity | lia].
Defined.

(** * leadingZeros on every integer *)

(** X19: what [leadingZeros] returns, for every integer: 64 for 0, 32 for
    a negative number, and otherwise 64 minus the number of bits of the
    low 31 bits of [x], a value between 33 and 63, except on the positive
    multiples of 2^31, where it does not return. *)
Theorem leadingZeros_value fuel x :
  (33 <= fuel)%nat ->
  leadingZeros fuel x =
    if x =? 0 then Some 64
    else if x <? 0 then Some 32
    else if x mod 2 ^ 31 =? 0 then None
    else Some (64 - bitlength (x mod 2 ^ 31)).
Proof.
  intros Hf.
  destruct (Z.eqb_spec x 0) as [->|Hx]; [reflexivity|].
  destruct (Z.ltb_spec x 0) as [Hneg|Hpos].
  - apply leadingZeros_negative; lia.
  - destruct (Z.eqb_spec (x mod 2 ^ 31) 0) as [Hm|Hm].
    + apply leadingZeros_looping; lia.
    + apply leadingZeros_positive; [lia | assumption | assumption].
Qed.

Lemma leadingZeros_value_witness :
  leadingZeros 33 1 = Some 63
  /\ leadingZeros 33 (2 ^ 31 + 5) = Some 61
  /\ leadingZeros 33 (2 ^ 32) = None.
Proof.
  split; [apply (leadingZeros_value 33 1); lia|].
  split; [apply (leadingZeros_value 33 (2 ^ 31 + 5)); lia|].
  apply (leadingZeros_value 33 (2 ^ 32)); lia.
Defined.

(** * Base64 *)

(** ** Six bits of a chunk *)

Lemma land_shifted_ones x k :
  0 <= k -> Z.land x (Z.shiftl (Z.ones 6) k) = Z.shiftl (Z.land (Z.shiftr x k) (Z.ones 6)) k.
Proof.
  intros Hk. apply Z.bits_inj'. intros n Hn.
  rewrite Z.land_spec, !Z.shiftl_spec by lia.
  destruct (Z.lt_ge_cases n k) as [Hlt|Hge].
  - rewrite !(Z.testbit_neg_r _ (n - k)) by lia. apply andb_false_r.
  - rewrite Z.land_spec, Z.shiftr_spec by lia. now replace (n - k + k) with n by lia.
Qed.

Lemma sextet x k :
  0 <= x < 2 ^ 31 -> 0 <= k <= 24 ->
  JSText.sar (JS.band x (63 * 2 ^ k)) k = (x / 2 ^ k) mod 64.
Proof.
  intros Hx Hk.
  assert (H0 : 0 < 2 ^ k) by (apply Z.pow_pos_nonneg; lia).
  assert (H1 : 2 ^ k <= 2 ^ 24) by (apply Z.pow_le_mono_r; lia).
  assert (Hq : 0 <= x / 2 ^ k) by (apply Z.div_pos; lia).
  assert (Hm : 0 <= (x / 2 ^ k) mod 64 < 64) by (apply Z.mod_pos_bound; lia).
  assert (Hland : Z.land x (63 * 2 ^ k) = (x / 2 ^ k) mod 64 * 2 ^ k).
  { replace (63 * 2 ^ k) with (Z.shiftl (Z.ones 6) k)
      by (rewrite Z.shiftl_mul_pow2 by lia; reflexivity).
    rewrite land_shifted_ones by lia.
    rewrite Z.shiftl_mul_pow2, Z.land_ones, Z.shiftr_div_pow2 by lia. reflexivity. }
  unfold JS.band. rewrite (toInt32_small x), (toInt32_small (63 * 2 ^ k)) by lia.
  rewrite Hland. rewrite toInt32_small by nia.
  rewrite sar_nonneg by nia. now rewrite Z.div_mul by lia.
Qed.

Lemma low_bits_shifted x m k :
  0 <= x < 2 ^ 31 -> 0 <= m <= 8 -> 0 <= k <= 8 ->
  JS.shl (JS.band x (2 ^ m - 1)) k = x mod 2 ^ m * 2 ^ k.
Proof.
  intros Hx Hm Hk.
  assert (0 < 2 ^ m) by (apply Z.pow_pos_nonneg; lia).
  assert (2 ^ m <= 2 ^ 8) by (apply Z.pow_le_mono_r; lia).
  assert (0 < 2 ^ k) by (apply Z.pow_pos_nonneg; lia).
  assert (2 ^ k <= 2 ^ 8) by (apply Z.pow_le_mono_r; lia).
  assert (0 <= x mod 2 ^ m < 2 ^ m) by (apply Z.mod_pos_bound; lia).
  rewrite band_mask by lia. apply shl_nonneg; [lia | lia | nia].
Qed.

(** The chunk of three bytes, of two bytes, and its four indices. *)
Lemma chunk3 b0 b1 b2 :
  0 <= b0 < 256 -> 0 <= b1 < 256 -> 0 <= b2 < 256 ->
  JSText.bor (JSText.bor (JS.shl b0 16) (JS.shl b1 8)) b2 = b0 * 65536 + b1 * 256 + b2.
Proof.
  intros H0 H1 H2.
  rewrite !shl_nonneg by (change (2 ^ 16) with 65536; change (2 ^ 8) with 256; lia).
  destruct (bor_disjoint b0 (b1 * 2 ^ 8) 16) as [-> _];
    try (change (2 ^ 16) with 65536; change (2 ^ 8) with 256; lia).
  replace (b0 * 2 ^ 16 + b1 * 2 ^ 8) with ((b0 * 256 + b1) * 2 ^ 8)
    by (change (2 ^ 16) with 65536; change (2 ^ 8) with 256; lia).
  destruct (bor_disjoint (b0 * 256 + b1) b2 8) as [-> _];
    change (2 ^ 8) with 256; lia.
Qed.

Lemma chunk2 b0 b1 :
  0 <= b0 < 256 -> 0 <= b1 < 256 -> JSText.bor (JS.shl b0 8) b1 = b0 * 256 + b1.
Proof.
  intros H0 H1. rewrite shl_nonneg by (change (2 ^ 8) with 256; lia).
  destruct (bor_disjoint b0 b1 8) as [-> _]; change (2 ^ 8) with 256; lia.
Qed.

Lemma indices3 b0 b1 b2 :
  0 <= b0 < 256 -> 0 <= b1 < 256 -> 0 <= b2 < 256 ->
  let chunk := JSText.bor (JSText.bor (JS.shl b0 16) (JS.shl b1 8)) b2 in
  JSText.sar (JS.band chunk 16515072) 18 = b0 / 4
  /\ JSText.sar (JS.band chunk 258048) 12 = b0 mod 4 * 16 + b1 / 16
  /\ JSText.sar (JS.band chunk 4032) 6 = b1 mod 16 * 4 + b2 / 64
  /\ JS.band chunk 63 = b2 mod 64.
Proof.
  intros H0 H1 H2. cbv zeta. rewrite chunk3 by assumption.
  set (n := b0 * 65536 + b1 * 256 + b2).
  assert (Hn : 0 <= n < 2 ^ 24) by (subst n; change (2 ^ 24) with 16777216; lia).
  assert (Hn' : 0 <= n < 2 ^ 31) by lia.
  change 16515072 with (63 * 2 ^ 18). change 258048 with (63 * 2 ^ 12).
  change 4032 with (63 * 2 ^ 6). change 63 with (2 ^ 6 - 1) at 4.
  rewrite !sextet by lia. rewrite band_mask by lia.
  change (2 ^ 18) with 262144. change (2 ^ 12) with 4096. change (2 ^ 6) with 64.
  subst n. repeat split; Z.div_mod_to_equations; lia.
Qed.

Lemma indices2 b0 b1 :
  0 <= b0 < 256 -> 0 <= b1 < 256 ->
  let chunk := JSText.bor (JS.shl b0 8) b1 in
  JSText.sar (JS.band chunk 64512) 10 = b0 / 4
  /\ JSText.sar (JS.band chunk 1008) 4 = b0 mod 4 * 16 + b1 / 16
  /\ JS.shl (JS.band chunk 15) 2 = b1 mod 16 * 4.
Proof.
  intros H0 H1. cbv zeta. rewrite chunk2 by assumption.
  set (n := b0 * 256 + b1).
  assert (Hn : 0 <= n < 2 ^ 16) by (subst n; change (2 ^ 16) with 65536; lia).
  assert (Hn' : 0 <= n < 2 ^ 31) by lia.
  change 64512 with (63 * 2 ^ 10). change 1008 with (63 * 2 ^ 4).
  change 15 with (2 ^ 4 - 1).
  rewrite !sextet by lia. rewrite low_bits_shifted by lia.
  change (2 ^ 10) with 1024. change (2 ^ 4) with 16. change (2 ^ 2) with 4.
  subst n. repeat split; Z.div_mod_to_equations; lia.
Qed.

Lemma indices1 b0 :
  0 <= b0 < 256 ->
  JSText.sar (JS.band b0 252) 2 = b0 / 4 /\ JS.shl (JS.band b0 3) 4 = b0 mod 4 * 16.
Proof.
  intros H0. change 252 with (63 * 2 ^ 2). change 3 with (2 ^ 2 - 1).
  rewrite sextet, low_bits_shifted by lia.
  change (2 ^ 2) with 4. change (2 ^ 4) with 16.
  split; Z.div_mod_to_equations; lia.
Qed.

(** ** The alphabet *)

Lemma encodings_length : length encodings = 64%nat.
Proof. reflexivity. Qed.

Lemma encodings_lookup v : 0 <= v < 64 -> JS.get encodings v = Some (base64_char v).
Proof.
  intros Hv. unfold base64_char. destruct (JS.get encodings v) as [c|] eqn:E; [reflexivity|].
  unfold JS.get in E. destruct (Z.ltb_spec v 0); [lia|].
  apply lookup_ge_None in E. rewrite encodings_length in E. lia.
Qed.

Lemma append_encodings_indices acc indices tail :
  Forall (fun v => 0 <= v < 64) indices ->
  append_encodings (Some acc) indices tail
  = Some (acc ++ (base64_char <$> indices) ++ JSLoop.code_units tail).
Proof.
  intros H. unfold append_encodings. cbn [mbind option_bind].
  assert (Hm : mapM (JS.get encodings) indices = Some (base64_char <$> indices)).
  { induction H as [|v l Hv _ IH]; [reflexivity|].
    cbn [mapM fmap list_fmap]. rewrite encodings_lookup by assumption.
    cbn [mbind option_bind]. rewrite IH. reflexivity. }
  rewrite Hm. reflexivity.
Qed.

(** ** The main loop *)

Lemma for_loop_step_app {A : Type} (body : Z -> option (list A) -> option (list A))
    (g : nat -> list A) step n : forall (k : nat) acc,
  (forall (j : nat) acc, (k <= j < k + n)%nat ->
     body (Z.of_nat j * step) (Some acc) = Some (acc ++ g j)) ->
  JSLoop.for_loop_step n step (Z.of_nat k * step) body (Some acc)
  = Some (acc ++ flat_map g (seq k n)).
Proof.
  induction n as [|n IH]; intros k acc Hb; cbn [JSLoop.for_loop_step seq flat_map].
  { now rewrite app_nil_r. }
  rewrite Hb by lia.
  replace (Z.of_nat k * step + step) with (Z.of_nat (S k) * step) by lia.
  rewrite IH by (intros; apply Hb; lia). now rewrite <- app_assoc.
Qed.

Lemma base64_groups_triples (q : nat) : forall bytes,
  (3 * q <= length bytes)%nat ->
  base64_groups bytes
  = flat_map (fun j => base64_groups (take 3 (drop (3 * j) bytes))) (seq 0 q)
    ++ base64_groups (drop (3 * q) bytes).
Proof.
  induction q as [|q IH]; intros bytes Hl; [reflexivity|].
  destruct bytes as [|b0 [|b1 [|b2 rest]]]; cbn [length] in Hl; try lia.
  cbn [seq flat_map]. rewrite <- seq_shift, flat_map_concat_map, List.map_map.
  rewrite <- flat_map_concat_map.
  replace (3 * S q)%nat with (3 + 3 * q)%nat by lia.
  change (drop (3 * 0) (b0 :: b1 :: b2 :: rest)) with (b0 :: b1 :: b2 :: rest).
  change (take 3 (b0 :: b1 :: b2 :: rest)) with [b0; b1; b2].
  change (drop (3 + 3 * q) (b0 :: b1 :: b2 :: rest)) with (drop (3 * q) rest).
  rewrite (flat_map_ext _ (fun j => base64_groups (take 3 (drop (3 * j) rest)))).
  2:{ intros j. replace (3 * S j)%nat with (3 + 3 * j)%nat by lia. reflexivity. }
  change (base64_groups (b0 :: b1 :: b2 :: rest))
    with ([base64_char (b0 / 4); base64_char (b0 mod 4 * 16 + b1 / 16);
           base64_char (b1 mod 16 * 4 + b2 / 64); base64_char (b2 mod 64)]
          ++ base64_groups rest).
  change (base64_groups [b0; b1; b2])
    with [base64_char (b0 / 4); base64_char (b0 mod 4 * 16 + b1 / 16);
          base64_char (b1 mod 16 * 4 + b2 / 64); base64_char (b2 mod 64)].
  rewrite (IH rest) by lia. now rewrite <- app_assoc.
Qed.

Lemma arrayBufferBase64_bytes bytes :
  is_bytes bytes = true -> arrayBufferBase64 bytes = Some (base64_groups bytes).
Proof.
  intros HB. unfold arrayBufferBase64. cbv zeta. rewrite (u8_from_bytes bytes HB).
  set (len := length bytes).
  pose proof (Nat.div_mod_eq len 3) as Hd.
  pose proof (Nat.mod_upper_bound len 3 ltac:(lia)) as Hr.
  set (q := (len / 3)%nat) in *. set (r := (len mod 3)%nat) in *.
  assert (Hrem : Z.rem (Z.of_nat len) 3 = Z.of_nat r).
  { rewrite Z.rem_mod_nonneg by lia. subst r. now rewrite Nat2Z.inj_mod. }
  rewrite Hrem.
  replace (Z.of_nat len - Z.of_nat r) with (Z.of_nat q * 3) by lia.
  unfold JSLoop.for_range_step.
  replace (JS.ceil_div (Z.of_nat q * 3 - 0) 3) with (Z.of_nat q).
  2:{ unfold JS.ceil_div. rewrite Z.sub_0_r.
      replace (- (Z.of_nat q * 3)) with ((- Z.of_nat q) * 3) by lia.
      rewrite Z.div_mul by lia. lia. }
  rewrite Nat2Z.id.
  set (loop := JSLoop.for_loop_step q 3 0 _ (Some [])).
  assert (Hloop : loop
            = Some (flat_map (fun j => base64_groups (take 3 (drop (3 * j) bytes)))
                      (seq 0 q))).
  { subst loop. change 0 with (Z.of_nat 0 * 3) at 1.
    rewrite (for_loop_step_app _
               (fun j => base64_groups (take 3 (drop (3 * j) bytes))));
      [reflexivity|].
    intros j acc Hj.
      assert (Hlt : (3 * j + 2 < length bytes)%nat) by (fold len; lia).
      destruct (lookup_lt_is_Some_2 bytes (3 * j) ltac:(lia)) as [b0 E0].
      destruct (lookup_lt_is_Some_2 bytes (3 * j + 1) ltac:(lia)) as [b1 E1].
      destruct (lookup_lt_is_Some_2 bytes (3 * j + 2) ltac:(lia)) as [b2 E2].
      pose proof (is_bytes_lookup _ _ _ HB E0) as R0.
      pose proof (is_bytes_lookup _ _ _ HB E1) as R1.
      pose proof (is_bytes_lookup _ _ _ HB E2) as R2.
      replace (Z.of_nat j * 3) with (Z.of_nat (3 * j)) by lia.
      replace (Z.of_nat (3 * j) + 1) with (Z.of_nat (3 * j + 1)) by lia.
      replace (Z.of_nat (3 * j) + 2) with (Z.of_nat (3 * j + 2)) by lia.
      rewrite !get_lookup, E0, E1, E2. cbn [default from_option id].
      destruct (indices3 b0 b1 b2 R0 R1 R2) as (-> & -> & -> & ->).
      rewrite append_encodings_indices.
      2:{ repeat constructor; Z.div_mod_to_equations; lia. }
      rewrite (drop_S _ _ _ E0).
      rewrite (drop_S _ b1 (S (3 * j))) by (rewrite <- E1; f_equal; lia).
      rewrite (drop_S _ b2 (S (S (3 * j)))) by (rewrite <- E2; f_equal; lia).
      reflexivity. }
  rewrite Hloop. clear Hloop loop.
  rewrite (base64_groups_triples q bytes) by (fold len; lia).
  assert (Hdrop : length (drop (3 * q) bytes) = r) by (rewrite length_drop; fold len; lia).
  replace (Z.of_nat q * 3) with (Z.of_nat (3 * q)) by lia.
  destruct r as [|[|[|r]]]; [| | |lia].
  - change (Z.of_nat 0 =? 1) with false. change (Z.of_nat 0 =? 2) with false. cbv iota.
    apply length_zero_iff_nil in Hdrop. rewrite Hdrop. cbn [base64_groups].
    now rewrite app_nil_r.
  - change (Z.of_nat 1 =? 1) with true. cbv iota.
    destruct (drop (3 * q) bytes) as [|b0 [|? ?]] eqn:E; try discriminate.
    assert (E0 : bytes !! (3 * q)%nat = Some b0).
    { rewrite <- (Nat.add_0_r (3 * q)), <- lookup_drop, E. reflexivity. }
    pose proof (is_bytes_lookup _ _ _ HB E0) as R0.
    rewrite get_lookup, E0. cbn [default from_option id].
    destruct (indices1 b0 R0) as (-> & ->).
    rewrite append_encodings_indices.
    2:{ repeat constructor; Z.div_mod_to_equations; lia. }
    reflexivity.
  - change (Z.of_nat 2 =? 1) with false. change (Z.of_nat 2 =? 2) with true. cbv iota.
    destruct (drop (3 * q) bytes) as [|b0 [|b1 [|? ?]]] eqn:E; try discriminate.
    assert (E0 : bytes !! (3 * q)%nat = Some b0).
    { rewrite <- (Nat.add_0_r (3 * q)), <- lookup_drop, E. reflexivity. }
    assert (E1 : bytes !! (3 * q + 1)%nat = Some b1).
    { rewrite <- lookup_drop, E. reflexivity. }
    pose proof (is_bytes_lookup _ _ _ HB E0) as R0.
    pose proof (is_bytes_lookup _ _ _ HB E1) as R1.
    replace (Z.of_nat (3 * q) + 1) with (Z.of_nat (3 * q + 1)) by lia.
    rewrite !get_lookup, E0, E1. cbn [default from_option id].
    destruct (indices2 b0 b1 R0 R1) as (-> & -> & ->).
    rewrite append_encodings_indices.
    2:{ repeat constructor; Z.div_mod_to_equations; lia. }
    reflexivity.
Qed.

(** ** The text that comes out *)

Lemma list_ind3 {A : Type} (P : list A -> Prop) :
  P [] -> (forall a, P [a]) -> (forall a b, P [a; b]) ->
  (forall a b c r, P r -> P (a :: b :: c :: r)) ->
  forall l, P l.
Proof.
  intros H0 H1 H2 H3. fix IH 1.
  intros [|a [|b [|c r]]]; [exact H0 | apply H1 | apply H2 | apply H3, IH].
Qed.

Lemma encodings_NoDup : NoDup encodings.
Proof. apply (bool_decide_unpack _). vm_compute. exact I. Qed.

Lemma encodings_no_pad : 61 ∉ encodings.
Proof. apply (bool_decide_unpack _). vm_compute. exact I. Qed.

Lemma base64_char_lookup v :
  0 <= v < 64 -> encodings !! Z.to_nat v = Some (base64_char v).
Proof.
  intros Hv. rewrite <- encodings_lookup by assumption.
  unfold JS.get. destruct (Z.ltb_spec v 0); [lia | reflexivity].
Qed.

Lemma base64_char_in v : 0 <= v < 64 -> base64_char v ∈ encodings.
Proof. intros Hv. eapply list_elem_of_lookup_2, base64_char_lookup, Hv. Qed.

Lemma base64_char_inj u v :
  0 <= u < 64 -> 0 <= v < 64 -> base64_char u = base64_char v -> u = v.
Proof.
  intros Hu Hv E.
  pose proof (base64_char_lookup u Hu) as Lu.
  pose proof (base64_char_lookup v Hv) as Lv. rewrite <- E in Lv.
  pose proof (NoDup_lookup _ _ _ _ encodings_NoDup Lu Lv). lia.
Qed.

Lemma base64_char_not_pad v : 0 <= v < 64 -> base64_char v <> 61.
Proof.
  intros Hv E. apply encodings_no_pad. rewrite <- E. now apply base64_char_in.
Qed.

Lemma is_bytes_cons b l :
  is_bytes (b :: l) = true <-> 0 <= b < 256 /\ is_bytes l = true.
Proof.
  unfold is_bytes. cbn [forallb]. rewrite andb_true_iff. unfold is_byte.
  split; intros [H1 H2]; (split; [lia | exact H2]).
Qed.

Lemma base64_groups_length bytes :
  Z.of_nat (length (base64_groups bytes)) = 4 * JS.ceil_div (Z.of_nat (length bytes)) 3.
Proof.
  induction bytes as [|a|a b|a b c r IH] using list_ind3; try reflexivity.
  change (base64_groups (a :: b :: c :: r))
    with ([base64_char (a / 4); base64_char (a mod 4 * 16 + b / 16);
           base64_char (b mod 16 * 4 + c / 64); base64_char (c mod 64)]
          ++ base64_groups r).
  rewrite length_app. cbn [length]. rewrite Nat2Z.inj_add, IH.
  unfold JS.ceil_div. rewrite !Nat2Z.inj_succ.
  replace (- Z.succ (Z.succ (Z.succ (Z.of_nat (length r)))))
    with (- Z.of_nat (length r) + (-1) * 3) by lia.
  rewrite Z.div_add by lia. change (Z.of_nat 4) with 4. lia.
Qed.

Lemma base64_groups_alphabet bytes :
  is_bytes bytes = true ->
  Forall (fun c => c ∈ encodings \/ c = 61) (base64_groups bytes).
Proof.
  induction bytes as [|a|a b|a b c r IH] using list_ind3; intros HB.
  - constructor.
  - apply is_bytes_cons in HB as [Ha _]. cbn [base64_groups].
    rewrite !Forall_cons, Forall_nil.
    repeat split; try (left; apply base64_char_in; Z.div_mod_to_equations; lia);
      now right.
  - apply is_bytes_cons in HB as [Ha HB]. apply is_bytes_cons in HB as [Hb _].
    cbn [base64_groups].
    rewrite !Forall_cons, Forall_nil.
    repeat split; try (left; apply base64_char_in; Z.div_mod_to_equations; lia);
      now right.
  - apply is_bytes_cons in HB as [Ha HB]. apply is_bytes_cons in HB as [Hb HB].
    apply is_bytes_cons in HB as [Hc HB].
    change (base64_groups (a :: b :: c :: r))
      with ([base64_char (a / 4); base64_char (a mod 4 * 16 + b / 16);
             base64_char (b mod 16 * 4 + c / 64); base64_char (c mod 64)]
            ++ base64_groups r).
    apply Forall_app. split; [|now apply IH].
    rewrite !Forall_cons, Forall_nil.
    repeat split; left; apply base64_char_in; Z.div_mod_to_equations; lia.
Qed.

Ltac base64_pad_clash :=
  match goal with
  | H : base64_char ?v = 61 |- _ =>
      exfalso; apply (base64_char_not_pad v); [Z.div_mod_to_equations; lia | exact H]
  | H : 61 = base64_char ?v |- _ =>
      exfalso; apply (base64_char_not_pad v);
      [Z.div_mod_to_equations; lia | symmetry; exact H]
  end.

Ltac base64_same_index H :=
  apply base64_char_inj in H; [| Z.div_mod_to_equations; lia | Z.div_mod_to_equations; lia].

Lemma base64_groups_inj l1 : forall l2,
  is_bytes l1 = true -> is_bytes l2 = true ->
  base64_groups l1 = base64_groups l2 -> l1 = l2.
Proof.
  induction l1 as [|a|a b|a b c r IH] using list_ind3;
    intros [|a' [|b' [|c' r']]] H1 H2 E;
    repeat match goal with
           | H : is_bytes (_ :: _) = true |- _ => apply is_bytes_cons in H as [? H]
           end;
    cbn [base64_groups app] in E; try reflexivity; try discriminate;
    injection E; clear E; intros; try base64_pad_clash;
    repeat match goal with
           | H : base64_char _ = base64_char _ |- _ => base64_same_index H
           end.
  - f_equal. Z.div_mod_to_equations. lia.
  - f_equal; [|f_equal]; Z.div_mod_to_equations; lia.
  - f_equal; [|f_equal; [|f_equal; [|now apply IH]]]; Z.div_mod_to_equations; lia.
Qed.

Lemma arrayBufferBase64_closed l :
  arrayBufferBase64 l = Some (base64_groups (JS.u8_from l)).
Proof.
  rewrite <- (arrayBufferBase64_bytes _ (u8_from_is_bytes l)).
  unfold arrayBufferBase64. now rewrite u8_from_idem.
Qed.

(** X20: [arrayBufferBase64] returns the Base64 text of the bytes: for
    every three bytes the four characters of the alphabet that their four
    groups of six bits select, and for one or two bytes that are left two
    or three characters (the missing bits 0) and [=] up to four. No index
    leaves the alphabet. *)
Theorem arrayBufferBase64_groups arrayBuffer :
  arrayBufferBase64 arrayBuffer = Some (base64_groups (JS.u8_from arrayBuffer)).
Proof. apply arrayBufferBase64_closed. Qed.

(** X21: the text that [arrayBufferBase64] returns has four characters
    for every three bytes, rounded up, and each of them is a character of
    the alphabet or [=]. *)
Theorem arrayBufferBase64_length arrayBuffer :
  exists base64,
    arrayBufferBase64 arrayBuffer = Some base64
    /\ Z.of_nat (length base64) = 4 * JS.ceil_div (Z.of_nat (length arrayBuffer)) 3
    /\ Forall (fun c => c ∈ encodings \/ c = 61) base64.
Proof.
  eexists. split; [apply arrayBufferBase64_closed|]. split.
  - rewrite base64_groups_length. unfold JS.u8_from. now rewrite length_fmap.
  - apply base64_groups_alphabet, u8_from_is_bytes.
Qed.

(** X22: [arrayBufferBase64] loses nothing: two buffers with the same
    text have the same bytes. *)
Theorem arrayBufferBase64_injective buffer1 buffer2 :
  arrayBufferBase64 buffer1 = arrayBufferBase64 buffer2 ->
  JS.u8_from buffer1 = JS.u8_from buffer2.
Proof.
  intros E. rewrite !arrayBufferBase64_closed in E. injection E as E.
  apply base64_groups_inj; [apply u8_from_is_bytes | apply u8_from_is_bytes | exact E].
Qed.

Lemma arrayBufferBase64_injective_witness :
  JS.u8_from [77; 97; 110; 256] = JS.u8_from [333; 97; 110; 0].
Proof. apply arrayBufferBase64_injective. vm_compute. reflexivity. Defined.

(** * Counter mode, byte by byte *)

Section CounterMode.

Context {aes : AesCipher} {env : Environment}.

(** X23: what [encrypt] computes, for a valid key size and the shift
    amount [sh] of its sequence: eight zero bytes, then for every
    plaintext byte [j] its xor with byte [j mod 16] of the block that
    [Aes.cipher] returns for the counter block of block [j / 16] (the zero
    header followed by [b >>> sh] and [b], four bytes each) under the key
    schedule of the derived key. *)
Theorem encrypt_is_counter_mode fuel P pw nBits seq nonce sh :
  shift_of fuel seq = Some sh -> valid_nBits nBits = true ->
  exists ct,
    encrypt fuel P pw nBits seq nonce = Some (Bytes ct)
    /\ length ct = (length P + 8)%nat
    /\ (forall k, (k < 8)%nat -> ct !! k = Some 0)
    /\ (forall j p, P !! j = Some p ->
          ct !! (8 + j)%nat =
            Some (xor8 (JS.get (cipher (replicate 8 0 ++ counter_bytes (Z.of_nat j / 16) sh)
                                  (keyExpansion (derive_key nBits (JS.u8_from pw))))
                               (Z.of_nat j mod 16))
                       (Some (p mod 256)))).
Proof.
  intros Hsh Hv.
  destruct (encrypt_spec fuel P pw nBits seq nonce sh Hsh Hv) as (ct & E & Hl & H0 & Hx).
  exists ct. split; [exact E|]. split; [exact Hl|]. split; [exact H0|].
  intros j p Hj. rewrite (Hx j p Hj). reflexivity.
Qed.

(** X24: what [decrypt] computes, for a valid key size, the shift amount
    [sh] of its sequence and at least eight bytes: it reads the first
    eight bytes as the header of every counter block, and returns for
    every later byte [8 + j] its xor with byte [j mod 16] of the block
    that [Aes.cipher] returns for the counter block of block [j / 16]. *)
Theorem decrypt_is_counter_mode fuel C pw nBits seq sh :
  shift_of fuel seq = Some sh -> valid_nBits nBits = true ->
  (8 <= length C)%nat ->
  exists pt,
    decrypt fuel C pw nBits seq = Some (Bytes pt)
    /\ length pt = (length C - 8)%nat
    /\ (forall j c, C !! (8 + j)%nat = Some c ->
          pt !! j =
            Some (xor8 (JS.get (cipher (take 8 (JS.u8_from C)
                                        ++ counter_bytes (Z.of_nat j / 16) sh)
                                  (keyExpansion (derive_key nBits (JS.u8_from pw))))
                               (Z.of_nat j mod 16))
                       (Some (c mod 256)))).
Proof.
  intros Hsh Hv Hlen.
  destruct (decrypt_spec fuel C pw nBits seq sh Hsh Hv Hlen) as (pt & E & Hl & Hx).
  exists pt. split; [exact E|]. split; [exact Hl|].
  intros j c Hj. rewrite (Hx j c Hj). reflexivity.
Qed.

End CounterMode.

Lemma encrypt_is_counter_mode_witness :
  exists ct,
    Sample.encrypt 33 (replicate 20 9) [7] 128 (Some 5) None = Some (Bytes ct)
    /\ length ct = (length (replicate 20 9) + 8)%nat
    /\ (forall k, (k < 8)%nat -> ct !! k = Some 0)
    /\ (forall j p, replicate 20 9 !! j = Some p ->
          ct !! (8 + j)%nat =
            Some (xor8 (JS.get (@cipher Sample.aes
                                  (replicate 8 0 ++ counter_bytes (Z.of_nat j / 16) 3)
                                  (@keyExpansion Sample.aes
                                     (@derive_key Sample.aes 128 (JS.u8_from [7]))))
                               (Z.of_nat j mod 16))
                       (Some (p mod 256)))).
Proof.
  apply (@encrypt_is_counter_mode Sample.aes Sample.env 33 (replicate 20 9) [7] 128
           (Some 5) None 3); [vm_compute; reflexivity | reflexivity].
Defined.

Lemma decrypt_is_counter_mode_witness :
  exists pt,
    Sample.decrypt 33 [1; 2; 3; 4; 5; 6; 7; 8; 11; 22; 33] [7] 192 None = Some (Bytes pt)
    /\ length pt = (length [1; 2; 3; 4; 5; 6; 7; 8; 11; 22; 33] - 8)%nat
    /\ (forall j c, [1; 2; 3; 4; 5; 6; 7; 8; 11; 22; 33] !! (8 + j)%nat = Some c ->
          pt !! j =
            Some (xor8 (JS.get (@cipher Sample.aes
                                  (take 8 (JS.u8_from [1; 2; 3; 4; 5; 6; 7; 8; 11; 22; 33])
                                   ++ counter_bytes (Z.of_nat j / 16) 8)
                                  (@keyExpansion Sample.aes
                                     (@derive_key Sample.aes 192 (JS.u8_from [7]))))
                               (Z.of_nat j mod 16))
                       (Some (c mod 256)))).
Proof.
  apply (@decrypt_is_counter_mode Sample.aes 33 [1; 2; 3; 4; 5; 6; 7; 8; 11; 22; 33]
           [7] 192 None 8); [reflexivity | reflexivity | cbn; lia].
Defined.
